(** * PairwiseRanker: the tree encoder of [Reranker/tree_rnn.py]

    A shallow embedding of the tree structure ([Node], [BinaryNode]), of the
    linearizer ([gen_nn_inputs] and its helpers), of the units and the
    evaluators of [TreeRNN] and of its prediction, followed by the
    properties of the specification checked against them.

    Python objects live in a store indexed by addresses, so that the
    back-references ([parent]) and the fields assigned in place ([idx],
    [height], [size], [num_leaves]) are shared the way they are in the
    program.  Python integers are [Z]; the integers of a numpy array of
    [dtype='int32'] are [Z] cut to 32 bits.  A computation that can raise
    returns a [res]. *)

From stdpp Require Import gmap list fin_maps.
From Stdlib Require Import ZArith Lia Permutation.
From Stdlib Require Import QArith.
From Stdlib Require Import Floats.SpecFloat.

Open Scope Z_scope.

(** ** Outcomes of a call *)

(** The exceptions the modelled code can raise.  [OutOfFuel] is not a Python
    exception: it marks a loop or a recursion cut off by the bound that the
    model threads through them.  [Unallocated] marks a read outside the
    store, which no Python program can perform. *)
Inductive exn : Type :=
  | AssertionError
  | IndexError
  | ValueError
  | TypeError
  | AttributeError
  | OverflowError
  | NotImplementedError
  | OutOfFuel
  | Unallocated.

Inductive res (A : Type) : Type :=
  | Ok (a : A)
  | Err (e : exn).
Arguments Ok {A} a.
Arguments Err {A} e.

#[global] Instance res_ret : MRet res := fun A a => Ok a.
#[global] Instance res_bind : MBind res := fun A B k m =>
  match m with
  | Ok a => k a
  | Err e => Err e
  end.

(** [assert c] *)
Definition assert (c : bool) : res unit :=
  if c then Ok tt else Err AssertionError.

(** A [for] loop whose body can raise: the state is threaded from left to
    right and the first exception stops the loop. *)
Fixpoint for_each {A S : Type} (body : S -> A -> res S) (l : list A) (s : S)
  : res S :=
  match l with
  | [] => Ok s
  | a :: l' => s' ← body s a; for_each body l' s'
  end.

(** [[f(a) for a in l]] for an [f] that can raise. *)
Fixpoint map_res {A B : Type} (f : A -> res B) (l : list A) : res (list B) :=
  match l with
  | [] => Ok []
  | a :: l' => b ← f a; bs ← map_res f l'; Ok (b :: bs)
  end.

(** ** Calling a Python function

    A function written with [def], without defaults and without a starred
    parameter, has a fixed number of positional parameters: a call with
    another number of arguments raises [TypeError] before the body runs.
    [Env] holds the values of the variables that the body captures from the
    enclosing scope. *)
Record pyfun (Env A R : Type) : Type := PyFun {
  params : nat;
  body : Env -> list A -> res R;
}.
Arguments PyFun {Env A R} params body.
Arguments params {Env A R} p.
Arguments body {Env A R} p env args.

(** The call of [f] on the arguments [args]. *)
Definition py_call {Env A R : Type} (f : pyfun Env A R) (env : Env)
    (args : list A) : res R :=
  if (length args =? params f)%nat then body f env args else Err TypeError.

(** ** Python sequences *)

(** [l[i]] for a Python list or a first-axis index of an array: a negative
    index counts from the end, an index outside [-len, len) raises. *)
Definition py_index {A : Type} (l : list A) (i : Z) : res A :=
  let n := Z.of_nat (length l) in
  let j := if i <? 0 then i + n else i in
  if (0 <=? j) && (j <? n) then
    match l !! Z.to_nat j with
    | Some a => Ok a
    | None => Err IndexError
    end
  else Err IndexError.

(** The bound of a slice, clipped the way Python clips it. *)
Definition py_clip (len : nat) (k : Z) : nat :=
  let n := Z.of_nat len in
  Z.to_nat (Z.min n (Z.max 0 (if k <? 0 then k + n else k))).

(** [l[:k]] and [l[k:]] *)
Definition py_take {A : Type} (l : list A) (k : Z) : list A :=
  take (py_clip (length l) k) l.
Definition py_drop {A : Type} (l : list A) (k : Z) : list A :=
  drop (py_clip (length l) k) l.

(** ** Integers of 32 bits *)

(** The value that numpy keeps of an integer stored with [dtype='int32']:
    the low 32 bits, read as a signed number. *)
Definition int32 (v : Z) : Z := (v + 2 ^ 31) mod 2 ^ 32 - 2 ^ 31.

(** A Python integer fits a C [long] of 64 bits. *)
Definition in_int64 (v : Z) : bool := (- 2 ^ 63 <=? v) && (v <? 2 ^ 63).

(** The conversion of one Python integer by [np.array(..., dtype='int32')]:
    an integer outside the 64 bits of a C [long] raises [OverflowError], any
    other is cut to its low 32 bits. *)
Definition np_int32 (v : Z) : res Z :=
  if in_int64 v then Ok (int32 v) else Err OverflowError.

(** [range(n)], as integers *)
Definition arange (n : nat) : list Z := map Z.of_nat (seq 0 n).

(** [np.arange(a, b)] *)
Definition arange2 (a b : Z) : list Z :=
  map (fun k => a + Z.of_nat k) (seq 0 (Z.to_nat (b - a))).

(** ** The tensor engine

    Theano is the numeric substrate of the program.  Its one- and
    two-dimensional float tensors and the operations the program applies to
    them are an interface here; the program's own definitions are written
    against it.  A stack of vectors (a matrix built row by row by the
    program, such as the table of hidden states) is a list of vectors. *)
Class TensorEngine : Type := {
  vec : Type;                      (* a vector of floats *)
  mat : Type;                      (* a weight matrix *)
  dot : mat -> vec -> vec;         (* T.dot(W, v) *)
  vadd : vec -> vec -> vec;        (* a + b *)
  vsub : vec -> vec -> vec;        (* a - b *)
  vmul : vec -> vec -> vec;        (* a * b, elementwise *)
  vtanh : vec -> vec;              (* T.tanh *)
  vsigmoid : vec -> vec;           (* T.nnet.sigmoid *)
  softmax : vec -> vec;            (* T.nnet.softmax *)
  zeros : nat -> vec;              (* np.zeros(n) *)
  vflag : bool -> vec -> vec;      (* v * b for a 0/1 flag b *)
}.

(** An engine whose addition is commutative, as the addition of IEEE 754
    floats is.  Nothing is asked of the grouping of a sum: floating-point
    addition is not associative. *)
Class CommAdd (E : TensorEngine) : Prop :=
  vadd_comm : forall a b : vec, vadd a b = vadd b a.

(** The binary32 float of value [m * 2 ^ e], rounded to nearest even. *)
Definition f32 (m e : Z) : spec_float := binary_normalize 24 128 m e false.

(** An engine to run the definitions on, over the binary32 floats of
    [theano.config.floatX = 'float32']: vectors of length one, matrices as
    scalars, sums and products rounded as IEEE 754 rounds them.  The library
    of floats has no hyperbolic tangent, sigmoid or softmax: the three are
    the identity here. *)
Definition F32engine : TensorEngine := {|
  vec := spec_float;
  mat := spec_float;
  dot := SFmul 24 128;
  vadd := SFadd 24 128;
  vsub := SFsub 24 128;
  vmul := SFmul 24 128;
  vtanh := fun v => v;
  vsigmoid := fun v => v;
  softmax := fun v => v;
  zeros := fun _ => S754_zero false;
  vflag := fun b v => SFmul 24 128 v (if b then f32 1 0 else S754_zero false);
|}.

(** ** TreeRNN: parameters and units *)

Section TreeRNN.
Context {E : TensorEngine}.

(** The fields of a [TreeRNN] object that the forward pass reads.
    [_predict] is the attribute that the last statement of [__init__]
    assigns: [None] for an object that does not have it. *)
Record TreeRNN : Type := {
  hidden_dim : nat;
  degree : nat;
  irregular_tree : bool;
  embeddings : list vec;
  W_hx : mat; W_hh : mat; b_h : vec;
  W_gate : mat; U_gate : mat; b_gate : vec;
  W_out : mat; b_out : vec;
  _predict : option (list Z -> list (list Z) -> res vec);
}.

(** [T.sum(child_h, axis=0)]: the rows added one after the other, from the
    first; the sum of no row is the zero vector. *)
Definition sum_axis0 (self : TreeRNN) (rows : list vec) : vec :=
  match rows with
  | [] => zeros (hidden_dim self)
  | r :: rest => foldl vadd r rest
  end.

(** [create_recursive_unit]: the returned [unit] *)
Definition recursive_unit (self : TreeRNN)
    (parent_x : vec) (child_h : list vec) (child_exists : list bool) : vec :=
  let h_tilde := sum_axis0 self child_h in
  let h := vtanh (vadd (vadd (b_h self) (dot (W_hx self) parent_x))
                       (dot (W_hh self) h_tilde)) in
  h.

(** [create_leaf_unit]: [dummy] is a [degree] by [hidden_dim] matrix of
    zeros, and [dummy.sum(axis=1)] a vector of [degree] zeros, read as the
    existence flags. *)
Definition leaf_unit (self : TreeRNN) (leaf_x : vec) : vec :=
  let dummy := replicate (degree self) (zeros (hidden_dim self)) in
  recursive_unit self leaf_x dummy (replicate (degree self) false).

(** [create_forget_gate_fun]: the returned [unit] *)
Definition forget_unit (self : TreeRNN) (parent_h compare_h : vec) : vec :=
  let f := vsigmoid (vadd (vadd (dot (W_gate self) parent_h)
                                (dot (U_gate self) compare_h))
                          (b_gate self)) in
  vsub parent_h (vmul f compare_h).

(** ** Graphs

    Theano builds an expression first and evaluates it later, on the values
    bound to its inputs.  A method that builds an expression is modelled by
    what building does, which can raise, and, when it returns, by the
    function that the expression computes of these values.

    [theano.map] and [theano.scan] call [fn] once while they build, on
    symbolic variables: one for the slice of each sequence, then one for the
    previous value of each recurrent output.  The bodies of the functions
    below raise nothing on symbolic variables, so that only the number of
    arguments of that call matters. *)

(** What [fn] receives from [theano.map] and [theano.scan]. *)
Inductive tensor : Type :=
  | Vector (v : vec)               (* a float vector *)
  | Matrix (m : list vec)          (* a float matrix, as a stack of rows *)
  | IVector (r : list Z)           (* an integer vector *)
  | IScalar (t : Z).               (* an integer *)

(** The call of [fn] on [n_args] symbolic variables. *)
Definition traced {Env A R : Type} (fn : pyfun Env A R) (n_args : nat)
  : res unit :=
  if (n_args =? params fn)%nat then Ok tt else Err TypeError.

(** [theano.map(fn, sequences=[xs])]: [fn] is traced on one variable.
    Evaluated, the map is a scan over [xs]; a scan of no iteration raises
    [NotImplementedError]. *)
Definition theano_map {Env : Type} (fn : pyfun Env tensor vec)
  : res (Env -> list vec -> res (list vec)) :=
  _ ← traced fn 1;
  Ok (fun env xs =>
        match xs with
        | [] => Err NotImplementedError
        | _ :: _ => map_res (fun x => py_call fn env [Vector x]) xs
        end).

(** The steps of a scan with two recurrent outputs: [fn] receives the slices
    of the three sequences and the previous values of the two outputs, and
    the values taken by the second output are stacked. *)
Fixpoint scan_steps {X R T S Y : Type}
    (fn : X -> R -> T -> S -> Y -> res (S * Y))
    (steps : list (X * R * T)) (s : S) (y : Y) : res (list Y) :=
  match steps with
  | [] => Ok []
  | (x, r, t) :: rest =>
      '(s', y') ← fn x r t s y;
      ys ← scan_steps fn rest s' y';
      Ok (y' :: ys)
  end.

(** [theano.scan(fn, outputs_info=[s0, y0], sequences=[xs, rows, ts],
    n_steps=n)]: [fn] is traced on five variables, three for the sequences
    and two for the outputs.  Evaluated, a scan of no step raises
    [NotImplementedError], and a sequence shorter than [n_steps] is an
    error. *)
Definition theano_scan {Env : Type}
    (fn : pyfun Env tensor (list vec * vec))
  : res (Env -> list vec -> vec -> list vec -> list (list Z) -> list Z ->
         nat -> res (list vec)) :=
  _ ← traced fn (3 + 2);
  Ok (fun env s0 y0 xs rows ts n_steps =>
        if (n_steps =? 0)%nat then Err NotImplementedError
        else if (n_steps <=? length xs)%nat && (n_steps <=? length rows)%nat
                && (n_steps <=? length ts)%nat
        then scan_steps
               (fun x r t s y =>
                  py_call fn env [Vector x; IVector r; IScalar t; Matrix s;
                                  Vector y])
               (take n_steps (zip (zip xs rows) ts)) s0 y0
        else Err ValueError).

Definition b2z (b : bool) : Z := if b then 1 else 0.

(** ** TreeRNN: the evaluators

    [compute_tree] and [compute_tree_with_gate] are called by [__init__] on
    the symbolic inputs of the graph.  In what they return when they
    return, [num_words] is [self.num_words], that is [self.x.shape[0]], the
    length of the index vector bound to [self.x]; [emb_x] holds the embedded
    values; [tree] is the schedule without its last column, one list of
    child positions per row. *)

(** [self.leaf_unit], the function of one parameter given to
    [theano.map]. *)
Definition leaf_unit_fn (self : TreeRNN) : pyfun unit tensor vec :=
  PyFun 1 (fun _ args =>
             match args with
             | [Vector leaf_x] => Ok (leaf_unit self leaf_x)
             | _ => Err TypeError
             end).



(** [_recurrence] of [compute_tree_with_gate]: the same six parameters and
    the same body. *)
Definition compute_tree_with_gate_recurrence (self : TreeRNN)
  : pyfun Z tensor (list vec * vec) :=
  PyFun 6 (fun num_leaves args =>
    match args with
    | [Vector cur_emb; IVector node_info; IScalar t; Matrix node_h;
       Vector last_h; compare_state] =>
        let child_exists := map (fun p => -1 <? p) node_info in
        let offset :=
          map (fun e => num_leaves * b2z (irregular_tree self) - b2z e * t)
              child_exists in
        child_h ← for_each
          (fun acc '(p, o, e) =>
             v ← py_index node_h (p + o); Ok (acc ++ [vflag e v]))
          (zip (zip node_info offset) child_exists) [];
        let parent_h := recursive_unit self cur_emb child_h child_exists in
        let node_h := node_h ++ [parent_h] in
        Ok (drop 1 node_h, parent_h)
    | _ => Err TypeError
    end).

(** [TreeRNN.compute_tree_with_gate]: in what it returns, [tree_states] is
    the table of comparison states handed in by the caller. *)
Definition compute_tree_with_gate (self : TreeRNN)
  : res (Z -> list vec -> list (list Z) -> list vec -> res (list vec)) :=
  leaf_map ← theano_map (leaf_unit_fn self);
  scan ← theano_scan (compute_tree_with_gate_recurrence self);
  Ok (fun num_words emb_x tree tree_states =>
        let num_nodes := length tree in
        let num_leaves := num_words - Z.of_nat num_nodes in
        leaf_h ← leaf_map tt (py_take emb_x num_leaves);
        let init_node_h :=
          if irregular_tree self then leaf_h ++ leaf_h else leaf_h in
        let dummy := zeros (hidden_dim self) in
        parent_h ← scan num_leaves init_node_h dummy
                        (py_drop emb_x num_leaves) tree (arange num_nodes)
                        num_nodes;
        Ok (leaf_h ++ parent_h)).

End TreeRNN.

(** ** Tree structure: the classes [Node] and [BinaryNode] *)

Definition addr := nat.

Module Node.

(** The fields of a [Node] object.  A child slot holds an address or
    [None]; [val], [idx], [parent] and [label] can be [None]. *)
Record t : Type := mk {
  children : list (option addr);
  val : option Z;
  idx : option Z;
  height : Z;
  size : Z;
  num_leaves : Z;
  parent : option addr;
  label : option Z;
}.

Definition set_children (cs : list (option addr)) (n : t) : t :=
  mk cs (val n) (idx n) (height n) (size n) (num_leaves n) (parent n) (label n).
Definition set_idx (i : option Z) (n : t) : t :=
  mk (children n) (val n) i (height n) (size n) (num_leaves n) (parent n) (label n).
Definition set_parent (p : option addr) (n : t) : t :=
  mk (children n) (val n) (idx n) (height n) (size n) (num_leaves n) p (label n).
Definition set_aggregates (hg sz nl : Z) (n : t) : t :=
  mk (children n) (val n) (idx n) hg sz nl (parent n) (label n).

End Node.

(** The store of [Node] objects. *)
Abbreviation store := (gmap addr Node.t).

Definition get (h : store) (a : addr) : res Node.t :=
  match h !! a with
  | Some nd => Ok nd
  | None => Err Unallocated
  end.

(** [f] applied in place to the object at [a]. *)
Definition modify (f : Node.t -> Node.t) (a : addr) (h : store) : res store :=
  nd ← get h a; Ok (<[a := f nd]> h).

(** The objects in the slots of a list of children that are not [None]:
    [[child for child in children if child]]. *)
Definition present (cs : list (option addr)) : list addr := omap id cs.

(** [all(child is None for child in children)] *)
Definition all_none (cs : list (option addr)) : bool :=
  forallb (fun c => match c with None => true | Some _ => false end) cs.

(** [max(l or [0])] *)
Definition max_or_0 (l : list Z) : Z :=
  match l with
  | [] => 0
  | x :: l' => foldl Z.max x l'
  end.

(** [sum(l)] *)
Definition sum_list (l : list Z) : Z := foldl Z.add 0 l.

Module NodeMethods.

(** [Node(val)]: a new object at an address not yet in use. *)
Definition new (v : option Z) (h : store) : addr * store :=
  let a := fresh (dom h) in
  (a, <[a := Node.mk [] v None 1 1 1 None None]> h).

(** The three aggregates as [_update] computes them from the fields of the
    children present. *)
Definition aggregates (cs : list (option addr)) (kids : list Node.t)
  : Z * Z * Z :=
  (1 + max_or_0 (map Node.height kids),
   1 + sum_list (map Node.size kids),
   b2z (all_none cs) + sum_list (map Node.num_leaves kids)).

(** [Node._update]: the recursion follows the [parent] links. *)
Fixpoint _update (fuel : nat) (self : addr) (h : store) : res store :=
  match fuel with
  | O => Err OutOfFuel
  | S fuel' =>
      nd ← get h self;
      kids ← map_res (get h) (present (Node.children nd));
      let '(hg, sz, nl) := aggregates (Node.children nd) kids in
      let nd' := Node.set_aggregates hg sz nl nd in
      let h' := <[self := nd']> h in
      match Node.parent nd' with
      | Some p => _update fuel' p h'
      | None => Ok h'
      end
  end.

(** [Node.add_child] *)
Definition add_child (fuel : nat) (self child : addr) (h : store)
  : res store :=
  h ← modify (fun n => Node.set_children (Node.children n ++ [Some child]) n)
             self h;
  h ← modify (Node.set_parent (Some self)) child h;
  _update fuel self h.

(** [Node.add_children] *)
Definition add_children (fuel : nat) (self : addr)
    (other_children : list addr) (h : store) : res store :=
  h ← modify (fun n => Node.set_children
                         (Node.children n ++ map Some other_children) n)
             self h;
  h ← for_each (fun h child => modify (Node.set_parent (Some self)) child h)
               other_children h;
  _update fuel self h.

(** [self.children[i] = node] *)
Definition set_slot (i : nat) (node : addr) (n : Node.t) : res Node.t :=
  if (i <? length (Node.children n))%nat
  then Ok (Node.set_children (<[i := Some node]> (Node.children n)) n)
  else Err IndexError.

(** [if not self.children: self.children = [None, None]] *)
Definition init_slots (n : Node.t) : Node.t :=
  match Node.children n with
  | [] => Node.set_children [None; None] n
  | _ => n
  end.

(** [BinaryNode.add_left] *)
Definition add_left (fuel : nat) (self node : addr) (h : store) : res store :=
  nd ← get h self;
  nd ← set_slot 0 node (init_slots nd);
  let h := <[self := nd]> h in
  h ← modify (Node.set_parent (Some self)) node h;
  _update fuel self h.

(** [BinaryNode.add_right] *)
Definition add_right (fuel : nat) (self node : addr) (h : store) : res store :=
  nd ← get h self;
  nd ← set_slot 1 node (init_slots nd);
  let h := <[self := nd]> h in
  h ← modify (Node.set_parent (Some self)) node h;
  _update fuel self h.

End NodeMethods.

(** ** The linearizer *)

(** [_clear_indices] *)
Fixpoint _clear_indices (fuel : nat) (root_node : addr) (h : store)
  : res store :=
  match fuel with
  | O => Err OutOfFuel
  | S fuel' =>
      h ← modify (Node.set_idx None) root_node h;
      nd ← get h root_node;
      for_each (fun h child => _clear_indices fuel' child h)
               (present (Node.children nd)) h
  end.

(** One pass of the [for node in layer] loop of [_get_leaf_vals]. *)
Definition leaf_step (h : store) (st : list addr * list addr) (node : addr)
  : res (list addr * list addr) :=
  let '(all_leaves, next_layer) := st in
  nd ← get h node;
  if all_none (Node.children nd)
  then Ok (all_leaves ++ [node], next_layer)
  else Ok (all_leaves, next_layer ++ present (rev (Node.children nd))).

(** The [while layer] loop of [_get_leaf_vals]. *)
Fixpoint leaf_loop (fuel : nat) (h : store) (layer all_leaves : list addr)
  : res (list addr) :=
  match layer with
  | [] => Ok all_leaves
  | _ :: _ =>
      match fuel with
      | O => Err OutOfFuel
      | S fuel' =>
          '(all_leaves, next_layer) ←
            for_each (leaf_step h) layer (all_leaves, []);
          leaf_loop fuel' h next_layer all_leaves
      end
  end.

(** The body of the [enumerate] loop of [_get_leaf_vals]. *)
Definition leaf_assign (st : list (option Z) * store) (il : Z * addr)
  : res (list (option Z) * store) :=
  let '(vals, h) := st in
  let '(i, leaf) := il in
  h ← modify (Node.set_idx (Some i)) leaf h;
  nd ← get h leaf;
  Ok (vals ++ [Node.val nd], h).

(** [enumerate(l)] *)
Definition enumerate {A : Type} (l : list A) : list (Z * A) :=
  zip (arange (length l)) l.

(** [_get_leaf_vals]; the labels, which [gen_nn_inputs] drops unless
    [with_labels] is set, are left out. *)
Definition _get_leaf_vals (fuel : nat) (root_node : addr) (h : store)
  : res (list (option Z) * store) :=
  all_leaves ← leaf_loop fuel h [root_node] [];
  for_each leaf_assign (enumerate (rev all_leaves)) ([], h).

(** The [while layer] loop of [_get_tree_traversal]. *)
Fixpoint layers_loop (fuel : nat) (h : store) (layer : list addr)
    (layers : list (list addr)) : res (list (list addr)) :=
  match layer with
  | [] => Ok layers
  | _ :: _ =>
      match fuel with
      | O => Err OutOfFuel
      | S fuel' =>
          let layers := layers ++ [layer] in
          next_layer ←
            for_each (fun next node =>
                        nd ← get h node;
                        Ok (next ++ present (Node.children nd)))
                     layer [];
          layers_loop fuel' h next_layer layers
      end
  end.

(** [child.idx if child else -1] *)
Definition child_idx (h : store) (child : option addr) : res (option Z) :=
  match child with
  | Some c => nd ← get h c; Ok (Node.idx nd)
  | None => Ok (Some (-1))
  end.

(** The state of the loops of [_get_tree_traversal]: [tree],
    [internal_vals], [idx] and the store. *)
Record trav : Type := Trav {
  t_tree : list (list Z);
  t_vals : list (option Z);
  t_idx : Z;
  t_store : store;
}.

(** [child_idxs.extend([-1] * (max_degree - len(child_idxs)))] *)
Definition pad (max_degree : option nat) (child_idxs : list (option Z))
  : list (option Z) :=
  match max_degree with
  | Some d => child_idxs ++ replicate (d - length child_idxs)%nat (Some (-1))
  | None => child_idxs
  end.

(** [assert not any(idx is None for idx in child_idxs)], after which the
    entries are integers. *)
Definition assert_no_none (l : list (option Z)) : res (list Z) :=
  match mapM id l with
  | Some l' => Ok l'
  | None => Err AssertionError
  end.

(** The body of the [for node in layer] loop of [_get_tree_traversal]. *)
Definition trav_step (max_degree : option nat) (st : trav) (node : addr)
  : res trav :=
  let h := t_store st in
  nd ← get h node;
  match Node.idx nd with
  | Some _ =>
      (* must be leaf *)
      _ ← assert (all_none (Node.children nd));
      Ok st
  | None =>
      child_idxs ← map_res (child_idx h) (Node.children nd);
      let child_idxs := pad max_degree child_idxs in
      child_idxs ← assert_no_none child_idxs;
      h ← modify (Node.set_idx (Some (t_idx st))) node h;
      Ok (Trav (t_tree st ++ [child_idxs ++ [t_idx st]])
               (t_vals st ++ [Some (default (-1) (Node.val nd))])
               (t_idx st + 1)
               h)
  end.

(** [_get_tree_traversal] *)
Definition _get_tree_traversal (fuel : nat) (root_node : addr)
    (start_idx : Z) (max_degree : option nat) (h : store)
  : res (list (list Z) * list (option Z) * store) :=
  nd ← get h root_node;
  match Node.children nd with
  | [] => Ok ([], [], h)
  | _ :: _ =>
      layers ← layers_loop fuel h [root_node] [];
      st ← for_each (fun st layer => for_each (trav_step max_degree) layer st)
                    (rev layers) (Trav [] [] start_idx h);
      Ok (t_tree st, t_vals st, t_store st)
  end.

(** A numpy array of integers with one or two axes. *)
Inductive ndarray : Type :=
  | Array1 (data : list Z)
  | Array2 (ncols : nat) (rows : list (list Z)).

(** [np.array(x, dtype='int32')] for a list of integers. *)
Definition np_array1 (x : list Z) : res (list Z) := map_res np_int32 x.

(** [np.array(tree, dtype='int32')] for a list of lists: no row gives an
    array with the single axis of length 0, rows of one length give a
    matrix of their converted entries, rows of different lengths are
    refused. *)
Definition np_array (tree : list (list Z)) : res ndarray :=
  match tree with
  | [] => Ok (Array1 [])
  | r :: rest =>
      if forallb (fun r' => (length r' =? length r)%nat) rest
      then rows ← map_res np_array1 tree; Ok (Array2 (length r) rows)
      else Err ValueError
  end.

(** [len(tree)] *)
Definition np_len (a : ndarray) : nat :=
  match a with
  | Array1 data => length data
  | Array2 _ rows => length rows
  end.

(** The rows of a schedule. *)
Definition np_rows (a : ndarray) : list (list Z) :=
  match a with
  | Array1 _ => []
  | Array2 _ rows => rows
  end.

Definition is_some {A : Type} (o : option A) : bool :=
  match o with Some _ => true | None => false end.

(** [gen_nn_inputs] with [with_labels=False]. *)
Definition gen_nn_inputs (fuel : nat) (root_node : addr)
    (max_degree : option nat) (only_leaves_have_vals : bool) (h : store)
  : res (list Z * ndarray * store) :=
  h ← _clear_indices fuel root_node h;
  '(x, h) ← _get_leaf_vals fuel root_node h;
  '(tree, internal_x, h) ←
    _get_tree_traversal fuel root_node (Z.of_nat (length x)) max_degree h;
  _ ← assert (forallb is_some x);
  x ← (if negb only_leaves_have_vals
       then _ ← assert (forallb is_some internal_x); Ok (x ++ internal_x)
       else Ok x);
  _ ← match max_degree with
      | Some d => assert (forallb (fun t => (length t =? d + 1)%nat) tree)
      | None => Ok tt
      end;
  x ← assert_no_none x;
  x ← np_array1 x;
  tree ← np_array tree;
  Ok (x, tree, h).

(** ** TreeRNN: checking and prediction *)

(** [tree[:, k]] and [tree[:, :-1]]: both need two axes. *)
Definition np_column (a : ndarray) (k : Z) : res (list Z) :=
  match a with
  | Array1 _ => Err IndexError
  | Array2 _ rows => map_res (fun r => py_index r k) rows
  end.

Definition np_drop_last_column (a : ndarray) : res (list (list Z)) :=
  match a with
  | Array1 _ => Err IndexError
  | Array2 _ rows => Ok (map (fun r => py_take r (-1)) rows)
  end.

(** [np.all((col + 1 >= np.arange(len(tree))) | (col == -1))]: the sum is
    one of 32-bit integers. *)
Definition column_ok (col : list Z) : bool :=
  forallb (fun '(c, i) => (i <=? int32 (c + 1)) || (c =? -1))
          (zip col (arange (length col))).

Section Predict.
Context {E : TensorEngine}.

(** [TreeRNN._check_input] *)
Definition _check_input (self : TreeRNN) (x : list Z) (tree : ndarray)
  : res unit :=
  last_col ← np_column tree (-1);
  _ ← assert (bool_decide
        (last_col = arange2 (Z.of_nat (length x) - Z.of_nat (np_len tree))
                            (Z.of_nat (length x))));
  if negb (irregular_tree self) then
    col0 ← np_column tree 0;
    _ ← assert (column_ok col0);
    col1 ← np_column tree 1;
    assert (column_ok col1)
  else Ok tt.

(** [self.embeddings[x] * T.neq(x, -1).dimshuffle(0, 'x')] *)
Definition embed (self : TreeRNN) (x : list Z) : res (list vec) :=
  map_res (fun i => e ← py_index (embeddings self) i;
                    Ok (vflag (negb (i =? -1)) e)) x.

(** [self._predict] *)
Definition get_predict (self : TreeRNN)
  : res (list Z -> list (list Z) -> res vec) :=
  match _predict self with
  | Some f => Ok f
  | None => Err AttributeError
  end.

(** [TreeRNN.predict] *)
Definition predict (fuel : nat) (self : TreeRNN) (root_node : addr)
    (h : store) : res (vec * store) :=
  '(x, tree, h) ← gen_nn_inputs fuel root_node (Some (degree self)) false h;
  (* x list the val of leaves and internal nodes *)
  _ ← _check_input self x tree;
  f ← get_predict self;
  tree' ← np_drop_last_column tree;
  y ← f x tree';
  Ok (y, h).

End Predict.

(** ** Concrete inputs *)

(** A model over [F32engine]: degree 2, nine embeddings, unit weights and
    zero biases, without the attribute [_predict]. *)
Definition fmodel : @TreeRNN F32engine :=
  @Build_TreeRNN F32engine 2 2 false
                 (map (fun k => f32 k 0) [10; 20; 30; 40; 50; 60; 70; 80; 90])
                 (f32 1 0) (f32 1 0) (S754_zero false)
                 (f32 1 0) (f32 1 0) (S754_zero false)
                 (f32 1 0) (S754_zero false) None.


(** [root = BinaryNode(); root.add_left(BinaryNode(3));
    root.add_right(BinaryNode(7))], with [root]'s value [v]. *)
Definition two_leaves (v : option Z) : res (addr * store) :=
  let '(root, h) := NodeMethods.new v ∅ in
  let '(l, h) := NodeMethods.new (Some 3) h in
  let '(r, h) := NodeMethods.new (Some 7) h in
  h ← NodeMethods.add_left 3 root l h;
  h ← NodeMethods.add_right 3 root r h;
  Ok (root, h).

(** The store that [two_leaves] builds, and the tree in it. *)
Definition two_leaves_store (v : option Z) : store :=
  match two_leaves v with
  | Ok (_, h) => h
  | Err _ => ∅
  end.

(** Three fresh objects, at the addresses 0, 1 and 2, and the store after
    [n0.add_child(n1)]. *)
Definition three_nodes : store :=
  let '(_, h) := NodeMethods.new None ∅ in
  let '(_, h) := NodeMethods.new None h in
  let '(_, h) := NodeMethods.new (Some 5) h in
  h.

Definition chain_store : store :=
  match NodeMethods.add_child 3 0%nat 1%nat three_nodes with
  | Ok h => h
  | Err _ => ∅
  end.

(** Four fresh objects [p], [q], [r], [s] at the addresses 0 to 3, and the
    store after [p.add_child(q); r.add_child(q); q.add_child(p);
    p.add_child(s)]: [q] is a child of [p] and [p] a child of [q]. *)
Definition four_nodes : store :=
  let '(_, h) := NodeMethods.new None ∅ in
  let '(_, h) := NodeMethods.new None h in
  let '(_, h) := NodeMethods.new None h in
  let '(_, h) := NodeMethods.new None h in
  h.

(** ** Trees in the store

    The statements about the linearizer range over the stores in which the
    objects reachable from the root form a tree.  A [tree] records the
    addresses of these objects with their values and child slots. *)

#[local] Set Warnings "-register-all".
Inductive tree : Type :=
  | T (a : addr) (v : option Z) (cs : list (option tree)).

Definition root (t : tree) : addr := match t with T a _ _ => a end.
Definition tval (t : tree) : option Z := match t with T _ v _ => v end.
Definition slots (t : tree) : list (option tree) :=
  match t with T _ _ cs => cs end.

(** The children present, from left to right. *)
Definition kids (t : tree) : list tree := omap id (slots t).

(** A leaf has no child present. *)
Definition leafb (t : tree) : bool :=
  match kids t with [] => true | _ :: _ => false end.
Definition innerb (t : tree) : bool := negb (leafb t).

(** All the nodes, parents before children. *)
Fixpoint nodes (t : tree) : list tree :=
  match t with
  | T _ _ cs =>
      t :: (fix go (cs : list (option tree)) : list tree :=
              match cs with
              | [] => []
              | Some c :: cs' => nodes c ++ go cs'
              | None :: cs' => go cs'
              end) cs
  end.

Definition addrs (t : tree) : list addr := map root (nodes t).

(** [N], the number of nodes, and [L], the number of leaves. *)
Definition n_nodes (t : tree) : nat := length (nodes t).
Definition n_leaves (t : tree) : nat := length (filter (fun n => leafb n = true) (nodes t)).

(** The number of layers. *)
Fixpoint theight (t : tree) : nat :=
  match t with
  | T _ _ cs =>
      S ((fix go (cs : list (option tree)) : nat :=
            match cs with
            | [] => 0%nat
            | Some c :: cs' => Nat.max (theight c) (go cs')
            | None :: cs' => go cs'
            end) cs)
  end.

(** The nodes at depth [d], from left to right. *)
Fixpoint level (d : nat) (t : tree) : list tree :=
  match d with
  | O => [t]
  | S d' =>
      match t with
      | T _ _ cs =>
          (fix go (cs : list (option tree)) : list tree :=
             match cs with
             | [] => []
             | Some c :: cs' => level d' c ++ go cs'
             | None :: cs' => go cs'
             end) cs
      end
  end.

(** The layers, the root's first. *)
Definition levels (t : tree) : list (list tree) :=
  map (fun d => level d t) (seq 0 (theight t)).

(** The leaves, deepest layer first and from left to right within a
    layer. *)
Definition leaves_deepest_first (t : tree) : list tree :=
  concat (rev (map (filter (fun n => leafb n = true)) (levels t))).

(** The internal nodes in the same order. *)
Definition inner_deepest_first (t : tree) : list tree :=
  concat (rev (map (filter (fun n => innerb n = true)) (levels t))).

(** The object at the root of [t] has the value and the child slots of [t],
    and so on below. *)
Fixpoint is_tree (h : store) (t : tree) : bool :=
  match t with
  | T a v cs =>
      match h !! a with
      | Some nd =>
          bool_decide (Node.val nd = v)
          && bool_decide (Node.children nd = map (option_map root) cs)
          && (fix go (cs : list (option tree)) : bool :=
                match cs with
                | [] => true
                | Some c :: cs' => is_tree h c && go cs'
                | None :: cs' => go cs'
                end) cs
      | None => false
      end
  end.

(** No object is reached twice. *)
Definition distinct (t : tree) : bool := bool_decide (NoDup (addrs t)).

(** The position held by the object at [a]. *)
Definition idx_of (h : store) (a : addr) : option Z :=
  nd ← h !! a; Node.idx nd.

(** The positions held by the objects at [as_]. *)
Definition positions (h : store) (as_ : list addr) : list (option Z) :=
  map (idx_of h) as_.

(** The own position of a schedule row and its child positions. *)
Definition own (row : list Z) : Z := List.last row (-1).
Definition child_slots (row : list Z) : list Z := removelast row.

(** The values of the leaves can be stored, and the rows have one length:
    [d + 1] when [max_degree] is [d]. *)
Definition leaf_vals_ok (t : tree) : bool :=
  forallb (fun n => is_some (tval n) || innerb n) (nodes t).

Definition arity_ok (max_degree : option nat) (t : tree) : bool :=
  match max_degree with
  | Some d =>
      forallb (fun n => leafb n || (length (slots n) <=? d)%nat) (nodes t)
  | None =>
      match filter (fun n => innerb n = true) (nodes t) with
      | [] => true
      | n :: ns =>
          forallb (fun m => (length (slots m) =? length (slots n))%nat) ns
      end
  end.

(** The values that [gen_nn_inputs] converts fit 64 bits: those of the
    leaves, and, unless [only_leaves_have_vals] is set, those of the
    internal nodes. *)
Definition vals_in_int64 (only_leaves_have_vals : bool) (t : tree) : bool :=
  forallb (fun n => (innerb n && only_leaves_have_vals)
                    || in_int64 (default (-1) (tval n)))
          (nodes t).

(** The positions fit 32 bits: the tree has at most [2 ^ 31] nodes. *)
Definition positions_fit (t : tree) : bool := Z.of_nat (n_nodes t) <=? 2 ^ 31.

(** A tree of one node without a value, and the store that [Node()] builds
    for it. *)
Definition lone_leaf : tree := T 0%nat None [].

Definition lone_leaf_store : store := (NodeMethods.new None ∅).2.

(** ** Consistency of the cached aggregates *)

(** The aggregates of the object at [a] are those of its present children:
    [height] is 1 plus their largest [height] (0 without children), [size]
    is 1 plus the sum of their [size]s, and [num_leaves] is the sum of their
    [num_leaves] plus 1 when no child is present. *)
Definition consistent (h : store) (a : addr) : Prop :=
  exists (nd : Node.t) (kids : list Node.t),
    h !! a = Some nd
    /\ Forall2 (fun c k => h !! c = Some k) (present (Node.children nd)) kids
    /\ Node.height nd = 1 + max_or_0 (map Node.height kids)
    /\ Node.size nd = 1 + foldr Z.add 0 (map Node.size kids)
    /\ Node.num_leaves nd
       = (if bool_decide (present (Node.children nd) = []) then 1 else 0)
         + foldr Z.add 0 (map Node.num_leaves kids).

(** [a] is [self] or one of its ancestors along the [parent] links. *)
Inductive on_parent_chain (h : store) : addr -> addr -> Prop :=
  | chain_self (self : addr) : on_parent_chain h self self
  | chain_up (self p a : addr) (nd : Node.t) :
      h !! self = Some nd -> Node.parent nd = Some p ->
      on_parent_chain h p a -> on_parent_chain h self a.



(** Two stores with the same links. *)
Definition links (nd : Node.t) : list (option addr) * option addr :=
  (Node.children nd, Node.parent nd).

Definition same_links (h h' : store) : Prop :=
  forall a : addr, links <$> (h !! a) = links <$> (h' !! a).

(** The four mutations of the tree structure. *)
Inductive mutation : Type :=
  | AddChild (self child : addr)
  | AddChildren (self : addr) (other_children : list addr)
  | AddLeft (self node : addr)
  | AddRight (self node : addr).

Definition target (m : mutation) : addr :=
  match m with
  | AddChild self _ | AddChildren self _ | AddLeft self _ | AddRight self _ =>
      self
  end.

Definition mutate (fuel : nat) (m : mutation) (h : store) : res store :=
  match m with
  | AddChild self child => NodeMethods.add_child fuel self child h
  | AddChildren self cs => NodeMethods.add_children fuel self cs h
  | AddLeft self node => NodeMethods.add_left fuel self node h
  | AddRight self node => NodeMethods.add_right fuel self node h
  end.



(** The links as a mutation leaves them, before [_update] runs. *)
Definition set_links (m : mutation) (h : store) : res store :=
  match m with
  | AddChild self child =>
      h ← modify (fun n => Node.set_children (Node.children n ++ [Some child]) n)
                 self h;
      modify (Node.set_parent (Some self)) child h
  | AddChildren self cs =>
      h ← modify (fun n => Node.set_children (Node.children n ++ map Some cs) n)
                 self h;
      for_each (fun h child => modify (Node.set_parent (Some self)) child h)
               cs h
  | AddLeft self node =>
      nd ← get h self;
      nd ← NodeMethods.set_slot 0 node (NodeMethods.init_slots nd);
      modify (Node.set_parent (Some self)) node (<[self := nd]> h)
  | AddRight self node =>
      nd ← get h self;
      nd ← NodeMethods.set_slot 1 node (NodeMethods.init_slots nd);
      modify (Node.set_parent (Some self)) node (<[self := nd]> h)
  end.

(** ** Stores that differ in the positions only *)

Definition erase (nd : Node.t) : Node.t := Node.set_idx None nd.

Definition same_struct (h h' : store) : Prop :=
  forall a : addr, erase <$> (h !! a) = erase <$> (h' !! a).

(** The layers reached from a list of trees, while there are any. *)
Fixpoint flevels (n : nat) (ts : list tree) : list (list tree) :=
  match ts, n with
  | [], _ | _, O => []
  | _ :: _, S n' => ts :: flevels n' (flat_map kids ts)
  end.

(** The leaves in the order in which the loop of [_get_leaf_vals] meets
    them. *)
Fixpoint rleaves (n : nat) (ts : list tree) : list tree :=
  match n with
  | O => []
  | S n' =>
      filter (fun t => leafb t = true) ts
        ++ rleaves n' (flat_map (fun t => rev (kids t)) ts)
  end.

(** [h'] is [h] with the positions of the objects at [as_] cleared. *)
Definition cleared (h h' : store) (as_ : list addr) : Prop :=
  same_struct h h'
  /\ (forall a, a ∈ as_ -> idx_of h' a = None)
  /\ (forall a, a ∉ as_ -> h' !! a = h !! a).

(** The number of layers of a list of trees, and the nodes at depth [d]
    below them. *)
Definition fheight (ts : list tree) : nat := max_list (map theight ts).
Definition flevel (d : nat) (ts : list tree) : list tree :=
  flat_map (level d) ts.

(** In a traversal order, the children of a node come before it: [done]
    holds the nodes before [todo]. *)
Definition kids_before (done todo : list tree) : Prop :=
  forall p n s, todo = p ++ n :: s -> forall c, c ∈ kids n -> c ∈ done ++ p.

(** Consecutive layers, the deepest first: the children of a layer are the
    layer before it. *)
Fixpoint chain (prev : list tree) (layers : list (list tree)) : Prop :=
  match layers with
  | [] => True
  | layer :: layers' => flat_map kids layer = prev /\ chain layer layers'
  end.

(** The length of the row of a node, and what a row must satisfy: its child
    positions are -1 or below its own position. *)
Definition row_len (max_degree : option nat) (n : tree) : nat :=
  match max_degree with
  | Some d => S (Nat.max (length (slots n)) d)
  | None => S (length (slots n))
  end.

Definition row_ok (max_degree : option nat) (n : tree) (row : list Z) : Prop :=
  length row = row_len max_degree n
  /\ Forall (fun c => c = -1 \/ c < own row) (child_slots row).

(** What the traversal expects of a node it has not met yet: a leaf holds a
    position below those to come, an internal node holds none. *)
Definition pending (st : trav) (n : tree) : Prop :=
  if leafb n
  then exists i, idx_of (t_store st) (root n) = Some i /\ i < t_idx st
  else idx_of (t_store st) (root n) = None.

Definition placed (st : trav) (n : tree) : Prop :=
  exists i, idx_of (t_store st) (root n) = Some i /\ i < t_idx st.

Definition two_leaves_tree (v : option Z) : tree :=
  T 0%nat v [Some (T 1%nat (Some 3) []); Some (T 2%nat (Some 7) [])].


(** ** Reading the slots of a [BinaryNode] *)

(** [BinaryNode.get_left] *)
Definition get_left (h : store) (self : addr) : res (option addr) :=
  nd ← get h self;
  match Node.children nd with
  | [] => Ok None
  | _ :: _ => py_index (Node.children nd) 0
  end.

(** [BinaryNode.get_right] *)
Definition get_right (h : store) (self : addr) : res (option addr) :=
  nd ← get h self;
  match Node.children nd with
  | [] => Ok None
  | _ :: _ => py_index (Node.children nd) 1
  end.

(** The fields of an object that no mutation assigns, and its three
    aggregates. *)
Definition payload (nd : Node.t) : option Z * option Z * option Z :=
  (Node.val nd, Node.idx nd, Node.label nd).

Definition aggregates_of (nd : Node.t) : Z * Z * Z :=
  (Node.height nd, Node.size nd, Node.num_leaves nd).

(** Two stores that differ in the aggregates only. *)
Definition strip (nd : Node.t) : Node.t := Node.set_aggregates 0 0 0 nd.

Definition same_but_aggregates (h h' : store) : Prop :=
  forall a : addr, strip <$> (h !! a) = strip <$> (h' !! a).

(** A store with one object whose single slot was filled by [add_child]. *)
Definition one_slot_store : store :=
  match NodeMethods.add_child 2 0%nat 1%nat three_nodes with
  | Ok h => h
  | Err _ => ∅
  end.

(** What makes an object a node of a tree: its value and its slots. *)
Definition shape (nd : Node.t) : option Z * list (option addr) :=
  (Node.val nd, Node.children nd).

(** The slots of a node once [add_left] or [add_right] has made sure there
    are some: [if not self.children: self.children = [None, None]]. *)
Definition two_slots (t : tree) : list (option tree) :=
  match slots t with
  | [] => [None; None]
  | cs => cs
  end.

(** What the link steps of a mutation leave alone in an object. *)
Definition unlinked (nd : Node.t) : (option Z * option Z * option Z) * (Z * Z * Z) :=
  (payload nd, aggregates_of nd).

(** The stores after [n0.add_left(n1)] and after [n0.add_right(n1)]. *)
Definition left_store : store :=
  match NodeMethods.add_left 3 0%nat 1%nat three_nodes with
  | Ok h => h
  | Err _ => ∅
  end.

Definition right_store : store :=
  match NodeMethods.add_right 3 0%nat 1%nat three_nodes with
  | Ok h => h
  | Err _ => ∅
  end.

(** [consistent], as a check. *)
Definition consistentb (h : store) (a : addr) : bool :=
  match h !! a with
  | Some nd =>
      match mapM (fun c => h !! c) (present (Node.children nd)) with
      | Some ks =>
          (Node.height nd =? 1 + max_or_0 (map Node.height ks))
          && (Node.size nd =? 1 + foldr Z.add 0 (map Node.size ks))
          && (Node.num_leaves nd
              =? (if bool_decide (present (Node.children nd) = []) then 1 else 0)
                 + foldr Z.add 0 (map Node.num_leaves ks))
      | None => false
      end
  | None => false
  end.

(** The store that [gen_nn_inputs] leaves for the tree of [two_leaves]. *)
Definition linearized_store : store :=
  match gen_nn_inputs 2 0%nat (Some 2%nat) true (two_leaves_store None) with
  | Ok (_, _, h) => h
  | Err _ => ∅
  end.

(** [fmodel] with [irregular_tree] set. *)
Definition fmodel_irregular : @TreeRNN F32engine :=
  @Build_TreeRNN F32engine 2 2 true
                 (map (fun k => f32 k 0) [10; 20; 30; 40; 50; 60; 70; 80; 90])
                 (f32 1 0) (f32 1 0) (S754_zero false)
                 (f32 1 0) (f32 1 0) (S754_zero false)
                 (f32 1 0) (S754_zero false) None.

(** ** The rows of the schedule, read off the final store *)

(** The entry of a child slot: the position of the child, -1 for an empty
    slot. *)
Definition slot_pos (h : store) (s : option tree) : Z :=
  match s with
  | Some c => default (-1) (idx_of h (root c))
  | None => -1
  end.

(** What [child_idx] returns for a slot. *)
Definition slot_idx (h : store) (s : option tree) : option Z :=
  match s with
  | Some c => idx_of h (root c)
  | None => Some (-1)
  end.

(** [pad], on integers. *)
Definition padded (max_degree : option nat) (l : list Z) : list Z :=
  match max_degree with
  | Some d => l ++ replicate (d - length l)%nat (-1)
  | None => l
  end.

(** The child entries of the row of [n], and the row. *)
Definition entries_of (h : store) (max_degree : option nat) (n : tree)
  : list Z :=
  padded max_degree (map (slot_pos h) (slots n)).

Definition row_of (h : store) (max_degree : option nat) (n : tree) : list Z :=
  entries_of h max_degree n ++ [default (-1) (idx_of h (root n))].

(** The positions held in [h] are held in [h']. *)
Definition keeps_positions (h h' : store) : Prop :=
  forall (a : addr) (i : Z), idx_of h a = Some i -> idx_of h' a = Some i.

(** ** [parser_test.evaluate_oracle_worst]

    The body of the loop over the instances: the candidates of an instance
    are scored against its gold lines by [eval_tool.evaluate], which is not
    part of this repository and is a parameter here, and the lines of the
    best and of the worst candidate are appended to [oracle_trees] and to
    [worst_trees].  A score is a finite float, read as the rational it
    denotes. *)
Section Oracle.
Variable line : Type.
Variable newline : line.
Variable evaluate : list line -> list line -> Q.

(** The variables [max], [maxid], [min], [minid] and [i] of the loop. *)
Record selection : Type := {
  max_res : Q;
  maxid : nat;
  min_res : Q;
  minid : nat;
  counter : nat;
}.

(** [temp] and [res] for one candidate *)
Definition score (gold_lines cand : list line) : Q :=
  let temp := cand ++ [newline] in
  evaluate temp gold_lines.

Definition select_step (gold_lines : list line) (st : selection)
    (cand : list line) : selection :=
  let res := score gold_lines cand in
  let '(max_res, maxid) :=
    if Qlt_le_dec (max_res st) res then (res, counter st)
    else (max_res st, maxid st) in
  let '(min_res, minid) :=
    if Qlt_le_dec res (min_res st) then (res, counter st)
    else (min_res st, minid st) in
  {| max_res := max_res; maxid := maxid; min_res := min_res; minid := minid;
     counter := S (counter st) |}.

Definition select (gold_lines : list line) (lines : list (list line))
  : selection :=
  foldl (select_step gold_lines)
        {| max_res := 0%Q; maxid := 0; min_res := 1%Q; minid := 0; counter := 0 |}
        lines.

(** What the loop has found after the candidates [seen]: no score above 0
    and the initial state, or the first candidate with the highest score;
    and the same for the lowest score and 1. *)
Definition best_so_far (gold_lines : list line) (seen : list (list line))
    (st : selection) : Prop :=
  (forall c, c ∈ seen -> (score gold_lines c <= max_res st)%Q)
  /\ ((maxid st = 0%nat /\ max_res st = 0%Q)
      \/ ((0 < max_res st)%Q
          /\ exists c, seen !! maxid st = Some c
               /\ score gold_lines c = max_res st
               /\ forall j c', (j < maxid st)%nat -> seen !! j = Some c' ->
                               (score gold_lines c' < max_res st)%Q)).

Definition worst_so_far (gold_lines : list line) (seen : list (list line))
    (st : selection) : Prop :=
  (forall c, c ∈ seen -> (min_res st <= score gold_lines c)%Q)
  /\ ((minid st = 0%nat /\ min_res st = 1%Q)
      \/ ((min_res st < 1)%Q
          /\ exists c, seen !! minid st = Some c
               /\ score gold_lines c = min_res st
               /\ forall j c', (j < minid st)%nat -> seen !! j = Some c' ->
                               (min_res st < score gold_lines c')%Q)).

(** What one instance adds to [oracle_trees] and to [worst_trees]. *)
Definition oracle_worst (gold_lines : list line) (lines : list (list line))
  : res (list line * list line) :=
  let st := select gold_lines lines in
  best ← py_index lines (Z.of_nat (maxid st));
  worst ← py_index lines (Z.of_nat (minid st));
  Ok (best ++ [newline], worst ++ [newline]).

End Oracle.

(** Two scoring functions to run the selection on: candidates are lists of
    numbers, scored by a quarter of the number of lines of [temp], or in
    percent by 100 over that number. *)
Definition quarter_score (temp gold_lines : list Z) : Q :=
  Z.of_nat (length temp) # 4.

Definition percent_score (temp gold_lines : list Z) : Q :=
  100 # Pos.of_nat (length temp).
(** * Properties *)

(** ** The composition unit and the evaluators *)

(** The addition of floats of any one format is commutative. *)
Lemma SFadd_comm (prec emax : Z) (x y : spec_float) :
  SFadd prec emax x y = SFadd prec emax y x.
Proof.
  destruct x as [sx|sx| |sx mx ex], y as [sy|sy| |sy my ey]; try reflexivity;
    try (destruct sx, sy; reflexivity).
  unfold SFadd. rewrite (Z.min_comm ex ey). f_equal. apply Z.add_comm.
Qed.

Lemma F32engine_comm : CommAdd F32engine.
Proof. intros a b. apply SFadd_comm. Qed.

Section UnitProperties.
Context {E : TensorEngine}.

(** C9 (as the code has it): the recursive unit is the hyperbolic tangent of
    the bias plus the projected own value, plus the projected sum of the
    child states added one after the other from the first; the existence
    masks are not read; and exchanging the first two child states, which
    for the degree 2 are all the child states, leaves the hidden state
    unchanged when the addition is commutative. *)
Theorem recursive_unit_first_two_commute `{!CommAdd E}
    (self : TreeRNN) (x a b : vec) (rest : list vec)
    (mask1 mask2 : list bool) :
  recursive_unit self x (a :: b :: rest) mask1
    = vtanh (vadd (vadd (b_h self) (dot (W_hx self) x))
                  (dot (W_hh self) (foldl vadd (vadd a b) rest)))
  /\ recursive_unit self x (a :: b :: rest) mask1
     = recursive_unit self x (b :: a :: rest) mask2.
Proof.
  split; [reflexivity|].
  unfold recursive_unit, sum_axis0. cbn [foldl].
  now rewrite (vadd_comm a b).
Qed.

(** C1: [compute_tree_with_gate] raises [TypeError] while it builds its
    graph, for every model: [theano.scan] calls [_recurrence] on five
    variables and [_recurrence] has six parameters.  No state is returned,
    gated or not. *)
Theorem compute_tree_with_gate_raises (self : TreeRNN) :
  compute_tree_with_gate self = Err TypeError.
Proof. reflexivity. Qed.


End UnitProperties.

Lemma recursive_unit_first_two_commute_witness :
  @recursive_unit F32engine fmodel (f32 1 0) [f32 3 0; f32 1 (-1)] [true; true]
    = @vtanh F32engine
        (@vadd F32engine
           (@vadd F32engine (b_h fmodel)
                  (@dot F32engine (W_hx fmodel) (f32 1 0)))
           (@dot F32engine (W_hh fmodel)
                 (foldl (@vadd F32engine)
                        (@vadd F32engine (f32 3 0) (f32 1 (-1))) [])))
  /\ @recursive_unit F32engine fmodel (f32 1 0) [f32 3 0; f32 1 (-1)]
                     [true; true]
     = @recursive_unit F32engine fmodel (f32 1 0) [f32 1 (-1); f32 3 0]
                       [true; true].
Proof.
  apply (@recursive_unit_first_two_commute F32engine F32engine_comm fmodel
           (f32 1 0) (f32 3 0) (f32 1 (-1)) [] [true; true] [true; true]).
Defined.

(** C9 as stated fails over floats: the child states [2^100; -2^100; 1] and
    [2^100; 1; -2^100] are permutations of each other, their sums are 1 and
    0, and under the same masks the unit returns different hidden states
    for the two: 1 and 0 in [F32engine], where the identity stands for the
    hyperbolic tangent. *)
Lemma recursive_unit_order_sensitive :
  Permutation [f32 1 100; f32 (-1) 100; f32 1 0]
              [f32 1 100; f32 1 0; f32 (-1) 100]
  /\ @sum_axis0 F32engine fmodel [f32 1 100; f32 (-1) 100; f32 1 0] = f32 1 0
  /\ @sum_axis0 F32engine fmodel [f32 1 100; f32 1 0; f32 (-1) 100]
     = S754_zero false
  /\ @recursive_unit F32engine fmodel (S754_zero false)
       [f32 1 100; f32 (-1) 100; f32 1 0] [true; true; true]
     = f32 1 0
  /\ @recursive_unit F32engine fmodel (S754_zero false)
       [f32 1 100; f32 1 0; f32 (-1) 100] [true; true; true]
     = S754_zero false
  /\ @recursive_unit F32engine fmodel (S754_zero false)
       [f32 1 100; f32 (-1) 100; f32 1 0] [true; true; true]
     <> @recursive_unit F32engine fmodel (S754_zero false)
          [f32 1 100; f32 1 0; f32 (-1) 100] [true; true; true].
Proof.
  split; [apply perm_skip, perm_swap|].
  split; [vm_compute; reflexivity|]. split; [vm_compute; reflexivity|].
  split; [vm_compute; reflexivity|]. split; [vm_compute; reflexivity|].
  vm_compute. discriminate.
Qed.


(** ** Prediction on a single leaf *)

(** C4: [predict] on a tree made of one leaf raises: when the value of the
    leaf fits 64 bits the schedule has no row, so the array built from it
    has one axis, and [_check_input], which indexes it along two, raises
    [IndexError]; otherwise the conversion of the value has raised
    [OverflowError] before. *)
Theorem predict_single_leaf_raises {E : TensorEngine}
    (self : TreeRNN) (fuel : nat) (v : Z) :
  let '(root, h) := NodeMethods.new (Some v) ∅ in
  if in_int64 v
  then gen_nn_inputs (S fuel) root (Some (degree self)) false h
       = Ok ([int32 v], Array1 [],
             <[root := Node.mk [] (Some v) (Some 0) 1 1 1 None None]> h)
       /\ predict (S fuel) self root h = Err IndexError
  else gen_nn_inputs (S fuel) root (Some (degree self)) false h
       = Err OverflowError
       /\ predict (S fuel) self root h = Err OverflowError.
Proof.
  set (h0 := <[0%nat := Node.mk [] (Some v) None 1 1 1 None None]> (∅ : store)).
  set (h1 := <[0%nat := Node.mk [] (Some v) (Some 0) 1 1 1 None None]> h0).
  assert (E1 : _clear_indices (S fuel) 0%nat h0 = Ok h0)
    by (destruct fuel; vm_compute; reflexivity).
  assert (E2 : _get_leaf_vals (S fuel) 0%nat h0 = Ok ([Some v], h1))
    by (destruct fuel; vm_compute; reflexivity).
  assert (E3 : _get_tree_traversal (S fuel) 0%nat 1 (Some (degree self)) h1
               = Ok ([], [], h1))
    by (destruct fuel; vm_compute; reflexivity).
  assert (G : gen_nn_inputs (S fuel) 0%nat (Some (degree self)) false h0
              = (x ← np_int32 v; Ok ([x], Array1 [], h1))).
  { unfold gen_nn_inputs. rewrite E1. cbn [mbind res_bind].
    rewrite E2. cbn [mbind res_bind].
    change (Z.of_nat (length [Some v])) with 1.
    rewrite E3. cbn [mbind res_bind forallb is_some andb assert negb app].
    unfold assert_no_none, np_array1.
    change (mapM id [Some v]) with (Some [v]).
    cbn [mbind res_bind map_res np_array].
    destruct (np_int32 v); reflexivity. }
  change (NodeMethods.new (Some v) ∅) with (0%nat, h0).
  cbv beta iota. unfold predict. rewrite G. unfold np_int32.
  destruct (in_int64 v); split; reflexivity.
Qed.

(** ** The linearizer on trees *)

Section TreeFacts.

(** Induction on a tree with the property known for the children present. *)
Lemma tree_kids_ind (P : tree -> Prop) :
  (forall t, Forall P (kids t) -> P t) -> forall t, P t.
Proof.
  intros IH. fix rec 1. intros [a v cs]. apply IH.
  unfold kids. simpl. induction cs as [|[c|] cs IHcs]; simpl.
  - constructor.
  - constructor; [apply rec | exact IHcs].
  - exact IHcs.
Qed.

Lemma nodes_unfold (t : tree) : nodes t = t :: flat_map nodes (kids t).
Proof.
  destruct t as [a v cs]. unfold kids. simpl. f_equal.
  induction cs as [|[c|] cs IH]; simpl; [reflexivity| |exact IH].
  now rewrite IH.
Qed.

Lemma theight_unfold (t : tree) :
  theight t = S (max_list (map theight (kids t))).
Proof.
  destruct t as [a v cs]. unfold kids. simpl. f_equal.
  induction cs as [|[c|] cs IH]; simpl; [reflexivity| |exact IH].
  now rewrite IH.
Qed.

Lemma level_succ (d : nat) (t : tree) :
  level (S d) t = flat_map (level d) (kids t).
Proof.
  destruct t as [a v cs]. unfold kids. simpl.
  induction cs as [|[c|] cs IH]; simpl; [reflexivity| |exact IH].
  now rewrite IH.
Qed.

Lemma is_tree_unfold (h : store) (t : tree) :
  is_tree h t = true <->
  exists nd, h !! root t = Some nd
    /\ Node.val nd = tval t
    /\ Node.children nd = map (option_map root) (slots t)
    /\ Forall (fun c => is_tree h c = true) (kids t).
Proof.
  destruct t as [a v cs]. unfold kids. simpl.
  destruct (h !! a) as [nd|]; [|split; [discriminate|intros (? & ? & _); discriminate]].
  rewrite !andb_true_iff, !bool_decide_eq_true.
  assert (Hgo : (fix go (cs : list (option tree)) : bool :=
                   match cs with
                   | [] => true
                   | Some c :: cs' => is_tree h c && go cs'
                   | None :: cs' => go cs'
                   end) cs = true
                <-> Forall (fun c => is_tree h c = true) (omap id cs)).
  { induction cs as [|[c|] cs IH]; simpl.
    - split; [constructor|reflexivity].
    - rewrite andb_true_iff, Forall_cons, IH. reflexivity.
    - exact IH. }
  rewrite Hgo. split.
  - intros [[Hv Hc] Hk]. exists nd. auto.
  - intros (nd' & [= <-] & Hv & Hc & Hk). auto.
Qed.

Lemma present_roots (cs : list (option tree)) :
  present (map (option_map root) cs) = map root (omap id cs).
Proof.
  unfold present. induction cs as [|[c|] cs IH]; simpl; [reflexivity| |exact IH].
  f_equal. exact IH.
Qed.

Lemma present_rev (cs : list (option addr)) :
  present (rev cs) = rev (present cs).
Proof.
  unfold present. induction cs as [|[c|] cs IH]; simpl; [reflexivity| |].
  - rewrite omap_app, IH. reflexivity.
  - rewrite omap_app, IH. simpl. now rewrite app_nil_r.
Qed.

Lemma all_none_present (cs : list (option addr)) :
  all_none cs = match present cs with [] => true | _ :: _ => false end.
Proof.
  unfold present. induction cs as [|[c|] cs IH]; simpl; [reflexivity..|exact IH].
Qed.

Lemma all_none_roots (t : tree) :
  all_none (map (option_map root) (slots t)) = leafb t.
Proof.
  rewrite all_none_present, present_roots. unfold leafb, kids.
  now destruct (omap id (slots t)).
Qed.

Lemma leafb_kids (t : tree) : leafb t = true -> kids t = [].
Proof. unfold leafb. now destruct (kids t). Qed.

Lemma innerb_leafb (t : tree) : innerb t = true <-> leafb t = false.
Proof. unfold innerb. destruct (leafb t); simpl; split; congruence. Qed.

End TreeFacts.

Section StoreFacts.

Lemma same_struct_refl (h : store) : same_struct h h.
Proof. intros a. reflexivity. Qed.

Lemma same_struct_trans (h1 h2 h3 : store) :
  same_struct h1 h2 -> same_struct h2 h3 -> same_struct h1 h3.
Proof. intros H12 H23 a. now rewrite H12. Qed.

Lemma same_struct_set_idx (h : store) (a : addr) (nd : Node.t) (i : option Z) :
  h !! a = Some nd -> same_struct h (<[a := Node.set_idx i nd]> h).
Proof.
  intros Ha b. destruct (decide (a = b)) as [<-|Hne].
  - rewrite lookup_insert_eq, Ha. reflexivity.
  - now rewrite lookup_insert_ne.
Qed.

Lemma same_struct_lookup (h h' : store) (a : addr) (nd : Node.t) :
  same_struct h h' -> h !! a = Some nd ->
  exists nd', h' !! a = Some nd'
    /\ Node.val nd' = Node.val nd
    /\ Node.children nd' = Node.children nd.
Proof.
  intros Hs Ha. specialize (Hs a). rewrite Ha in Hs.
  destruct (h' !! a) as [nd'|]; [|discriminate].
  exists nd'. split; [reflexivity|].
  simpl in Hs. injection Hs as Hs.
  destruct nd, nd'. unfold erase, Node.set_idx in Hs. simpl in *.
  split; congruence.
Qed.

Lemma is_tree_same_struct (h h' : store) (t : tree) :
  same_struct h h' -> is_tree h t = true -> is_tree h' t = true.
Proof.
  intros Hs. induction t as [t IH] using tree_kids_ind.
  rewrite !is_tree_unfold. intros (nd & Ha & Hv & Hc & Hk).
  destruct (same_struct_lookup _ _ _ _ Hs Ha) as (nd' & Ha' & Hv' & Hc').
  exists nd'. repeat split; [exact Ha'|congruence|congruence|].
  rewrite Forall_forall in IH, Hk |- *. intros c Hin. apply IH; auto.
Qed.

Lemma forest_same_struct (h h' : store) (ts : list tree) :
  same_struct h h' -> Forall (fun t => is_tree h t = true) ts ->
  Forall (fun t => is_tree h' t = true) ts.
Proof.
  intros Hs Hf. eapply Forall_impl; [exact Hf|].
  intros t. now apply is_tree_same_struct.
Qed.

Lemma is_tree_get (h : store) (t : tree) :
  is_tree h t = true ->
  exists nd, get h (root t) = Ok nd
    /\ Node.val nd = tval t
    /\ Node.children nd = map (option_map root) (slots t)
    /\ present (Node.children nd) = map root (kids t)
    /\ all_none (Node.children nd) = leafb t
    /\ Forall (fun c => is_tree h c = true) (kids t).
Proof.
  rewrite is_tree_unfold. intros (nd & Ha & Hv & Hc & Hk).
  exists nd. unfold get. rewrite Ha, Hc, present_roots, all_none_roots.
  repeat split; auto.
Qed.

Lemma idx_of_insert (h : store) (a b : addr) (nd : Node.t) :
  idx_of (<[a := nd]> h) b = if decide (a = b) then Node.idx nd else idx_of h b.
Proof.
  unfold idx_of. rewrite lookup_insert. now destruct (decide (a = b)).
Qed.

Lemma for_each_cons {A S : Type} (body : S -> A -> res S) (a : A) (l : list A)
    (s : S) :
  for_each body (a :: l) s = (s' ← body s a; for_each body l s').
Proof. reflexivity. Qed.

Lemma for_each_app {A S : Type} (body : S -> A -> res S) (l1 l2 : list A) (s : S) :
  for_each body (l1 ++ l2) s = (s' ← for_each body l1 s; for_each body l2 s').
Proof.
  revert s. induction l1 as [|a l1 IH]; intros s; simpl; [reflexivity|].
  destruct (body s a) as [s'|e]; simpl; [apply IH|reflexivity].
Qed.

Lemma for_each_concat {A S : Type} (body : S -> A -> res S)
    (ls : list (list A)) (s : S) :
  for_each (fun s l => for_each body l s) ls s = for_each body (concat ls) s.
Proof.
  revert s. induction ls as [|l ls IH]; intros s; simpl; [reflexivity|].
  rewrite for_each_app. destruct (for_each body l s); simpl; [apply IH|reflexivity].
Qed.

End StoreFacts.

Section ClearIndices.

Lemma addrs_unfold (t : tree) : addrs t = root t :: flat_map addrs (kids t).
Proof.
  unfold addrs at 1. rewrite nodes_unfold. simpl. f_equal.
  induction (kids t) as [|k ks IH]; simpl; [reflexivity|].
  now rewrite map_app, IH.
Qed.

Lemma cleared_nil (h : store) : cleared h h [].
Proof.
  split; [apply same_struct_refl|]. split; [|reflexivity].
  intros a Ha. inversion Ha.
Qed.

Lemma cleared_trans (h h1 h2 : store) (A B : list addr) :
  cleared h h1 A -> cleared h1 h2 B -> cleared h h2 (A ++ B).
Proof.
  intros (Hs1 & Hc1 & Hf1) (Hs2 & Hc2 & Hf2). split; [|split].
  - eapply same_struct_trans; eassumption.
  - intros a Ha. destruct (decide (a ∈ B)) as [HB|HB]; [now apply Hc2|].
    apply elem_of_app in Ha as [Ha|Ha]; [|contradiction].
    unfold idx_of. rewrite (Hf2 a HB). now apply Hc1.
  - intros a Ha. rewrite elem_of_app in Ha.
    rewrite Hf2, Hf1; tauto.
Qed.

Lemma clear_forest (fuel : nat) (ks : list tree) :
  Forall (fun k => forall fuel h, is_tree h k = true -> (theight k <= fuel)%nat ->
            exists h', _clear_indices fuel (root k) h = Ok h'
                       /\ cleared h h' (addrs k)) ks ->
  forall h, Forall (fun k => is_tree h k = true) ks ->
    (max_list (map theight ks) <= fuel)%nat ->
    exists h', for_each (fun h c => _clear_indices fuel c h) (map root ks) h = Ok h'
               /\ cleared h h' (flat_map addrs ks).
Proof.
  induction 1 as [|k ks Hk _ IH]; intros h Hts Hf; simpl in *.
  - exists h. split; [reflexivity|apply cleared_nil].
  - apply Forall_cons in Hts as [Htk Hts].
    destruct (Hk fuel h Htk) as (h1 & E1 & C1); [lia|].
    rewrite E1. simpl.
    destruct (IH h1) as (h2 & E2 & C2); [|lia|].
    { eapply forest_same_struct; [apply C1|exact Hts]. }
    exists h2. split; [exact E2|]. eapply cleared_trans; eassumption.
Qed.

Lemma clear_indices_tree (t : tree) :
  forall fuel h, is_tree h t = true -> (theight t <= fuel)%nat ->
    exists h', _clear_indices fuel (root t) h = Ok h'
               /\ cleared h h' (addrs t).
Proof.
  induction t as [t IH] using tree_kids_ind. intros fuel h Ht Hf.
  rewrite theight_unfold in Hf. destruct fuel as [|fuel]; [lia|].
  destruct (is_tree_get _ _ Ht) as (nd & Hg & Hv & Hc & Hp & Hl & Hk).
  simpl. unfold modify. rewrite Hg. simpl.
  unfold get in Hg |- *. rewrite lookup_insert_eq. simpl.
  destruct (h !! root t) as [nd0|] eqn:Ha; [|discriminate]. injection Hg as ->.
  change (Node.children (Node.set_idx None nd)) with (Node.children nd).
  rewrite Hp.
  pose proof (same_struct_set_idx h (root t) nd None Ha) as Hs1.
  destruct (clear_forest fuel (kids t) IH (<[root t := Node.set_idx None nd]> h))
    as (h' & E & C); [|lia|].
  { eapply forest_same_struct; eassumption. }
  exists h'. split; [exact E|].
  rewrite addrs_unfold. change (root t :: ?l) with ([root t] ++ l).
  eapply cleared_trans; [|exact C].
  split; [exact Hs1|]. split.
  - intros a Hin. apply list_elem_of_singleton in Hin as ->.
    rewrite idx_of_insert. now destruct (decide (root t = root t)).
  - intros a Hin. rewrite list_elem_of_singleton in Hin.
    now rewrite lookup_insert_ne.
Qed.

End ClearIndices.

Section ListFacts.
Context {A B : Type}.

Lemma filter_rev (P : A -> Prop) `{!forall x, Decision (P x)} (l : list A) :
  filter P (rev l) = rev (filter P l).
Proof.
  induction l as [|x l IH]; simpl; [reflexivity|].
  rewrite filter_app, IH, filter_cons.
  destruct (decide (P x)); simpl.
  - rewrite filter_cons_True by assumption. now rewrite filter_nil.
  - rewrite filter_cons_False by assumption. rewrite filter_nil. apply app_nil_r.
Qed.

Lemma flat_map_rev (f : A -> list B) (l : list A) :
  rev (flat_map (fun x => rev (f x)) l) = flat_map f (rev l).
Proof.
  induction l as [|x l IH]; simpl; [reflexivity|].
  rewrite rev_app_distr, rev_involutive, IH, flat_map_app. simpl.
  now rewrite app_nil_r.
Qed.

Lemma flat_map_flat_map {C : Type} (f : A -> list B) (g : B -> list C)
    (l : list A) :
  flat_map g (flat_map f l) = flat_map (fun x => flat_map g (f x)) l.
Proof.
  induction l as [|x l IH]; simpl; [reflexivity|].
  now rewrite flat_map_app, IH.
Qed.

Lemma flat_map_singleton (l : list A) : flat_map (fun x => [x]) l = l.
Proof. induction l as [|x l IH]; simpl; [reflexivity|now rewrite IH]. Qed.

Lemma rev_concat_map_rev (g : A -> list B) (l : list A) :
  rev (concat (map (fun x => rev (g x)) l)) = concat (rev (map g l)).
Proof.
  induction l as [|x l IH]; simpl; [reflexivity|].
  rewrite rev_app_distr, rev_involutive, IH, concat_app. simpl.
  now rewrite app_nil_r.
Qed.

Lemma concat_all_nil (ls : list (list A)) :
  Forall (fun l => l = []) ls -> concat ls = [].
Proof. induction 1 as [|l ls -> _ IH]; simpl; auto. Qed.

End ListFacts.

Section LevelFacts.

Lemma theight_pos (t : tree) : (1 <= theight t)%nat.
Proof. rewrite theight_unfold. lia. Qed.

Lemma fheight_cons (t : tree) (ts : list tree) :
  fheight (t :: ts) = Nat.max (theight t) (fheight ts).
Proof. reflexivity. Qed.

Lemma fheight_app (ts1 ts2 : list tree) :
  fheight (ts1 ++ ts2) = Nat.max (fheight ts1) (fheight ts2).
Proof.
  induction ts1 as [|t ts1 IH]; [reflexivity|].
  simpl. rewrite !fheight_cons, IH. lia.
Qed.

Lemma fheight_rev (ts : list tree) : fheight (rev ts) = fheight ts.
Proof.
  induction ts as [|t ts IH]; [reflexivity|].
  simpl. rewrite fheight_app, IH, !fheight_cons. unfold fheight at 2. simpl. lia.
Qed.

Lemma fheight_zero (ts : list tree) : fheight ts = 0%nat -> ts = [].
Proof.
  destruct ts as [|t ts]; [reflexivity|].
  rewrite fheight_cons. pose proof (theight_pos t). lia.
Qed.

Lemma theight_kids (t : tree) : theight t = S (fheight (kids t)).
Proof. apply theight_unfold. Qed.

Lemma fheight_kids (ts : list tree) :
  fheight (flat_map kids ts) = pred (fheight ts).
Proof.
  induction ts as [|t ts IH]; [reflexivity|].
  simpl. rewrite fheight_app, IH, fheight_cons, theight_kids. lia.
Qed.

Lemma fheight_rev_kids (ts : list tree) :
  fheight (flat_map (fun t => rev (kids t)) ts) = pred (fheight ts).
Proof.
  induction ts as [|t ts IH]; [reflexivity|].
  simpl. rewrite fheight_app, IH, fheight_cons, fheight_rev, theight_kids. lia.
Qed.

Lemma flevel_zero (ts : list tree) : flevel 0 ts = ts.
Proof. apply flat_map_singleton. Qed.

Lemma flevel_succ (d : nat) (ts : list tree) :
  flevel (S d) ts = flevel d (flat_map kids ts).
Proof.
  unfold flevel. rewrite flat_map_flat_map.
  apply flat_map_ext. intros t. apply level_succ.
Qed.

Lemma flevel_one (d : nat) (t : tree) : flevel d [t] = level d t.
Proof. unfold flevel. simpl. apply app_nil_r. Qed.

Lemma flevel_nil (d : nat) : flevel d [] = [].
Proof. reflexivity. Qed.

(** Below the last layer there is nothing, and every layer above it has a
    node. *)
Lemma flevel_beyond (d : nat) (ts : list tree) :
  (fheight ts <= d)%nat -> flevel d ts = [].
Proof.
  revert ts. induction d as [|d IH]; intros ts Hd.
  - rewrite flevel_zero. apply fheight_zero. lia.
  - rewrite flevel_succ. apply IH. rewrite fheight_kids. lia.
Qed.

Lemma flevel_within (d : nat) (ts : list tree) :
  (d < fheight ts)%nat -> flevel d ts <> [].
Proof.
  revert ts. induction d as [|d IH]; intros ts Hd.
  - rewrite flevel_zero. intros ->. unfold fheight in Hd. simpl in Hd. lia.
  - rewrite flevel_succ. apply IH. rewrite fheight_kids. lia.
Qed.

Lemma flevels_spec (n : nat) (ts : list tree) :
  (fheight ts <= n)%nat ->
  flevels n ts = map (fun d => flevel d ts) (seq 0 (fheight ts)).
Proof.
  revert ts. induction n as [|n IH]; intros ts Hn.
  - assert (fheight ts = 0%nat) as E by lia.
    rewrite E. rewrite (fheight_zero ts E). reflexivity.
  - destruct ts as [|t ts]; [reflexivity|].
    change (flevels (S n) (t :: ts))
      with ((t :: ts) :: flevels n (flat_map kids (t :: ts))).
    assert (exists m, fheight (t :: ts) = S m) as [m E].
    { rewrite fheight_cons. pose proof (theight_pos t).
      exists (pred (Nat.max (theight t) (fheight ts))). lia. }
    remember (t :: ts) as ts0 eqn:E0. clear E0.
    rewrite IH by (rewrite fheight_kids; lia).
    rewrite fheight_kids, E. simpl. rewrite flevel_zero. f_equal.
    rewrite <- seq_shift, map_map. apply map_ext. intros d.
    now rewrite flevel_succ.
Qed.

Lemma flevels_tree (n : nat) (t : tree) :
  (theight t <= n)%nat -> flevels n [t] = levels t.
Proof.
  intros Hn. rewrite flevels_spec.
  - unfold levels, fheight. simpl. rewrite Nat.max_0_r.
    apply map_ext. intros d. apply flevel_one.
  - unfold fheight. simpl. lia.
Qed.

Lemma rleaves_nil (n : nat) : rleaves n [] = [].
Proof. induction n as [|n IH]; simpl; [reflexivity|exact IH]. Qed.

Lemma rleaves_spec (n : nat) (ts : list tree) :
  rleaves n ts
  = concat (map (fun d => rev (filter (fun t => leafb t = true)
                                      (flevel d (rev ts))))
                (seq 0 n)).
Proof.
  revert ts. induction n as [|n IH]; intros ts; [reflexivity|].
  simpl. rewrite IH, flevel_zero, <- filter_rev, rev_involutive. f_equal.
  rewrite <- seq_shift, map_map. f_equal. apply map_ext. intros d.
  now rewrite flevel_succ, <- flat_map_rev.
Qed.

Lemma rev_rleaves_tree (n : nat) (t : tree) :
  (theight t <= n)%nat -> rev (rleaves n [t]) = leaves_deepest_first t.
Proof.
  intros Hn. rewrite rleaves_spec. change (rev [t]) with [t].
  rewrite (rev_concat_map_rev
             (fun d => filter (fun t => leafb t = true) (flevel d [t]))).
  unfold leaves_deepest_first, levels.
  replace n with (theight t + (n - theight t))%nat by lia.
  rewrite seq_app, map_app, rev_app_distr, concat_app.
  rewrite concat_all_nil.
  - rewrite app_nil_l, map_map. f_equal. f_equal. apply map_ext. intros d.
    now rewrite flevel_one.
  - apply Forall_forall. intros l Hl.
    apply list_elem_of_In, in_rev, in_map_iff in Hl as (d & <- & Hd).
    apply in_seq in Hd. rewrite (flevel_beyond d [t]); [reflexivity|].
    unfold fheight. simpl. lia.
Qed.

End LevelFacts.

Section Loops.
Variable h : store.

Abbreviation forest ts := (Forall (fun t => is_tree h t = true) ts).

Lemma forest_kids (ts : list tree) : forest ts -> forest (flat_map kids ts).
Proof.
  induction 1 as [|t ts Ht _ IH]; simpl; [constructor|].
  apply Forall_app. split; [|exact IH].
  now destruct (is_tree_get _ _ Ht) as (_ & _ & _ & _ & _ & _ & Hk).
Qed.

Lemma forest_rev (ts : list tree) : forest ts -> forest (rev ts).
Proof.
  rewrite !Forall_forall. intros H t Ht. apply H.
  now apply list_elem_of_In, in_rev, list_elem_of_In in Ht.
Qed.

Lemma forest_rev_kids (ts : list tree) :
  forest ts -> forest (flat_map (fun t => rev (kids t)) ts).
Proof.
  induction 1 as [|t ts Ht _ IH]; simpl; [constructor|].
  apply Forall_app. split; [|exact IH]. apply forest_rev.
  now destruct (is_tree_get _ _ Ht) as (_ & _ & _ & _ & _ & _ & Hk).
Qed.

Lemma leaf_steps (ts : list tree) :
  forest ts ->
  forall al nl,
    for_each (leaf_step h) (map root ts) (al, nl)
    = Ok (al ++ map root (filter (fun t => leafb t = true) ts),
          nl ++ map root (flat_map (fun t => rev (kids t)) ts)).
Proof.
  induction 1 as [|t ts Ht _ IH]; intros al nl; simpl.
  - now rewrite !app_nil_r.
  - destruct (is_tree_get _ _ Ht) as (nd & Hg & _ & _ & Hp & Hl & _).
    rewrite Hg. simpl. rewrite Hl, filter_cons.
    destruct (leafb t) eqn:El; simpl.
    + rewrite IH. rewrite (leafb_kids t El). simpl.
      destruct (decide (true = true)); [|congruence].
      simpl. now rewrite <- app_assoc.
    + rewrite IH. destruct (decide (false = true)); [congruence|].
      rewrite present_rev, Hp, map_app, map_rev, app_assoc. reflexivity.
Qed.

Lemma leaf_loop_spec (fuel : nat) :
  forall ts al, forest ts -> (fheight ts <= fuel)%nat ->
    leaf_loop fuel h (map root ts) al = Ok (al ++ map root (rleaves fuel ts)).
Proof.
  induction fuel as [|fuel IH]; intros ts al Hts Hf.
  - rewrite (fheight_zero ts) by lia. simpl. now rewrite app_nil_r.
  - destruct ts as [|t ts].
    + simpl. rewrite rleaves_nil. now rewrite app_nil_r.
    + remember (t :: ts) as ts0 eqn:E0.
      assert (exists a l, map root ts0 = a :: l) as (a & l & Em)
        by (subst ts0; simpl; eauto).
      simpl. rewrite Em, <- Em. rewrite leaf_steps by assumption. simpl.
      rewrite IH.
      * now rewrite map_app, app_assoc.
      * now apply forest_rev_kids.
      * rewrite fheight_rev_kids. lia.
Qed.

Lemma layer_steps (ts : list tree) :
  forest ts ->
  forall next,
    for_each (fun next node => nd ← get h node;
                               Ok (next ++ present (Node.children nd)))
             (map root ts) next
    = Ok (next ++ map root (flat_map kids ts)).
Proof.
  induction 1 as [|t ts Ht _ IH]; intros next; simpl.
  - now rewrite app_nil_r.
  - destruct (is_tree_get _ _ Ht) as (nd & Hg & _ & _ & Hp & _ & _).
    rewrite Hg. simpl. rewrite IH, Hp, map_app, app_assoc. reflexivity.
Qed.

Lemma layers_loop_spec (fuel : nat) :
  forall ts layers, forest ts -> (fheight ts <= fuel)%nat ->
    layers_loop fuel h (map root ts) layers
    = Ok (layers ++ map (map root) (flevels fuel ts)).
Proof.
  induction fuel as [|fuel IH]; intros ts layers Hts Hf.
  - rewrite (fheight_zero ts) by lia. simpl. now rewrite app_nil_r.
  - destruct ts as [|t ts].
    + simpl. now rewrite app_nil_r.
    + remember (t :: ts) as ts0 eqn:E0.
      assert (exists a l, map root ts0 = a :: l) as (a & l & Em)
        by (subst ts0; simpl; eauto).
      simpl layers_loop. rewrite Em, <- Em. rewrite layer_steps by assumption.
      simpl. rewrite IH.
      * subst ts0. simpl. now rewrite <- app_assoc.
      * now apply forest_kids.
      * rewrite fheight_kids. lia.
Qed.

End Loops.

Section Order.

Lemma flat_map_cons_perm {A B : Type} (f : A -> B) (g : A -> list B) (l : list A) :
  Permutation (flat_map (fun x => f x :: g x) l) (map f l ++ flat_map g l).
Proof.
  induction l as [|x l IH]; simpl; [constructor|].
  constructor. rewrite IH. rewrite !app_assoc.
  apply Permutation_app_tail. apply Permutation_app_comm.
Qed.

Lemma flevels_perm (n : nat) :
  forall ts, (fheight ts <= n)%nat ->
    Permutation (concat (map (fun d => flevel d ts) (seq 0 n)))
                (flat_map nodes ts).
Proof.
  induction n as [|n IH]; intros ts Hn.
  - rewrite (fheight_zero ts) by lia. constructor.
  - simpl. rewrite flevel_zero, <- seq_shift, map_map.
    rewrite (map_ext _ (fun d => flevel d (flat_map kids ts)))
      by (intros d; apply flevel_succ).
    rewrite IH by (rewrite fheight_kids; lia).
    rewrite flat_map_flat_map.
    rewrite (flat_map_ext nodes (fun t => t :: flat_map nodes (kids t)))
      by apply nodes_unfold.
    rewrite (flat_map_cons_perm (fun t => t)). now rewrite map_id.
Qed.

Lemma levels_perm (t : tree) : Permutation (concat (levels t)) (nodes t).
Proof.
  unfold levels.
  rewrite (map_ext _ (fun d => flevel d [t]))
    by (intros d; symmetry; apply flevel_one).
  rewrite flevels_perm.
  - simpl. now rewrite app_nil_r.
  - unfold fheight. simpl. lia.
Qed.

Lemma filter_concat {A : Type} (P : A -> Prop) `{!forall x, Decision (P x)}
    (ls : list (list A)) :
  filter P (concat ls) = concat (map (filter P) ls).
Proof.
  induction ls as [|l ls IH]; simpl; [reflexivity|].
  now rewrite filter_app, IH.
Qed.

Lemma concat_rev_perm {A : Type} (ls : list (list A)) :
  Permutation (concat (rev ls)) (concat ls).
Proof.
  induction ls as [|l ls IH]; simpl; [constructor|].
  rewrite concat_app. simpl. rewrite app_nil_r, IH. apply Permutation_app_comm.
Qed.

Lemma todo_perm (t : tree) : Permutation (concat (rev (levels t))) (nodes t).
Proof. rewrite concat_rev_perm. apply levels_perm. Qed.

Lemma filter_todo (P : tree -> Prop) `{!forall x, Decision (P x)} (t : tree) :
  filter P (concat (rev (levels t)))
  = concat (rev (map (filter P) (levels t))).
Proof. now rewrite filter_concat, map_rev. Qed.

Lemma leaves_perm (t : tree) :
  Permutation (leaves_deepest_first t)
              (filter (fun n => leafb n = true) (nodes t)).
Proof.
  unfold leaves_deepest_first. rewrite <- filter_todo.
  now rewrite todo_perm.
Qed.

Lemma inner_perm (t : tree) :
  Permutation (inner_deepest_first t)
              (filter (fun n => innerb n = true) (nodes t)).
Proof.
  unfold inner_deepest_first. rewrite <- filter_todo.
  now rewrite todo_perm.
Qed.

Lemma kids_flevel (n : nat) :
  forall ts, flat_map kids (flevel n ts) = flevel n (flat_map kids ts).
Proof.
  induction n as [|n IH]; intros ts.
  - now rewrite !flevel_zero.
  - now rewrite !flevel_succ, IH.
Qed.

Lemma chain_flevels (n : nat) (ts : list tree) :
  chain (flevel n ts) (rev (map (fun d => flevel d ts) (seq 0 n))).
Proof.
  induction n as [|n IH]; [exact I|].
  rewrite seq_S, map_app, rev_app_distr. simpl. split; [|exact IH].
  now rewrite kids_flevel, flevel_succ.
Qed.

Lemma chain_levels (t : tree) : chain [] (rev (levels t)).
Proof.
  unfold levels.
  rewrite (map_ext _ (fun d => flevel d [t]))
    by (intros d; symmetry; apply flevel_one).
  rewrite <- (flevel_beyond (theight t) [t]) at 1.
  - apply chain_flevels.
  - unfold fheight. simpl. lia.
Qed.

Lemma kids_before_chain (layers : list (list tree)) :
  forall prev done, chain prev layers -> (forall c, c ∈ prev -> c ∈ done) ->
    kids_before done (concat layers).
Proof.
  induction layers as [|layer layers IH]; intros prev done Hc Hprev p n s E c Hk.
  - destruct p; discriminate.
  - simpl in E, Hc. destruct Hc as [Hkids Hc].
    assert (Hsub : forall c', c' ∈ layer -> c' ∈ done ++ layer)
      by (intros c' Hc'; apply elem_of_app; now right).
    pose proof (IH layer (done ++ layer) Hc Hsub) as IH'.
    unfold kids_before in IH'.
    apply app_eq_app in E as [l [[E1 E2]|[E1 E2]]].
    + destruct l as [|n' l].
      * rewrite app_nil_r in E1. subst p. simpl in E2.
        rewrite <- (app_nil_r layer) at 1. rewrite app_assoc.
        apply (IH' [] n s); [now symmetry|exact Hk].
      * simpl in E2. injection E2 as -> E2. apply elem_of_app. left.
        apply Hprev. rewrite <- Hkids. apply list_elem_of_In, in_flat_map.
        exists n'. split; [|now apply list_elem_of_In].
        rewrite E1. apply in_or_app. right. now left.
    + subst p. rewrite app_assoc.
      apply (IH' l n s); [exact E2|exact Hk].
Qed.

Lemma kids_before_todo (t : tree) : kids_before [] (concat (rev (levels t))).
Proof.
  apply (kids_before_chain _ [] []); [apply chain_levels|].
  intros c Hc. exact Hc.
Qed.

End Order.

Section LeafPositions.

Lemma leaf_assign_spec (lv : list tree) :
  forall (s : nat) (vals : list (option Z)) (h : store),
    NoDup (map root lv) ->
    Forall (fun t => is_tree h t = true) lv ->
    exists h',
      for_each leaf_assign
               (zip (map Z.of_nat (seq s (length lv))) (map root lv)) (vals, h)
      = Ok (vals ++ map tval lv, h')
      /\ same_struct h h'
      /\ map (idx_of h') (map root lv)
         = map (fun k => Some (Z.of_nat k)) (seq s (length lv))
      /\ (forall a, a ∉ map root lv -> h' !! a = h !! a).
Proof.
  induction lv as [|n lv IH]; intros s vals h Hnd Hf; simpl.
  - exists h. rewrite app_nil_r. repeat split; auto using same_struct_refl.
  - apply NoDup_cons in Hnd as [Hn Hnd]. apply Forall_cons in Hf as [Ht Hf].
    destruct (is_tree_get _ _ Ht) as (nd & Hg & Hv & _).
    unfold modify. rewrite Hg. simpl.
    unfold get in Hg |- *. rewrite lookup_insert_eq. simpl.
    destruct (h !! root n) as [nd0|] eqn:Ha; [|discriminate]. injection Hg as ->.
    change (Node.val (Node.set_idx (Some (Z.of_nat s)) nd)) with (Node.val nd).
    set (h1 := <[root n := Node.set_idx (Some (Z.of_nat s)) nd]> h).
    pose proof (same_struct_set_idx h (root n) nd (Some (Z.of_nat s)) Ha) as Hs1.
    destruct (IH (S s) (vals ++ [Node.val nd]) h1 Hnd) as (h' & E & Hs & Hi & Hfr).
    { eapply forest_same_struct; eassumption. }
    exists h'. rewrite E, Hv, <- app_assoc. simpl. repeat split.
    + eapply same_struct_trans; eassumption.
    + rewrite Hi. f_equal. unfold idx_of. rewrite Hfr by exact Hn.
      unfold h1. now rewrite lookup_insert_eq.
    + intros a Ha'. apply not_elem_of_cons in Ha' as [Hne Ha'].
      rewrite Hfr by exact Ha'. unfold h1. now rewrite lookup_insert_ne.
Qed.

Lemma NoDup_map_perm (l l' : list tree) :
  Permutation l l' -> NoDup (map root l') -> NoDup (map root l).
Proof.
  intros Hp. apply (Permutation_map root) in Hp.
  intros Hnd. now rewrite Hp.
Qed.

Lemma NoDup_map_filter (P : tree -> Prop) `{!forall x, Decision (P x)} (l : list tree) :
  NoDup (map root l) -> NoDup (map root (filter P l)).
Proof.
  induction l as [|x l IH]; simpl; [constructor|].
  intros Hnd. apply NoDup_cons in Hnd as [Hx Hnd].
  rewrite filter_cons. destruct (decide (P x)); [|now apply IH].
  simpl. apply NoDup_cons. split; [|now apply IH].
  intros Hin. apply Hx.
  apply list_elem_of_In, in_map_iff in Hin as (y & Hy & Hin).
  apply list_elem_of_In, in_map_iff. exists y. split; [exact Hy|].
  apply list_elem_of_In. apply list_elem_of_In in Hin.
  now apply list_elem_of_filter in Hin as [_ Hin].
Qed.

Lemma leaves_nodup (t : tree) :
  NoDup (addrs t) -> NoDup (map root (leaves_deepest_first t)).
Proof.
  intros Hnd. eapply NoDup_map_perm; [apply leaves_perm|].
  now apply NoDup_map_filter.
Qed.

Lemma leaves_forest (h : store) (t : tree) :
  is_tree h t = true -> NoDup (addrs t) ->
  Forall (fun n => is_tree h n = true) (nodes t).
Proof.
  intros Ht _. revert Ht. induction t as [t IH] using tree_kids_ind. intros Ht.
  rewrite nodes_unfold. constructor; [exact Ht|].
  destruct (is_tree_get _ _ Ht) as (_ & _ & _ & _ & _ & _ & Hk).
  rewrite Forall_forall in IH, Hk |- *. intros n Hn.
  apply list_elem_of_In, in_flat_map in Hn as (k & Hk' & Hn).
  apply list_elem_of_In in Hk'.
  specialize (IH k Hk' (Hk k Hk')). rewrite Forall_forall in IH.
  apply IH. now apply list_elem_of_In.
Qed.

(** [_get_leaf_vals] on a tree: the values are those of the leaves, deepest
    layer first and from left to right, and the leaves hold the positions
    from 0 in that order. *)
Lemma get_leaf_vals_tree (fuel : nat) (t : tree) (h : store) :
  is_tree h t = true -> NoDup (addrs t) -> (theight t <= fuel)%nat ->
  exists h',
    _get_leaf_vals fuel (root t) h
    = Ok (map tval (leaves_deepest_first t), h')
    /\ same_struct h h'
    /\ map (idx_of h') (map root (leaves_deepest_first t))
       = map Some (arange (length (leaves_deepest_first t)))
    /\ (forall a, a ∉ map root (leaves_deepest_first t) -> h' !! a = h !! a).
Proof.
  intros Ht Hnd Hf. unfold _get_leaf_vals.
  change [root t] with (map root [t]).
  rewrite (leaf_loop_spec h fuel [t] []).
  2: { constructor; [exact Ht|constructor]. }
  2: { unfold fheight. simpl. lia. }
  simpl. rewrite <- map_rev, rev_rleaves_tree by exact Hf.
  unfold enumerate, arange. rewrite length_map.
  destruct (leaf_assign_spec (leaves_deepest_first t) 0 [] h) as (h' & E & Hs & Hi & Hfr).
  { now apply leaves_nodup. }
  { pose proof (leaves_forest h t Ht Hnd) as Hall.
    rewrite Forall_forall in Hall |- *. intros n Hn. apply Hall.
    rewrite leaves_perm in Hn. now apply list_elem_of_filter in Hn as [_ Hn]. }
  exists h'. rewrite E. simpl. repeat split; auto.
  rewrite Hi. now rewrite map_map.
Qed.

End LeafPositions.

Section Traversal.

Lemma mapM_id_somes (l : list Z) : mapM id (map Some l) = Some l.
Proof. induction l as [|x l IH]; simpl; [reflexivity|]. now rewrite IH. Qed.

Lemma pad_somes (max_degree : option nat) (l : list Z) :
  exists l', assert_no_none (pad max_degree (map Some l)) = Ok (l ++ l')
    /\ Forall (fun c => c = -1) l'
    /\ length (l ++ l')
       = match max_degree with
         | Some d => Nat.max (length l) d
         | None => length l
         end.
Proof.
  unfold assert_no_none, pad. destruct max_degree as [d|].
  - exists (replicate (d - length l) (-1)).
    rewrite length_map.
    replace (replicate (d - length l) (Some (-1)))
      with (map Some (replicate (d - length l) (-1)))
      by (induction (d - length l)%nat; simpl; congruence).
    rewrite <- map_app, mapM_id_somes. split; [reflexivity|]. split.
    + apply Forall_forall. intros x Hx.
      now apply elem_of_replicate in Hx as [-> _].
    + rewrite length_app, length_replicate. lia.
  - exists []. rewrite app_nil_r, mapM_id_somes. repeat split; auto.
Qed.

Lemma child_idxs_spec (h : store) (bound : Z) (cs : list (option tree)) :
  (forall c, c ∈ omap id cs ->
             exists i, idx_of h (root c) = Some i /\ i < bound) ->
  exists l, map_res (child_idx h) (map (option_map root) cs) = Ok (map Some l)
    /\ length l = length cs
    /\ Forall (fun v => v = -1 \/ v < bound) l.
Proof.
  induction cs as [|[c|] cs IH]; intros Hk; simpl.
  - exists []. split; [reflexivity|]. split; [reflexivity|constructor].
  - destruct (Hk c) as (i & Hi & Hlt); [simpl; left|].
    destruct IH as (l & E & Hlen & Hall).
    { intros c' Hc'. apply Hk. simpl. now right. }
    unfold idx_of in Hi. unfold get.
    destruct (h !! root c) as [nd|]; [|discriminate]. simpl in Hi |- *.
    rewrite E. simpl. exists (i :: l). rewrite Hi. simpl.
    split; [reflexivity|]. split; [congruence|].
    constructor; [now right|exact Hall].
  - destruct IH as (l & E & Hlen & Hall).
    { intros c' Hc'. apply Hk. exact Hc'. }
    rewrite E. simpl. exists (-1 :: l). simpl.
    split; [reflexivity|]. split; [congruence|].
    constructor; [now left|exact Hall].
Qed.

Lemma own_snoc (l : list Z) (x : Z) : own (l ++ [x]) = x.
Proof. unfold own. apply last_last. Qed.

Lemma child_slots_snoc (l : list Z) (x : Z) : child_slots (l ++ [x]) = l.
Proof. unfold child_slots. apply removelast_last. Qed.

Lemma trav_steps (max_degree : option nat) (h0 : store) (todo : list tree) :
  forall (done : list tree) (st : trav),
    same_struct h0 (t_store st) ->
    Forall (fun n => is_tree h0 n = true) todo ->
    NoDup (map root (done ++ todo)) ->
    Forall (pending st) todo ->
    Forall (placed st) done ->
    kids_before done todo ->
    exists st' rows,
      for_each (trav_step max_degree) (map root todo) st = Ok st'
      /\ t_tree st' = t_tree st ++ rows
      /\ Forall2 (row_ok max_degree)
                 (filter (fun n => innerb n = true) todo) rows
      /\ map own rows
         = map (fun k => t_idx st + Z.of_nat k)
               (seq 0 (length (filter (fun n => innerb n = true) todo)))
      /\ t_idx st'
         = t_idx st + Z.of_nat (length (filter (fun n => innerb n = true) todo))
      /\ t_vals st'
         = t_vals st ++ map (fun n => Some (default (-1) (tval n)))
                            (filter (fun n => innerb n = true) todo)
      /\ same_struct (t_store st) (t_store st')
      /\ map (idx_of (t_store st'))
             (map root (filter (fun n => innerb n = true) todo))
         = map Some (map own rows)
      /\ (forall a, a ∉ map root (filter (fun n => innerb n = true) todo) ->
                    t_store st' !! a = t_store st !! a).
Proof.
  induction todo as [|n todo IH]; intros done st Hs Hf Hnd Hpend Hdone Hkb.
  - exists st, []. simpl. rewrite !app_nil_r, Z.add_0_r.
    repeat split; auto using same_struct_refl.
  - apply Forall_cons in Hf as [Ht Hf].
    apply Forall_cons in Hpend as [Hpn Hpend].
    assert (Hnd' : NoDup (map root ((done ++ [n]) ++ todo)))
      by now rewrite <- app_assoc.
    assert (Hkb' : kids_before (done ++ [n]) todo).
    { intros p m s E c Hc. rewrite <- app_assoc. simpl.
      apply (Hkb (n :: p) m s); [now rewrite E|exact Hc]. }
    assert (Hfresh : forall m, m ∈ done ++ todo -> root m <> root n).
    { intros m Hm Heq. rewrite map_app in Hnd. simpl in Hnd.
      apply NoDup_app in Hnd as (_ & Hdis & Hnd).
      apply NoDup_cons in Hnd as [Hn _].
      apply elem_of_app in Hm as [Hm|Hm].
      - apply (Hdis (root n)).
        + rewrite <- Heq. apply list_elem_of_In, in_map, list_elem_of_In, Hm.
        + left.
      - apply Hn. rewrite <- Heq.
        apply list_elem_of_In, in_map, list_elem_of_In, Hm. }
    destruct (is_tree_get _ _ Ht) as (nd0 & Hg0 & Hv0 & Hc0 & _ & Hl0 & _).
    unfold get in Hg0. destruct (h0 !! root n) as [nd0'|] eqn:Ha0; [|discriminate].
    injection Hg0 as ->.
    destruct (same_struct_lookup _ _ _ _ Hs Ha0) as (nd & Ha & Hv & Hc).
    change (map root (n :: todo)) with (root n :: map root todo).
    rewrite for_each_cons.
    unfold pending in Hpn. unfold idx_of in Hpn. rewrite Ha in Hpn. simpl in Hpn.
    destruct (leafb n) eqn:El.
    + (* a leaf: it holds a position already *)
      destruct Hpn as (i & Hi & Hlt).
      assert (Estep : trav_step max_degree st (root n) = Ok st).
      { unfold trav_step, get. rewrite Ha. simpl. now rewrite Hi, Hc, Hl0. }
      rewrite Estep. simpl.
      destruct (IH (done ++ [n]) st Hs Hf Hnd' Hpend) as (st' & rows & E & R).
      { apply Forall_app. split; [exact Hdone|]. constructor; [|constructor].
        exists i. unfold idx_of. rewrite Ha. simpl. auto. }
      { exact Hkb'. }
      exists st', rows. rewrite E. split; [reflexivity|].
      rewrite filter_cons_False; [exact R|].
      unfold innerb. rewrite El. simpl. congruence.
    + (* an internal node: it gets the next position and a row *)
      destruct (child_idxs_spec (t_store st) (t_idx st) (slots n))
        as (l & El' & Hlen & Hall).
      { intros c Hc'. rewrite Forall_forall in Hdone.
        specialize (Hkb [] n todo eq_refl c Hc'). rewrite app_nil_r in Hkb.
        exact (Hdone c Hkb). }
      destruct (pad_somes max_degree l) as (l' & Ep & Hl' & Hlen').
      set (h1 := <[root n := Node.set_idx (Some (t_idx st)) nd]> (t_store st)).
      set (st1 := Trav (t_tree st ++ [(l ++ l') ++ [t_idx st]])
                       (t_vals st ++ [Some (default (-1) (Node.val nd))])
                       (t_idx st + 1) h1).
      assert (Estep : trav_step max_degree st (root n) = Ok st1).
      { unfold trav_step, get. rewrite Ha. simpl. rewrite Hpn, Hc, Hc0, El'.
        simpl. rewrite Ep. simpl. unfold modify, get. rewrite Ha. reflexivity. }
      rewrite Estep. simpl.
      pose proof (same_struct_set_idx _ _ _ (Some (t_idx st)) Ha) as Hs1.
      fold h1 in Hs1.
      destruct (IH (done ++ [n]) st1) as (st' & rows & E & Ht' & Hrows & Hown
                                         & Hidx & Hvals & Hs' & Hpos & Hfr).
      { simpl. eapply same_struct_trans; eassumption. }
      { exact Hf. }
      { exact Hnd'. }
      { rewrite Forall_forall in Hpend |- *. intros m Hm.
        specialize (Hpend m Hm). unfold pending in *. simpl.
        unfold h1. rewrite idx_of_insert.
        destruct (decide (root n = root m)) as [Heq|_].
        - exfalso. apply (Hfresh m); [apply elem_of_app; now right|now symmetry].
        - destruct (leafb m); [|exact Hpend].
          destruct Hpend as (i & Hi & Hlt). exists i. split; [exact Hi|lia]. }
      { apply Forall_app. split.
        - rewrite Forall_forall in Hdone |- *. intros m Hm.
          destruct (Hdone m Hm) as (i & Hi & Hlt). exists i. simpl.
          unfold h1. rewrite idx_of_insert.
          destruct (decide (root n = root m)) as [Heq|_].
          + exfalso. apply (Hfresh m); [apply elem_of_app; now left|now symmetry].
          + split; [exact Hi|lia].
        - constructor; [|constructor]. exists (t_idx st). simpl.
          unfold h1. rewrite idx_of_insert.
          destruct (decide (root n = root n)); [|congruence].
          simpl. split; [reflexivity|lia]. }
      { exact Hkb'. }
      exists st', (((l ++ l') ++ [t_idx st]) :: rows).
      rewrite E.
      assert (Hin : innerb n = true) by (unfold innerb; now rewrite El).
      rewrite filter_cons_True by exact Hin.
      simpl in Ht', Hown, Hidx, Hvals, Hs', Hfr. simpl.
      assert (Hroot : root n ∉ map root (filter (fun n => innerb n = true) todo)).
      { intros Hin'. apply list_elem_of_In, in_map_iff in Hin' as (m & Hm & Hin').
        apply list_elem_of_In, list_elem_of_filter in Hin' as [_ Hin'].
        apply (Hfresh m); [apply elem_of_app; now right|exact Hm]. }
      split; [reflexivity|].
      split; [rewrite Ht', <- app_assoc; reflexivity|].
      split.
      { constructor; [|exact Hrows]. split.
        - rewrite length_app, Hlen'. simpl. rewrite Hlen.
          unfold row_len. destruct max_degree; lia.
        - rewrite own_snoc, child_slots_snoc. apply Forall_app. split.
          + exact Hall.
          + eapply Forall_impl; [exact Hl'|]. intros x ->. now left. }
      split.
      { rewrite own_snoc, Hown, <- seq_shift, map_map. f_equal; [lia|].
        apply map_ext. intros k. lia. }
      split; [rewrite Hidx; lia|].
      split; [rewrite Hvals, <- app_assoc, Hv, Hv0; reflexivity|].
      split; [eapply same_struct_trans; eassumption|].
      split.
      { rewrite own_snoc, Hpos. f_equal. unfold idx_of.
        rewrite Hfr by exact Hroot. unfold h1. now rewrite lookup_insert_eq. }
      { intros a Ha'. apply not_elem_of_cons in Ha' as [Hne Ha'].
        rewrite Hfr by exact Ha'. unfold h1. now rewrite lookup_insert_ne. }
Qed.

End Traversal.

Section Linearize.

Lemma root_inj (l : list tree) (x y : tree) :
  NoDup (map root l) -> x ∈ l -> y ∈ l -> root x = root y -> x = y.
Proof.
  induction l as [|z l IH]; intros Hnd Hx Hy E; [inversion Hx|].
  simpl in Hnd. apply NoDup_cons in Hnd as [Hz Hnd].
  apply elem_of_cons in Hx as [->|Hx]; apply elem_of_cons in Hy as [->|Hy].
  - reflexivity.
  - exfalso. apply Hz. rewrite E. apply list_elem_of_In, in_map, list_elem_of_In, Hy.
  - exfalso. apply Hz. rewrite <- E. apply list_elem_of_In, in_map, list_elem_of_In, Hx.
  - now apply IH.
Qed.

Lemma arange_lookup {A : Type} (f : A -> option Z) (l : list A) (x : A) :
  map f l = map Some (arange (length l)) -> x ∈ l ->
  exists i, f x = Some i /\ i < Z.of_nat (length l).
Proof.
  intros E Hx. apply list_elem_of_lookup in Hx as [k Hk].
  assert (Hlt : (k < length l)%nat) by (eapply lookup_lt_Some; exact Hk).
  assert (E' : map f l !! k = map Some (arange (length l)) !! k) by now rewrite E.
  change (map f l) with (f <$> l) in E'.
  change (map Some (arange (length l))) with (Some <$> arange (length l)) in E'.
  rewrite !list_lookup_fmap, Hk in E'. simpl in E'.
  unfold arange in E'. change (map Z.of_nat ?s) with (Z.of_nat <$> s) in E'.
  rewrite list_lookup_fmap, lookup_seq_lt in E' by exact Hlt. simpl in E'.
  exists (Z.of_nat k). split; [congruence|lia].
Qed.

Lemma nodes_leaf (t : tree) : leafb t = true -> nodes t = [t].
Proof. intros Hl. rewrite nodes_unfold, (leafb_kids t Hl). reflexivity. Qed.

Lemma inner_of_leaf (t : tree) : leafb t = true -> inner_deepest_first t = [].
Proof.
  intros Hl. apply Permutation_nil. symmetry. rewrite inner_perm.
  rewrite (nodes_leaf t Hl), filter_cons_False, filter_nil; [reflexivity|].
  unfold innerb. rewrite Hl. simpl. congruence.
Qed.

Lemma elem_of_leaves (t n : tree) :
  n ∈ leaves_deepest_first t <-> n ∈ nodes t /\ leafb n = true.
Proof. rewrite leaves_perm, list_elem_of_filter. tauto. Qed.

Lemma elem_of_inner (t n : tree) :
  n ∈ inner_deepest_first t <-> n ∈ nodes t /\ innerb n = true.
Proof. rewrite inner_perm, list_elem_of_filter. tauto. Qed.

Lemma inner_not_leaf_root (t n : tree) :
  NoDup (addrs t) -> n ∈ nodes t -> innerb n = true ->
  root n ∉ map root (leaves_deepest_first t).
Proof.
  intros Hnd Hn Hi Hin.
  apply list_elem_of_In, in_map_iff in Hin as (m & E & Hm).
  apply list_elem_of_In, elem_of_leaves in Hm as [Hm Hl].
  assert (m = n) as -> by (eapply root_inj; eassumption).
  unfold innerb in Hi. rewrite Hl in Hi. discriminate.
Qed.

Lemma leaf_not_inner_root (t n : tree) :
  NoDup (addrs t) -> n ∈ nodes t -> leafb n = true ->
  root n ∉ map root (inner_deepest_first t).
Proof.
  intros Hnd Hn Hl Hin.
  apply list_elem_of_In, in_map_iff in Hin as (m & E & Hm).
  apply list_elem_of_In, elem_of_inner in Hm as [Hm Hi].
  assert (m = n) as -> by (eapply root_inj; eassumption).
  unfold innerb in Hi. rewrite Hl in Hi. discriminate.
Qed.

(** The three passes of [gen_nn_inputs] on a tree. *)
Lemma linearize_tree (fuel : nat) (max_degree : option nat) (t : tree)
    (h : store) :
  is_tree h t = true -> NoDup (addrs t) -> (theight t <= fuel)%nat ->
  let leaves := leaves_deepest_first t in
  let inner := inner_deepest_first t in
  exists h1 h2 h3 rows,
    _clear_indices fuel (root t) h = Ok h1
    /\ _get_leaf_vals fuel (root t) h1 = Ok (map tval leaves, h2)
    /\ _get_tree_traversal fuel (root t) (Z.of_nat (length leaves))
                           max_degree h2
       = Ok (rows, map (fun n => Some (default (-1) (tval n))) inner, h3)
    /\ Forall2 (row_ok max_degree) inner rows
    /\ map own rows
       = map (fun k => Z.of_nat (length leaves) + Z.of_nat k)
             (seq 0 (length inner))
    /\ same_struct h h3
    /\ positions h3 (map root leaves) = map Some (arange (length leaves))
    /\ positions h3 (map root inner) = map Some (map own rows)
    /\ (forall a, a ∉ addrs t -> h3 !! a = h !! a).
Proof.
  intros Ht Hnd Hf leaves inner.
  destruct (clear_indices_tree t fuel h Ht Hf) as (h1 & E1 & Hs1 & Hc1 & Hf1).
  assert (Ht1 : is_tree h1 t = true) by (eapply is_tree_same_struct; eassumption).
  destruct (get_leaf_vals_tree fuel t h1 Ht1 Hnd Hf) as (h2 & E2 & Hs2 & Hi2 & Hf2).
  fold leaves in E2, Hi2, Hf2.
  assert (Ht2 : is_tree h2 t = true) by (eapply is_tree_same_struct; eassumption).
  assert (Hleaf_out : forall a, a ∉ addrs t -> a ∉ map root leaves).
  { intros a Ha Hin. apply Ha.
    apply list_elem_of_In, in_map_iff in Hin as (m & <- & Hm).
    apply list_elem_of_In, elem_of_leaves in Hm as [Hm _].
    apply list_elem_of_In, in_map, list_elem_of_In, Hm. }
  assert (Hinner_out : forall a, a ∉ addrs t -> a ∉ map root inner).
  { intros a Ha Hin. apply Ha.
    apply list_elem_of_In, in_map_iff in Hin as (m & <- & Hm).
    apply list_elem_of_In, elem_of_inner in Hm as [Hm _].
    apply list_elem_of_In, in_map, list_elem_of_In, Hm. }
  destruct (is_tree_get _ _ Ht2) as (nd & Hg & _ & Hch & Hp & Hl & _).
  destruct (slots t) as [|s0 ss] eqn:Esl.
  - (* the root has no slot: no schedule *)
    assert (Hleaf : leafb t = true) by (unfold leafb, kids; now rewrite Esl).
    exists h1, h2, h2, []. unfold _get_tree_traversal. rewrite Hg. simpl.
    rewrite Hch. simpl. unfold inner. rewrite (inner_of_leaf t Hleaf). simpl.
    split; [exact E1|]. split; [exact E2|]. split; [reflexivity|].
    split; [constructor|]. split; [reflexivity|].
    split; [eapply same_struct_trans; eassumption|].
    split; [exact Hi2|]. split; [reflexivity|].
    intros a Ha. rewrite Hf2, Hf1; auto.
  - set (todo := concat (rev (levels t))).
    assert (Hperm : Permutation todo (nodes t)) by apply todo_perm.
    assert (Hall : Forall (fun n => is_tree h2 n = true) todo).
    { pose proof (leaves_forest h2 t Ht2 Hnd) as Hall.
      rewrite Forall_forall in Hall |- *. intros n Hn. apply Hall.
      now rewrite <- Hperm. }
    destruct (trav_steps max_degree h2 todo []
                (Trav [] [] (Z.of_nat (length leaves)) h2))
      as (st' & rows & E3 & Htree & Hrows & Hown & Hidx & Hvals & Hs3 & Hpos & Hf3).
    + apply same_struct_refl.
    + exact Hall.
    + simpl. eapply NoDup_map_perm; [exact Hperm|exact Hnd].
    + rewrite Forall_forall. intros n Hn. rewrite Hperm in Hn.
      unfold pending. simpl. destruct (leafb n) eqn:El.
      * apply (arange_lookup (fun m => idx_of h2 (root m)) leaves n).
        -- rewrite <- Hi2. now rewrite map_map.
        -- apply elem_of_leaves. auto.
      * unfold idx_of. rewrite Hf2.
        -- apply Hc1. apply list_elem_of_In, in_map, list_elem_of_In, Hn.
        -- apply inner_not_leaf_root; auto. unfold innerb. now rewrite El.
    + constructor.
    + apply kids_before_todo.
    + unfold todo in Hrows, Hown, Hidx, Hvals, Hpos, Hf3.
      rewrite filter_todo in Hrows, Hown, Hidx, Hvals, Hpos, Hf3.
      fold (inner_deepest_first t) in Hrows, Hown, Hidx, Hvals, Hpos, Hf3.
      fold inner in Hrows, Hown, Hidx, Hvals, Hpos, Hf3.
      simpl in Htree, Hown, Hidx, Hvals, Hs3, Hf3.
      exists h1, h2, (t_store st'), rows.
      split; [exact E1|]. split; [exact E2|]. split.
      { unfold _get_tree_traversal. rewrite Hg. simpl. rewrite Hch. simpl.
        change [root t] with (map root [t]).
        rewrite (layers_loop_spec h2 fuel [t] []).
        2: { constructor; [exact Ht2|constructor]. }
        2: { unfold fheight. simpl. lia. }
        simpl. rewrite flevels_tree by exact Hf.
        rewrite <- map_rev, for_each_concat, <- concat_map.
        fold todo. rewrite E3. simpl. now rewrite Htree, Hvals. }
      split; [exact Hrows|]. split; [exact Hown|].
      split; [eapply same_struct_trans; [|exact Hs3];
              eapply same_struct_trans; eassumption|].
      split.
      { rewrite <- Hi2. unfold positions. rewrite !map_map.
        apply map_ext_in. intros n Hn. unfold idx_of. rewrite Hf3; [reflexivity|].
        apply list_elem_of_In, elem_of_leaves in Hn as [Hn Hl'].
        now apply leaf_not_inner_root. }
      split; [exact Hpos|].
      intros a Ha. rewrite Hf3, Hf2, Hf1; auto.
Qed.

End Linearize.
(** ** The rows of the schedule hold the positions of the children *)

Section RowContent.

Lemma keeps_positions_refl (h : store) : keeps_positions h h.
Proof. intros a i Hi. exact Hi. Qed.

Lemma keeps_positions_trans (h1 h2 h3 : store) :
  keeps_positions h1 h2 -> keeps_positions h2 h3 -> keeps_positions h1 h3.
Proof. intros H12 H23 a i Hi. apply H23, H12, Hi. Qed.

(** What a step of the traversal does, read off its result. *)
Lemma trav_step_inv (max_degree : option nat) (st st' : trav) (a : addr) :
  trav_step max_degree st a = Ok st' ->
  exists nd, t_store st !! a = Some nd
    /\ match Node.idx nd with
       | Some _ => st' = st
       | None =>
           exists cis l,
             map_res (child_idx (t_store st)) (Node.children nd) = Ok cis
             /\ assert_no_none (pad max_degree cis) = Ok l
             /\ st' = Trav (t_tree st ++ [l ++ [t_idx st]])
                           (t_vals st ++ [Some (default (-1) (Node.val nd))])
                           (t_idx st + 1)
                           (<[a := Node.set_idx (Some (t_idx st)) nd]>
                              (t_store st))
       end.
Proof.
  unfold trav_step, get. destruct (t_store st !! a) as [nd|] eqn:Ha;
    [|discriminate].
  cbn [mbind res_bind]. intros H. exists nd. split; [reflexivity|].
  destruct (Node.idx nd) as [i|].
  - destruct (assert _) as [[]|]; [|discriminate]. now injection H as <-.
  - destruct (map_res _ _) as [cis|] eqn:Ec; [|discriminate].
    cbn [mbind res_bind] in H.
    destruct (assert_no_none _) as [l|] eqn:El; [|discriminate].
    cbn [mbind res_bind] in H. unfold modify, get in H. rewrite Ha in H.
    cbn [mbind res_bind] in H. injection H as <-.
    exists cis, l. split; [reflexivity|]. split; [exact El|reflexivity].
Qed.

Lemma trav_step_keeps (max_degree : option nat) (st st' : trav) (a : addr) :
  trav_step max_degree st a = Ok st' ->
  keeps_positions (t_store st) (t_store st').
Proof.
  intros H. destruct (trav_step_inv _ _ _ _ H) as (nd & Ha & Hcase).
  destruct (Node.idx nd) as [i|] eqn:Hi.
  - subst st'. apply keeps_positions_refl.
  - destruct Hcase as (cis & l & _ & _ & ->). simpl.
    intros b j Hb. rewrite idx_of_insert.
    destruct (decide (a = b)) as [<-|_]; [|exact Hb].
    unfold idx_of in Hb. rewrite Ha in Hb. simpl in Hb. congruence.
Qed.

Lemma trav_steps_keep (max_degree : option nat) (l : list addr) :
  forall st st',
    for_each (trav_step max_degree) l st = Ok st' ->
    keeps_positions (t_store st) (t_store st').
Proof.
  induction l as [|a l IH]; intros st st'; simpl.
  - intros [= <-]. apply keeps_positions_refl.
  - destruct (trav_step max_degree st a) as [st1|] eqn:E1; [|discriminate].
    cbn [mbind res_bind]. intros H.
    eapply keeps_positions_trans; [eapply trav_step_keeps, E1|exact (IH _ _ H)].
Qed.

Lemma child_idxs_inv (h : store) (cs : list (option tree)) :
  forall cis,
    map_res (child_idx h) (map (option_map root) cs) = Ok cis ->
    cis = map (slot_idx h) cs.
Proof.
  induction cs as [|[c|] cs IH]; intros cis; simpl.
  - now intros [= <-].
  - unfold get, idx_of. destruct (h !! root c) as [nd|]; [|discriminate].
    simpl. destruct (map_res _ _) as [cis'|]; [|discriminate]. simpl.
    intros [= <-]. f_equal. now apply IH.
  - destruct (map_res _ _) as [cis'|]; [|discriminate]. simpl.
    intros [= <-]. f_equal. now apply IH.
Qed.

Lemma assert_no_none_somes (l : list (option Z)) (l' : list Z) :
  assert_no_none l = Ok l' -> l = map Some l'.
Proof.
  unfold assert_no_none. destruct (mapM id l) as [k|] eqn:Hm; [|discriminate].
  intros [= <-]. apply mapM_Some in Hm.
  induction Hm as [|x y l k Hxy _ IH]; simpl; [reflexivity|].
  simpl in Hxy. now rewrite Hxy, IH.
Qed.

Lemma slot_idx_kept (h h' : store) (cs : list (option tree)) (l : list Z) :
  keeps_positions h h' ->
  map (slot_idx h) cs = map Some l -> l = map (slot_pos h') cs.
Proof.
  intros Hk. revert l. induction cs as [|s cs IH]; intros [|x l]; simpl;
    try discriminate; [reflexivity|].
  intros [= Hs Hl]. f_equal; [|now apply IH].
  destruct s as [c|]; simpl in Hs |- *; [|congruence].
  now rewrite (Hk _ _ Hs).
Qed.

(** The child entries of a row are the positions that the children hold in
    every later store. *)
Lemma child_idxs_content (h h' : store) (max_degree : option nat)
    (cs : list (option tree)) (cis : list (option Z)) (l : list Z) :
  map_res (child_idx h) (map (option_map root) cs) = Ok cis ->
  assert_no_none (pad max_degree cis) = Ok l ->
  keeps_positions h h' ->
  l = padded max_degree (map (slot_pos h') cs).
Proof.
  intros Hc Hl Hk. apply child_idxs_inv in Hc as ->.
  apply assert_no_none_somes in Hl. unfold pad, padded in *.
  rewrite !length_map in *. destruct max_degree as [d|].
  - assert (Hsplit : map (slot_idx h) cs = map Some (take (length cs) l)
                     /\ drop (length cs) l = replicate (d - length cs) (-1)).
    { rewrite <- (take_drop (length cs) l), map_app in Hl.
      apply app_inj_1 in Hl as [H1 H2].
      - split; [exact H1|]. revert H2. generalize (drop (length cs) l).
        generalize (d - length cs)%nat. clear.
        induction n as [|n IH]; intros [|x k]; simpl; try discriminate;
          [reflexivity|].
        intros [= <- H]. f_equal. now apply IH.
      - apply (f_equal (@length _)) in Hl.
        rewrite !length_app, !length_map, length_replicate in Hl.
        rewrite length_take, length_drop in Hl.
        rewrite !length_map, length_take. lia. }
    destruct Hsplit as [H1 H2].
    rewrite <- (take_drop (length cs) l), H2. f_equal.
    eapply slot_idx_kept; eassumption.
  - eapply slot_idx_kept; eassumption.
Qed.

Lemma trav_rows (max_degree : option nat) (h0 : store) (todo : list tree) :
  forall st st',
    same_struct h0 (t_store st) ->
    Forall (fun n => is_tree h0 n = true) todo ->
    NoDup (map root todo) ->
    Forall (pending st) todo ->
    for_each (trav_step max_degree) (map root todo) st = Ok st' ->
    t_tree st'
    = t_tree st ++ map (row_of (t_store st') max_degree)
                       (filter (fun n => innerb n = true) todo).
Proof.
  induction todo as [|n todo IH]; intros st st' Hs Hf Hnd Hpend H.
  - simpl in H. injection H as <-. simpl. now rewrite app_nil_r.
  - apply Forall_cons in Hf as [Ht Hf].
    apply Forall_cons in Hpend as [Hpn Hpend].
    simpl in Hnd. apply NoDup_cons in Hnd as [Hn Hnd].
    change (map root (n :: todo)) with (root n :: map root todo) in H.
    rewrite for_each_cons in H.
    destruct (trav_step max_degree st (root n)) as [st1|] eqn:E1;
      [|discriminate].
    cbn [mbind res_bind] in H.
    destruct (trav_step_inv _ _ _ _ E1) as (nd & Ha & Hcase).
    destruct (is_tree_get _ _ Ht) as (nd0 & Hg0 & _ & Hc0 & _).
    unfold get in Hg0. destruct (h0 !! root n) as [nd0'|] eqn:Ha0;
      [|discriminate].
    injection Hg0 as ->.
    destruct (same_struct_lookup _ _ _ _ Hs Ha0) as (nd' & Ha' & _ & Hc).
    rewrite Ha in Ha'. injection Ha' as <-.
    unfold pending, idx_of in Hpn. rewrite Ha in Hpn. simpl in Hpn.
    destruct (leafb n) eqn:El.
    + destruct Hpn as (i & Hi & _). rewrite Hi in Hcase. subst st1.
      rewrite filter_cons_False
        by (unfold innerb; rewrite El; simpl; congruence).
      exact (IH st st' Hs Hf Hnd Hpend H).
    + rewrite Hpn in Hcase. destruct Hcase as (cis & l & Ec & Ep & ->).
      rewrite filter_cons_True by (unfold innerb; now rewrite El).
      pose proof (trav_steps_keep _ _ _ _ H) as Hk1. simpl in Hk1.
      pose proof (trav_step_keeps _ _ _ _ E1) as Hk0. simpl in Hk0.
      match type of H with
      | for_each _ _ ?s = _ => rewrite (IH s st')
      end; [| | exact Hf | exact Hnd | | exact H].
      * simpl. rewrite <- app_assoc. simpl. f_equal. f_equal.
        unfold row_of, entries_of. f_equal.
        -- rewrite Hc, Hc0 in Ec.
           eapply (child_idxs_content (t_store st)); [exact Ec|exact Ep|].
           eapply keeps_positions_trans; eassumption.
        -- rewrite (Hk1 (root n) (t_idx st)); [reflexivity|].
           rewrite idx_of_insert. now destruct (decide (root n = root n)).
      * simpl. eapply same_struct_trans; [exact Hs|].
        now apply same_struct_set_idx.
      * rewrite Forall_forall in Hpend |- *. intros m Hm.
        specialize (Hpend m Hm). unfold pending in *. simpl.
        rewrite idx_of_insert.
        destruct (decide (root n = root m)) as [Heq|_].
        -- exfalso. apply Hn. rewrite Heq.
           apply list_elem_of_In, in_map, list_elem_of_In, Hm.
        -- destruct (leafb m); [|exact Hpend].
           destruct Hpend as (i & Hi & Hlt). exists i. split; [exact Hi|lia].
Qed.

End RowContent.

Section LinearizeRows.

(** Every row that the traversal of a tree builds is the row of its node in
    the store that the traversal returns: the positions of the children in
    the slots, -1 for an empty slot and for the padding, then the own
    position. *)
Lemma linearize_rows (fuel : nat) (max_degree : option nat) (t : tree)
    (h h1 h2 h3 : store) (vals ivals : list (option Z))
    (rows : list (list Z)) :
  is_tree h t = true -> NoDup (addrs t) -> (theight t <= fuel)%nat ->
  _clear_indices fuel (root t) h = Ok h1 ->
  _get_leaf_vals fuel (root t) h1 = Ok (vals, h2) ->
  _get_tree_traversal fuel (root t) (Z.of_nat (length vals)) max_degree h2
  = Ok (rows, ivals, h3) ->
  rows = map (row_of h3 max_degree) (inner_deepest_first t).
Proof.
  intros Ht Hnd Hf E1 E2 E3.
  destruct (clear_indices_tree t fuel h Ht Hf) as (h1' & E1' & Hs1 & Hc1 & Hf1).
  rewrite E1 in E1'. injection E1' as <-.
  assert (Ht1 : is_tree h1 t = true) by (eapply is_tree_same_struct; eassumption).
  destruct (get_leaf_vals_tree fuel t h1 Ht1 Hnd Hf) as (h2' & E2' & Hs2 & Hi2 & Hf2).
  rewrite E2 in E2'. injection E2' as -> <-.
  rewrite length_map in E3.
  set (leaves := leaves_deepest_first t) in *.
  assert (Ht2 : is_tree h2 t = true) by (eapply is_tree_same_struct; eassumption).
  destruct (is_tree_get _ _ Ht2) as (nd & Hg & _ & Hch & Hp & Hl & _).
  unfold _get_tree_traversal in E3. rewrite Hg in E3. cbn [mbind res_bind] in E3.
  rewrite Hch in E3.
  destruct (slots t) as [|s0 ss] eqn:Esl.
  - assert (Hleaf : leafb t = true) by (unfold leafb, kids; now rewrite Esl).
    simpl in E3. injection E3 as <- _ _.
    now rewrite (inner_of_leaf t Hleaf).
  - cbn [map] in E3.
    set (todo := concat (rev (levels t))).
    assert (Hperm : Permutation todo (nodes t)) by apply todo_perm.
    assert (Hall : Forall (fun n => is_tree h2 n = true) todo).
    { pose proof (leaves_forest h2 t Ht2 Hnd) as Hall.
      rewrite Forall_forall in Hall |- *. intros n Hn. apply Hall.
      now rewrite <- Hperm. }
    change [root t] with (map root [t]) in E3.
    rewrite (layers_loop_spec h2 fuel [t] []) in E3.
    2: { constructor; [exact Ht2|constructor]. }
    2: { unfold fheight. simpl. lia. }
    cbn [mbind res_bind app] in E3. rewrite flevels_tree in E3 by exact Hf.
    rewrite <- map_rev, for_each_concat, <- concat_map in E3.
    fold todo in E3.
    destruct (for_each (trav_step max_degree) (map root todo)
                (Trav [] [] (Z.of_nat (length leaves)) h2)) as [st'|] eqn:E;
      [|discriminate].
    cbn [mbind res_bind] in E3. injection E3 as <- _ <-.
    rewrite (trav_rows max_degree h2 todo
               (Trav [] [] (Z.of_nat (length leaves)) h2) st'
               (same_struct_refl h2) Hall); [| | |exact E].
    + simpl. unfold todo. rewrite filter_todo. reflexivity.
    + eapply NoDup_map_perm; [exact Hperm|exact Hnd].
    + rewrite Forall_forall. intros n Hn. rewrite Hperm in Hn.
      unfold pending. simpl. destruct (leafb n) eqn:El.
      * apply (arange_lookup (fun m => idx_of h2 (root m)) leaves n).
        -- rewrite <- Hi2. now rewrite map_map.
        -- apply elem_of_leaves. auto.
      * unfold idx_of. rewrite Hf2.
        -- apply Hc1. apply list_elem_of_In, in_map, list_elem_of_In, Hn.
        -- apply inner_not_leaf_root; auto. unfold innerb. now rewrite El.
Qed.

Lemma nodes_kids_closed (t n c : tree) :
  n ∈ nodes t -> c ∈ kids n -> c ∈ nodes t.
Proof.
  induction t as [t IH] using tree_kids_ind. intros Hn Hc.
  rewrite nodes_unfold in Hn |- *. apply elem_of_cons in Hn as [->|Hn].
  - right. apply list_elem_of_In, in_flat_map. exists c.
    split; [apply list_elem_of_In, Hc|].
    rewrite nodes_unfold. now left.
  - right. apply list_elem_of_In, in_flat_map in Hn as (k & Hk & Hn).
    apply list_elem_of_In, in_flat_map. exists k. split; [exact Hk|].
    apply list_elem_of_In. rewrite Forall_forall in IH.
    apply (IH k); [apply list_elem_of_In, Hk|apply list_elem_of_In, Hn|exact Hc].
Qed.

End LinearizeRows.

Section GenInputs.

Lemma assert_no_none_ok (l : list (option Z)) :
  forallb is_some l = true ->
  exists xs, assert_no_none l = Ok xs /\ map Some xs = l.
Proof.
  unfold assert_no_none. induction l as [|[x|] l IH]; simpl; intros H.
  - exists []. auto.
  - destruct (IH H) as (xs & E & Hx).
    destruct (mapM id l) as [l'|]; [|discriminate]. injection E as ->.
    exists (x :: xs). simpl. now rewrite Hx.
  - discriminate.
Qed.

Lemma int32_small (v : Z) : - 2 ^ 31 <= v < 2 ^ 31 -> int32 v = v.
Proof. intros H. unfold int32. rewrite Z.mod_small; lia. Qed.

Lemma in_int64_small (v : Z) : - 2 ^ 31 <= v < 2 ^ 31 -> in_int64 v = true.
Proof.
  intros H. unfold in_int64. apply andb_true_iff.
  split; [apply Z.leb_le|apply Z.ltb_lt]; lia.
Qed.

Lemma np_array1_ok (xs : list Z) :
  Forall (fun v => in_int64 v = true) xs ->
  np_array1 xs = Ok (map int32 xs).
Proof.
  unfold np_array1. induction 1 as [|v xs Hv _ IH]; [reflexivity|].
  cbn [map_res map].
  change (np_int32 v) with (if in_int64 v then Ok (int32 v) else Err OverflowError).
  rewrite Hv, IH. reflexivity.
Qed.

Lemma np_array1_inv (xs ys : list Z) :
  np_array1 xs = Ok ys ->
  ys = map int32 xs /\ Forall (fun v => in_int64 v = true) xs.
Proof.
  unfold np_array1. revert ys.
  induction xs as [|v xs IH]; intros ys; cbn [map_res map].
  - intros [= <-]. split; [reflexivity|constructor].
  - change (np_int32 v)
      with (if in_int64 v then Ok (int32 v) else Err OverflowError).
    destruct (in_int64 v) eqn:Hv; [|discriminate].
    cbn [mbind res_bind].
    destruct (map_res np_int32 xs) as [ys'|]; [|discriminate].
    cbn [mbind res_bind]. intros [= <-].
    destruct (IH ys' eq_refl) as [-> Hxs]. split; [reflexivity|].
    now constructor.
Qed.

Lemma np_array1_small (xs : list Z) :
  Forall (fun v => - 2 ^ 31 <= v < 2 ^ 31) xs -> np_array1 xs = Ok xs.
Proof.
  intros H. rewrite np_array1_ok.
  - f_equal. induction H as [|v xs Hv _ IH]; [reflexivity|].
    cbn [map]. now rewrite (int32_small v Hv), IH.
  - eapply Forall_impl; [exact H|]. intros v. apply in_int64_small.
Qed.

Lemma np_rows_small (rows : list (list Z)) :
  Forall (Forall (fun v => - 2 ^ 31 <= v < 2 ^ 31)) rows ->
  map_res np_array1 rows = Ok rows.
Proof.
  induction 1 as [|r rows Hr _ IH]; [reflexivity|].
  cbn [map_res]. now rewrite (np_array1_small r Hr), IH.
Qed.

Lemma np_array_uniform (k : nat) (rows : list (list Z)) :
  Forall (fun r => length r = k) rows ->
  Forall (Forall (fun v => - 2 ^ 31 <= v < 2 ^ 31)) rows ->
  exists arr, np_array rows = Ok arr /\ np_rows arr = rows.
Proof.
  intros H Hs. unfold np_array. rewrite (np_rows_small rows Hs).
  destruct rows as [|r rest].
  - exists (Array1 []). auto.
  - apply Forall_cons in H as [Hr H].
    replace (forallb (fun r' => (length r' =? length r)%nat) rest) with true.
    + eexists. split; reflexivity.
    + symmetry. apply forallb_forall. intros r' Hr'.
      rewrite Forall_forall in H. apply list_elem_of_In in Hr'.
      rewrite (H r' Hr'), Hr. apply Nat.eqb_refl.
Qed.

Lemma map_res_np_array1 (rows rows' : list (list Z)) :
  map_res np_array1 rows = Ok rows' -> rows' = map (map int32) rows.
Proof.
  revert rows'. induction rows as [|r rows IH]; intros rows'; cbn [map_res map].
  - now intros [= <-].
  - destruct (np_array1 r) as [r'|] eqn:Er; [|discriminate].
    cbn [mbind res_bind].
    destruct (map_res np_array1 rows) as [rs|]; [|discriminate].
    cbn [mbind res_bind]. intros [= <-].
    apply np_array1_inv in Er as [-> _]. now rewrite (IH rs eq_refl).
Qed.

(** The rows of the array are the converted rows of the list. *)
Lemma np_array_rows (rows : list (list Z)) (arr : ndarray) :
  np_array rows = Ok arr -> np_rows arr = map (map int32) rows.
Proof.
  unfold np_array. destruct rows as [|r rest]; [now intros [= <-]|].
  destruct (forallb _ rest); [|discriminate].
  destruct (map_res np_array1 (r :: rest)) as [rows'|] eqn:Er; [|discriminate].
  cbn [mbind res_bind]. intros [= <-]. cbn [np_rows].
  now apply map_res_np_array1.
Qed.

Lemma map_lookup {A B : Type} (f : A -> B) (l : list A) (k : nat) :
  map f l !! k = f <$> (l !! k).
Proof. change (map f l) with (f <$> l). apply list_lookup_fmap. Qed.

Lemma positions_lookup (h : store) (ns : list tree) (ps : list Z) (k : nat)
    (n : tree) :
  positions h (map root ns) = map Some ps -> ns !! k = Some n ->
  exists p, ps !! k = Some p /\ idx_of h (root n) = Some p.
Proof.
  intros E Hk. apply (f_equal (fun l => l !! k)) in E.
  unfold positions in E. rewrite !map_lookup, Hk in E. simpl in E.
  destruct (ps !! k) as [p|]; [|discriminate]. simpl in E.
  exists p. split; [reflexivity|congruence].
Qed.

Lemma filter_partition_length (l : list tree) :
  (length (filter (fun n => leafb n = true) l)
   + length (filter (fun n => innerb n = true) l) = length l)%nat.
Proof.
  induction l as [|n l IH]; [reflexivity|].
  rewrite !filter_cons.
  destruct (decide (leafb n = true)) as [El|El];
    destruct (decide (innerb n = true)) as [Ei|Ei]; simpl.
  - unfold innerb in Ei. rewrite El in Ei. discriminate.
  - lia.
  - lia.
  - exfalso. apply Ei. unfold innerb. now destruct (leafb n).
Qed.

Lemma length_leaves (t : tree) : length (leaves_deepest_first t) = n_leaves t.
Proof. unfold n_leaves. now rewrite leaves_perm. Qed.

Lemma length_inner (t : tree) :
  length (inner_deepest_first t) = (n_nodes t - n_leaves t)%nat.
Proof.
  rewrite inner_perm. unfold n_nodes, n_leaves.
  pose proof (filter_partition_length (nodes t)). lia.
Qed.

Lemma leaf_vals_present (t : tree) :
  leaf_vals_ok t = true ->
  forallb is_some (map tval (leaves_deepest_first t)) = true.
Proof.
  unfold leaf_vals_ok. rewrite !forallb_forall. intros H v Hv.
  apply in_map_iff in Hv as (n & <- & Hn).
  apply list_elem_of_In, elem_of_leaves in Hn as [Hn Hl].
  apply list_elem_of_In in Hn. specialize (H n Hn).
  unfold innerb in H. rewrite Hl in H. simpl in H.
  now rewrite orb_false_r in H.
Qed.

Lemma leaf_val_absent (t n : tree) :
  n ∈ nodes t -> leafb n = true -> tval n = None ->
  forallb is_some (map tval (leaves_deepest_first t)) = false.
Proof.
  intros Hn Hl Hv. apply not_true_is_false. rewrite forallb_forall. intros H.
  specialize (H (tval n)). rewrite Hv in H.
  assert (is_some (@None Z) = true) as Habs; [|discriminate].
  apply H. rewrite <- Hv. apply in_map, list_elem_of_In, elem_of_leaves. auto.
Qed.

Lemma row_lengths (max_degree : option nat) (inner : list tree)
    (rows : list (list Z)) :
  Forall2 (row_ok max_degree) inner rows ->
  forall r, r ∈ rows -> exists n, n ∈ inner /\ length r = row_len max_degree n.
Proof.
  induction 1 as [|n r inner rows [Hlen _] _ IH]; intros r' Hr'.
  - inversion Hr'.
  - apply elem_of_cons in Hr' as [->|Hr'].
    + exists n. split; [left|exact Hlen].
    + destruct (IH r' Hr') as (m & Hm & E). exists m. split; [now right|exact E].
Qed.

Lemma arity_uniform (max_degree : option nat) (t : tree) :
  arity_ok max_degree t = true ->
  exists k, (forall n, n ∈ inner_deepest_first t -> row_len max_degree n = k)
            /\ match max_degree with Some d => k = S d | None => True end.
Proof.
  unfold arity_ok. destruct max_degree as [d|].
  - intros H. exists (S d). split; [|reflexivity]. intros n Hn.
    apply elem_of_inner in Hn as [Hn Hi].
    rewrite forallb_forall in H. apply list_elem_of_In in Hn.
    specialize (H n Hn). unfold innerb in Hi.
    destruct (leafb n); [discriminate|]. simpl in H.
    apply Nat.leb_le in H. unfold row_len. lia.
  - destruct (filter (fun n => innerb n = true) (nodes t)) as [|m ms] eqn:E.
    + intros _. exists 0%nat. split; [|exact I]. intros n Hn.
      rewrite inner_perm, E in Hn. inversion Hn.
    + intros H. exists (S (length (slots m))). split; [|exact I]. intros n Hn.
      rewrite inner_perm, E in Hn. unfold row_len.
      apply elem_of_cons in Hn as [->|Hn]; [reflexivity|].
      rewrite forallb_forall in H. apply list_elem_of_In in Hn.
      specialize (H n Hn). apply Nat.eqb_eq in H. lia.
Qed.

(** Every node of a linearized tree holds a position below the number of
    nodes. *)
Lemma node_position (t : tree) (h3 : store) (rows : list (list Z)) :
  positions h3 (map root (leaves_deepest_first t))
  = map Some (arange (length (leaves_deepest_first t))) ->
  positions h3 (map root (inner_deepest_first t)) = map Some (map own rows) ->
  map own rows
  = map (fun k => Z.of_nat (length (leaves_deepest_first t)) + Z.of_nat k)
        (seq 0 (length (inner_deepest_first t))) ->
  forall n, n ∈ nodes t ->
    exists p, idx_of h3 (root n) = Some p /\ 0 <= p < Z.of_nat (n_nodes t).
Proof.
  intros Hpl Hpi Hown n Hn.
  assert (HN : n_nodes t = (length (leaves_deepest_first t)
                            + length (inner_deepest_first t))%nat).
  { rewrite length_leaves, length_inner. unfold n_nodes, n_leaves.
    pose proof (filter_partition_length (nodes t)). lia. }
  set (leaves := leaves_deepest_first t) in *.
  set (inner := inner_deepest_first t) in *.
  destruct (leafb n) eqn:El.
  - assert (Hin : n ∈ leaves) by (apply elem_of_leaves; auto).
    apply list_elem_of_lookup in Hin as [k Hk].
    destruct (positions_lookup _ _ _ _ _ Hpl Hk) as (p & Hp & Hi).
    unfold arange in Hp. rewrite map_lookup in Hp.
    assert (Hlt : (k < length leaves)%nat) by (eapply lookup_lt_Some; exact Hk).
    rewrite lookup_seq_lt in Hp by exact Hlt. simpl in Hp. injection Hp as <-.
    exists (Z.of_nat k). split; [exact Hi|lia].
  - assert (Hin : n ∈ inner)
      by (apply elem_of_inner; split; [exact Hn|unfold innerb; now rewrite El]).
    apply list_elem_of_lookup in Hin as [k Hk].
    destruct (positions_lookup _ _ _ _ _ Hpi Hk) as (p & Hp & Hi).
    rewrite Hown, map_lookup in Hp.
    assert (Hlt : (k < length inner)%nat) by (eapply lookup_lt_Some; exact Hk).
    rewrite lookup_seq_lt in Hp by exact Hlt. simpl in Hp. injection Hp as <-.
    eexists. split; [exact Hi|lia].
Qed.

(** The entries of the row of a node are -1 or positions. *)
Lemma row_of_small (t : tree) (h3 : store) (max_degree : option nat)
    (n : tree) :
  (forall m, m ∈ nodes t ->
     exists p, idx_of h3 (root m) = Some p /\ 0 <= p < Z.of_nat (n_nodes t)) ->
  Z.of_nat (n_nodes t) <= 2 ^ 31 ->
  n ∈ nodes t ->
  Forall (fun e => - 2 ^ 31 <= e < 2 ^ 31) (row_of h3 max_degree n).
Proof.
  intros Hpos HN Hn. unfold row_of, entries_of. apply Forall_app. split.
  - assert (Hs : Forall (fun e => - 2 ^ 31 <= e < 2 ^ 31)
                        (map (slot_pos h3) (slots n))).
    { apply Forall_forall. intros e He.
      apply list_elem_of_In, in_map_iff in He as (s & <- & Hs).
      destruct s as [c|]; simpl; [|lia].
      assert (Hc : c ∈ kids n).
      { unfold kids. apply list_elem_of_omap. exists (Some c).
        split; [apply list_elem_of_In, Hs|reflexivity]. }
      destruct (Hpos c (nodes_kids_closed t n c Hn Hc)) as (p & -> & Hp).
      simpl. lia. }
    unfold padded. destruct max_degree as [d|]; [|exact Hs].
    apply Forall_app. split; [exact Hs|].
    apply Forall_forall. intros e He. apply elem_of_replicate in He as [-> _].
    lia.
  - constructor; [|constructor].
    destruct (Hpos n Hn) as (p & -> & Hp). simpl. lia.
Qed.

(** The values that are converted, when they fit. *)
Lemma vals_fit (only_leaves_have_vals : bool) (t : tree) (xs : list Z) :
  vals_in_int64 only_leaves_have_vals t = true ->
  map Some xs
  = map tval (leaves_deepest_first t)
    ++ (if only_leaves_have_vals then []
        else map (fun n => Some (default (-1) (tval n)))
                 (inner_deepest_first t)) ->
  Forall (fun v => in_int64 v = true) xs.
Proof.
  intros Hv Hx. unfold vals_in_int64 in Hv. rewrite forallb_forall in Hv.
  apply Forall_forall. intros v Hin.
  assert (Hs : Some v ∈ map Some xs)
    by (apply list_elem_of_In, in_map, list_elem_of_In, Hin).
  rewrite Hx in Hs. apply elem_of_app in Hs as [Hs|Hs].
  - apply list_elem_of_In, in_map_iff in Hs as (n & Hn & Hl).
    apply list_elem_of_In, elem_of_leaves in Hl as [Hl El].
    apply list_elem_of_In in Hl. specialize (Hv n Hl).
    unfold innerb in Hv. rewrite El, Hn in Hv. exact Hv.
  - destruct only_leaves_have_vals; [inversion Hs|].
    apply list_elem_of_In, in_map_iff in Hs as (n & Hn & Hi).
    apply list_elem_of_In, elem_of_inner in Hi as [Hi _].
    apply list_elem_of_In in Hi. specialize (Hv n Hi).
    rewrite andb_false_r in Hv. simpl in Hv. now injection Hn as <-.
Qed.

Lemma map_Some_int32 (xs : list Z) (l1 l2 : list tree) :
  map Some xs
  = map tval l1 ++ map (fun n => Some (default (-1) (tval n))) l2 ->
  map Some (map int32 xs)
  = map (fun n => int32 <$> tval n) l1
    ++ map (fun n => Some (int32 (default (-1) (tval n)))) l2.
Proof.
  intros H.
  transitivity (map (fmap int32) (map Some xs)).
  { rewrite !map_map. reflexivity. }
  rewrite H, map_app, !map_map. reflexivity.
Qed.

(** [gen_nn_inputs] on a tree it accepts, when the values fit 64 bits and
    the positions 32. *)
Lemma gen_nn_inputs_tree (fuel : nat) (max_degree : option nat)
    (only_leaves_have_vals : bool) (t : tree) (h : store) :
  is_tree h t = true -> NoDup (addrs t) -> (theight t <= fuel)%nat ->
  leaf_vals_ok t = true -> arity_ok max_degree t = true ->
  vals_in_int64 only_leaves_have_vals t = true ->
  Z.of_nat (n_nodes t) <= 2 ^ 31 ->
  let leaves := leaves_deepest_first t in
  let inner := inner_deepest_first t in
  exists x tree h',
    gen_nn_inputs fuel (root t) max_degree only_leaves_have_vals h
    = Ok (x, tree, h')
    /\ map Some x
       = map (fun n => int32 <$> tval n) leaves
         ++ map (fun n => Some (int32 (default (-1) (tval n))))
                (if only_leaves_have_vals then [] else inner)
    /\ Forall2 (row_ok max_degree) inner (np_rows tree)
    /\ map own (np_rows tree)
       = map (fun k => Z.of_nat (length leaves) + Z.of_nat k)
             (seq 0 (length inner))
    /\ same_struct h h'
    /\ positions h' (map root leaves) = map Some (arange (length leaves))
    /\ positions h' (map root inner) = map Some (map own (np_rows tree))
    /\ (forall a, a ∉ addrs t -> h' !! a = h !! a)
    /\ np_rows tree = map (row_of h' max_degree) inner.
Proof.
  intros Ht Hnd Hf Hv Har Hfit HN leaves inner.
  destruct (linearize_tree fuel max_degree t h Ht Hnd Hf)
    as (h1 & h2 & h3 & rows & E1 & E2 & E3 & Hrows & Hown & Hs & Hpl & Hpi & Hfr).
  fold leaves in E2, E3, Hown, Hpl. fold inner in E3, Hrows, Hown, Hpi.
  assert (E3' := E3). rewrite <- (length_map tval leaves) in E3'.
  pose proof (linearize_rows fuel max_degree t h h1 h2 h3 _ _ rows
                Ht Hnd Hf E1 E2 E3') as Hcontent.
  fold inner in Hcontent.
  pose proof (leaf_vals_present t Hv) as Hlv. fold leaves in Hlv.
  destruct (arity_uniform max_degree t Har) as (k & Hk & Hkd).
  assert (Hlens : Forall (fun r => length r = k) rows).
  { apply Forall_forall. intros r Hr.
    destruct (row_lengths _ _ _ Hrows r Hr) as (n & Hn & ->). now apply Hk. }
  assert (Hsmall : Forall (Forall (fun v => - 2 ^ 31 <= v < 2 ^ 31)) rows).
  { rewrite Hcontent. apply Forall_forall. intros r Hr.
    apply list_elem_of_In, in_map_iff in Hr as (n & <- & Hn).
    apply list_elem_of_In, elem_of_inner in Hn as [Hn _].
    apply (row_of_small t); [|exact HN|exact Hn].
    now apply (node_position t h3 rows). }
  destruct (np_array_uniform k rows Hlens Hsmall) as (arr & Earr & Hnp).
  set (x0 := map tval leaves
             ++ (if only_leaves_have_vals then []
                 else map (fun n => Some (default (-1) (tval n))) inner)).
  assert (Hx0 : forallb is_some x0 = true).
  { unfold x0. rewrite forallb_app, Hlv. simpl.
    destruct only_leaves_have_vals; [reflexivity|].
    apply forallb_forall. intros v Hin.
    now apply in_map_iff in Hin as (n & <- & _). }
  destruct (assert_no_none_ok x0 Hx0) as (xs & Exs & Hxs).
  pose proof (vals_fit only_leaves_have_vals t xs Hfit Hxs) as Hin64.
  exists (map int32 xs), arr, h3.
  split.
  { unfold gen_nn_inputs. rewrite E1. cbn [mbind res_bind]. rewrite E2.
    cbn [mbind res_bind]. rewrite length_map.
    rewrite E3. cbn [mbind res_bind]. rewrite Hlv. cbn [assert mbind res_bind].
    assert (Einner : forallb is_some
              (map (fun n => Some (default (-1) (tval n))) inner) = true).
    { apply forallb_forall. intros v Hin.
      now apply in_map_iff in Hin as (n & <- & _). }
    assert (Earity : match max_degree with
                     | Some d => assert (forallb (fun t0 => (length t0 =? d + 1)%nat) rows)
                     | None => Ok tt
                     end = Ok tt).
    { destruct max_degree as [d|]; [|reflexivity].
      replace (forallb (fun t0 => (length t0 =? d + 1)%nat) rows) with true;
        [reflexivity|].
      symmetry. apply forallb_forall. intros r Hr.
      rewrite Forall_forall in Hlens. apply list_elem_of_In in Hr.
      rewrite (Hlens r Hr), Hkd. apply Nat.eqb_eq. lia. }
    destruct only_leaves_have_vals; cbn [negb mbind res_bind].
    - rewrite Earity. cbn [mbind res_bind]. unfold x0 in Exs.
      rewrite app_nil_r in Exs. rewrite Exs. cbn [mbind res_bind].
      rewrite (np_array1_ok xs Hin64). cbn [mbind res_bind].
      rewrite Earr. reflexivity.
    - rewrite Einner. cbn [assert mbind res_bind]. rewrite Earity.
      cbn [mbind res_bind]. unfold x0 in Exs.
      rewrite Exs. cbn [mbind res_bind].
      rewrite (np_array1_ok xs Hin64). cbn [mbind res_bind].
      rewrite Earr. reflexivity. }
  rewrite Hnp. split.
  { unfold x0 in Hxs. destruct only_leaves_have_vals.
    - apply (map_Some_int32 xs leaves []). exact Hxs.
    - apply (map_Some_int32 xs leaves inner). exact Hxs. }
  repeat split; auto.
Qed.

End GenInputs.

Section GenInputsFailures.

Lemma Forall2_elem_l {A B : Type} (R : A -> B -> Prop) (l : list A) (k : list B)
    (x : A) :
  Forall2 R l k -> x ∈ l -> exists y, y ∈ k /\ R x y.
Proof.
  induction 1 as [|a b l k Hab _ IH]; intros Hx; [inversion Hx|].
  apply elem_of_cons in Hx as [->|Hx].
  - exists b. split; [left|exact Hab].
  - destruct (IH Hx) as (y & Hy & Hr). exists y. split; [now right|exact Hr].
Qed.

Lemma length_kids (n : tree) : (length (kids n) <= length (slots n))%nat.
Proof.
  unfold kids. generalize (slots n). intros cs.
  induction cs as [|[c|] cs IH]; [simpl; lia| |].
  - change (omap id (Some c :: cs)) with (c :: omap id cs). simpl. lia.
  - change (omap id (None :: cs)) with (omap id cs). simpl. lia.
Qed.

Lemma gen_nn_inputs_leaf_absent (fuel : nat) (max_degree : option nat)
    (only_leaves_have_vals : bool) (t n : tree) (h : store) :
  is_tree h t = true -> NoDup (addrs t) -> (theight t <= fuel)%nat ->
  n ∈ nodes t -> leafb n = true -> tval n = None ->
  gen_nn_inputs fuel (root t) max_degree only_leaves_have_vals h
  = Err AssertionError.
Proof.
  intros Ht Hnd Hf Hn Hl Hv.
  destruct (linearize_tree fuel max_degree t h Ht Hnd Hf)
    as (h1 & h2 & h3 & rows & E1 & E2 & E3 & _).
  unfold gen_nn_inputs. rewrite E1. simpl. rewrite E2. simpl.
  rewrite length_map, E3. simpl.
  now rewrite (leaf_val_absent t n Hn Hl Hv).
Qed.

Lemma gen_nn_inputs_arity_exceeded (fuel d : nat)
    (only_leaves_have_vals : bool) (t n : tree) (h : store) :
  is_tree h t = true -> NoDup (addrs t) -> (theight t <= fuel)%nat ->
  n ∈ nodes t -> (d < length (kids n))%nat ->
  gen_nn_inputs fuel (root t) (Some d) only_leaves_have_vals h
  = Err AssertionError.
Proof.
  intros Ht Hnd Hf Hn Hd.
  destruct (linearize_tree fuel (Some d) t h Ht Hnd Hf)
    as (h1 & h2 & h3 & rows & E1 & E2 & E3 & Hrows & _).
  unfold gen_nn_inputs. rewrite E1. simpl. rewrite E2. simpl.
  rewrite length_map, E3. simpl.
  destruct (forallb is_some (map tval (leaves_deepest_first t)));
    [|reflexivity].
  simpl.
  assert (Einner : forallb is_some
            (map (fun n => Some (default (-1) (tval n)))
                 (inner_deepest_first t)) = true).
  { apply forallb_forall. intros v Hin.
    now apply in_map_iff in Hin as (m & <- & _). }
  assert (Hin : n ∈ inner_deepest_first t).
  { apply elem_of_inner. split; [exact Hn|].
    unfold innerb, leafb. destruct (kids n); [simpl in Hd; lia|reflexivity]. }
  destruct (Forall2_elem_l _ _ _ n Hrows Hin) as (r & Hr & Hlen & _).
  assert (Earity : forallb (fun t0 => (length t0 =? d + 1)%nat) rows = false).
  { apply not_true_is_false. rewrite forallb_forall. intros H.
    apply list_elem_of_In in Hr. specialize (H r Hr).
    apply Nat.eqb_eq in H. unfold row_len in Hlen.
    pose proof (length_kids n). lia. }
  destruct only_leaves_have_vals; simpl.
  - now rewrite Earity.
  - rewrite Einner. simpl. now rewrite Earity.
Qed.

Lemma inner_last (t : tree) :
  innerb t = true -> exists l, inner_deepest_first t = l ++ [t].
Proof.
  intros Hi. unfold inner_deepest_first, levels.
  rewrite theight_unfold. simpl.
  rewrite filter_cons_True by exact Hi. rewrite filter_nil.
  rewrite concat_app. simpl. eexists. reflexivity.
Qed.

Lemma last_map {A B : Type} (g : A -> B) (l : list A) (d : A) (d' : B) :
  l <> [] -> List.last (map g l) d' = g (List.last l d).
Proof.
  induction l as [|a l IH]; [congruence|]. intros _.
  destruct l as [|b l]; [reflexivity|].
  change (List.last (map g (a :: b :: l)) d') with (List.last (map g (b :: l)) d').
  change (List.last (a :: b :: l) d) with (List.last (b :: l) d).
  apply IH. congruence.
Qed.

End GenInputsFailures.

(** ** The cached aggregates under mutation *)

Section Update.
Variable depth : addr -> nat.



Lemma same_links_refl (h : store) : same_links h h.
Proof. intros a. reflexivity. Qed.


Lemma same_links_lookup (h h' : store) (a : addr) (nd : Node.t) :
  same_links h h' -> h !! a = Some nd ->
  exists nd', h' !! a = Some nd'
    /\ Node.children nd' = Node.children nd
    /\ Node.parent nd' = Node.parent nd.
Proof.
  intros Hs Ha. specialize (Hs a). rewrite Ha in Hs.
  destruct (h' !! a) as [nd'|]; [|discriminate].
  exists nd'. simpl in Hs. injection Hs as H1 H2. auto.
Qed.

Lemma same_links_sym (h h' : store) : same_links h h' -> same_links h' h.
Proof. intros H a. now rewrite H. Qed.



Lemma chain_same_links (h h' : store) (self a : addr) :
  same_links h h' -> on_parent_chain h self a -> on_parent_chain h' self a.
Proof.
  intros Hs. induction 1 as [self|self p a nd Hnd Hp _ IH].
  - constructor.
  - destruct (same_links_lookup _ _ _ _ Hs Hnd) as (nd' & Hnd' & _ & Hp').
    apply (chain_up h' self p a nd'); [exact Hnd'|congruence|exact IH].
Qed.







End Update.

Section Mutations.

Lemma res_bind_assoc {A B C : Type} (m : res A) (f : A -> res B) (g : B -> res C) :
  ((m ≫= f) ≫= g) = (m ≫= fun a => f a ≫= g).
Proof. now destruct m. Qed.

Lemma mutate_unfold (fuel : nat) (m : mutation) (h : store) :
  mutate fuel m h
  = (h1 ← set_links m h; NodeMethods._update fuel (target m) h1).
Proof.
  destruct m as [self child|self cs|self node|self node]; simpl;
    unfold NodeMethods.add_child, NodeMethods.add_children,
           NodeMethods.add_left, NodeMethods.add_right.
  - now rewrite res_bind_assoc.
  - now rewrite res_bind_assoc.
  - rewrite res_bind_assoc. destruct (get h self) as [nd|]; [|reflexivity].
    simpl. rewrite res_bind_assoc.
    destruct (NodeMethods.set_slot 0 node (NodeMethods.init_slots nd));
      reflexivity.
  - rewrite res_bind_assoc. destruct (get h self) as [nd|]; [|reflexivity].
    simpl. rewrite res_bind_assoc.
    destruct (NodeMethods.set_slot 1 node (NodeMethods.init_slots nd));
      reflexivity.
Qed.




End Mutations.




(** A child that is its own parent: [_update] does not return. *)
Example self_child_exhausts_fuel :
  NodeMethods.add_child 50 0%nat 0%nat four_nodes = Err OutOfFuel.
Proof. vm_compute. reflexivity. Qed.

(** ** The claims about the linearizer *)

Lemma distinct_nodup (t : tree) : distinct t = true -> NoDup (addrs t).
Proof. unfold distinct. apply bool_decide_eq_true. Qed.

Lemma arange_shift (a b s : nat) :
  map (fun k => Z.of_nat a + Z.of_nat k) (seq s b)
  = map Z.of_nat (seq (a + s) b).
Proof.
  revert s. induction b as [|b IH]; intros s; simpl; [reflexivity|].
  f_equal; [lia|]. rewrite IH. now rewrite Nat.add_succ_r.
Qed.

Lemma arange_app (a b : nat) :
  arange a ++ map (fun k => Z.of_nat a + Z.of_nat k) (seq 0 b) = arange (a + b).
Proof.
  unfold arange. rewrite seq_app, map_app, arange_shift.
  now rewrite Nat.add_0_r.
Qed.

(** C2 (as the code has it): for a root with the two leaves 3 and 7,
    linearization with [max_degree=2] gives the values [3; 7], held at the
    positions 0 and 1, and the single row [0; 1; 2]: the row has
    [max_degree + 1] entries and no padding. *)
Theorem two_leaves_linearization :
  exists (root_node : addr) (h h' : store),
    two_leaves None = Ok (root_node, h)
    /\ gen_nn_inputs 2 root_node (Some 2%nat) true h
       = Ok ([3; 7], Array2 3 [[0; 1; 2]], h')
    /\ positions h' [1%nat; 2%nat] = [Some 0; Some 1]
    /\ positions h' [root_node] = [Some 2].
Proof.
  eexists _, _, _. split; [vm_compute; reflexivity|].
  split; [vm_compute; reflexivity|]. split; vm_compute; reflexivity.
Qed.

(** C2 as stated fails: the row is not [0; 1; -1; 2]. *)
Lemma two_leaves_row_not_padded :
  exists (root_node : addr) (h : store) (x : list Z) (tree : ndarray) (h' : store),
    two_leaves None = Ok (root_node, h)
    /\ gen_nn_inputs 2 root_node (Some 2%nat) true h = Ok (x, tree, h')
    /\ np_rows tree <> [[0; 1; -1; 2]].
Proof.
  eexists _, _, _, _, _. split; [vm_compute; reflexivity|].
  split; [vm_compute; reflexivity|]. simpl. discriminate.
Qed.

(** C7: the values that [_get_leaf_vals] returns are those of the leaves
    taken deepest layer first and from left to right within a layer, the
    leaves hold the positions 0, 1, ... in that order, and this order is the
    reverse of the one in which a breadth-first traversal that pushes the
    children reversed meets the leaves. *)
Theorem leaf_values_deepest_first (fuel : nat) (t : tree) (h : store) :
  is_tree h t = true -> distinct t = true -> (theight t <= fuel)%nat ->
  exists h',
    _get_leaf_vals fuel (root t) h
    = Ok (map tval (leaves_deepest_first t), h')
    /\ positions h' (map root (leaves_deepest_first t))
       = map Some (arange (n_leaves t))
    /\ leaves_deepest_first t = rev (rleaves fuel [t]).
Proof.
  intros Ht Hd Hf. apply distinct_nodup in Hd.
  destruct (get_leaf_vals_tree fuel t h Ht Hd Hf) as (h' & E & _ & Hi & _).
  exists h'. split; [exact E|]. split.
  - unfold positions. now rewrite Hi, length_leaves.
  - symmetry. now apply rev_rleaves_tree.
Qed.

Lemma leaf_values_deepest_first_witness :
  exists h',
    _get_leaf_vals 2 (root (two_leaves_tree None)) (two_leaves_store None)
    = Ok (map tval (leaves_deepest_first (two_leaves_tree None)), h')
    /\ positions h' (map root (leaves_deepest_first (two_leaves_tree None)))
       = map Some (arange (n_leaves (two_leaves_tree None)))
    /\ leaves_deepest_first (two_leaves_tree None)
       = rev (rleaves 2 [two_leaves_tree None]).
Proof.
  apply (leaf_values_deepest_first 2 (two_leaves_tree None)
                                   (two_leaves_store None)).
  - vm_compute. reflexivity.
  - vm_compute. reflexivity.
  - simpl. lia.
Defined.

(** C5: on a tree with [N] nodes of which [L] are leaves, whose values fit
    64 bits and whose positions fit 32, the schedule of [gen_nn_inputs] has
    [N - L] rows; the positions of the leaves together with the own
    positions of the rows are 0, ..., [N - 1], each once; and the nodes hold
    these positions, each node one. *)
Theorem schedule_rows_cover_positions (fuel : nat) (max_degree : option nat)
    (only_leaves_have_vals : bool) (t : tree) (h : store) :
  is_tree h t = true -> distinct t = true -> (theight t <= fuel)%nat ->
  leaf_vals_ok t = true -> arity_ok max_degree t = true ->
  vals_in_int64 only_leaves_have_vals t = true -> positions_fit t = true ->
  exists x tree h',
    gen_nn_inputs fuel (root t) max_degree only_leaves_have_vals h
    = Ok (x, tree, h')
    /\ length (np_rows tree) = (n_nodes t - n_leaves t)%nat
    /\ Permutation
         (positions h' (map root (filter (fun n => leafb n = true) (nodes t)))
          ++ map Some (map own (np_rows tree)))
         (map Some (arange (n_nodes t)))
    /\ Permutation (positions h' (addrs t)) (map Some (arange (n_nodes t))).
Proof.
  intros Ht Hd Hf Hv Har Hfit Hsz. apply distinct_nodup in Hd.
  apply Z.leb_le in Hsz.
  destruct (gen_nn_inputs_tree fuel max_degree only_leaves_have_vals t h
              Ht Hd Hf Hv Har Hfit Hsz)
    as (x & tree & h' & E & _ & Hrows & Hown & _ & Hpl & Hpi & _).
  exists x, tree, h'. split; [exact E|].
  assert (Hlen : length (np_rows tree) = (n_nodes t - n_leaves t)%nat).
  { rewrite <- (Forall2_length _ _ _ Hrows). apply length_inner. }
  assert (HN : (n_leaves t + (n_nodes t - n_leaves t) = n_nodes t)%nat).
  { unfold n_nodes, n_leaves.
    pose proof (filter_partition_length (nodes t)). lia. }
  assert (Hleaves : Permutation
            (positions h' (map root (filter (fun n => leafb n = true) (nodes t))))
            (map Some (arange (n_leaves t)))).
  { rewrite <- length_leaves, <- Hpl. unfold positions.
    apply Permutation_map, Permutation_map. symmetry. apply leaves_perm. }
  assert (Hall : map Some (arange (n_leaves t)) ++ map Some (map own (np_rows tree))
                 = map Some (arange (n_nodes t))).
  { rewrite Hown, length_leaves, length_inner, <- map_app, arange_app.
    now rewrite HN. }
  split; [exact Hlen|]. split.
  - rewrite Hleaves. now rewrite Hall.
  - rewrite <- Hall, <- Hpi, <- Hleaves. unfold positions, addrs.
    rewrite <- map_app. apply Permutation_map. rewrite <- map_app.
    apply Permutation_map.
    rewrite inner_perm. symmetry.
    rewrite (list_filter_iff (fun n => innerb n = true)
                             (fun n => ~ leafb n = true)).
    + apply filter_app_complement.
    + intros n. unfold innerb. destruct (leafb n); simpl; split; congruence.
Qed.

Lemma schedule_rows_cover_positions_witness :
  exists x tree h',
    gen_nn_inputs 2 (root (two_leaves_tree None)) (Some 2%nat) true
                  (two_leaves_store None)
    = Ok (x, tree, h')
    /\ length (np_rows tree)
       = (n_nodes (two_leaves_tree None) - n_leaves (two_leaves_tree None))%nat
    /\ Permutation
         (positions h' (map root (filter (fun n => leafb n = true)
                                         (nodes (two_leaves_tree None))))
          ++ map Some (map own (np_rows tree)))
         (map Some (arange (n_nodes (two_leaves_tree None))))
    /\ Permutation (positions h' (addrs (two_leaves_tree None)))
                   (map Some (arange (n_nodes (two_leaves_tree None)))).
Proof.
  apply (schedule_rows_cover_positions 2 (Some 2%nat) true
           (two_leaves_tree None) (two_leaves_store None)).
  - vm_compute. reflexivity.
  - vm_compute. reflexivity.
  - simpl. lia.
  - vm_compute. reflexivity.
  - vm_compute. reflexivity.
  - vm_compute. reflexivity.
  - vm_compute. reflexivity.
Defined.

Lemma rows_of_nodes (h' : store) (max_degree : option nat)
    (inner : list tree) :
  Forall2 (row_ok max_degree) inner (map (row_of h' max_degree) inner) ->
  positions h' (map root inner)
  = map Some (map own (map (row_of h' max_degree) inner)) ->
  Forall2 (fun n row =>
             row = row_of h' max_degree n
             /\ idx_of h' (root n) = Some (own row)
             /\ Forall (fun c => c = -1 \/ c < own row) (child_slots row))
          inner (map (row_of h' max_degree) inner).
Proof.
  induction inner as [|n inner IH]; intros Hrows Hpi; [constructor|].
  cbn [map] in Hrows, Hpi |- *.
  apply Forall2_cons in Hrows as [[_ Hr] Hrows].
  unfold positions in Hpi. cbn [map] in Hpi. injection Hpi as Hi Hpi.
  constructor; [|now apply IH]. auto.
Qed.

(** C6: the schedule of [gen_nn_inputs] on a tree whose values fit 64 bits
    and whose positions fit 32 has one row for each internal node, from the
    deepest layer to the root; the row of a node holds the positions of the
    children in its slots and then the position of the node; every child
    position of every row is -1 or below the row's own position; and when
    the root has a child, the last row is the root's and its own position
    is the position the root holds. *)
Theorem schedule_children_below_parent (fuel : nat) (max_degree : option nat)
    (only_leaves_have_vals : bool) (t : tree) (h : store) :
  is_tree h t = true -> distinct t = true -> (theight t <= fuel)%nat ->
  leaf_vals_ok t = true -> arity_ok max_degree t = true ->
  vals_in_int64 only_leaves_have_vals t = true -> positions_fit t = true ->
  exists x tree h',
    gen_nn_inputs fuel (root t) max_degree only_leaves_have_vals h
    = Ok (x, tree, h')
    /\ Forall2 (fun n row =>
                  row = row_of h' max_degree n
                  /\ idx_of h' (root n) = Some (own row)
                  /\ Forall (fun c => c = -1 \/ c < own row) (child_slots row))
               (inner_deepest_first t) (np_rows tree)
    /\ (innerb t = true ->
        exists rows last_row,
          np_rows tree = rows ++ [last_row]
          /\ idx_of h' (root t) = Some (own last_row)).
Proof.
  intros Ht Hd Hf Hv Har Hfit Hsz. apply distinct_nodup in Hd.
  apply Z.leb_le in Hsz.
  destruct (gen_nn_inputs_tree fuel max_degree only_leaves_have_vals t h
              Ht Hd Hf Hv Har Hfit Hsz)
    as (x & tree & h' & E & _ & Hrows & _ & _ & _ & Hpi & _ & Hcontent).
  exists x, tree, h'. split; [exact E|].
  rewrite Hcontent in Hrows, Hpi |- *.
  pose proof (rows_of_nodes h' max_degree _ Hrows Hpi) as Hall.
  split; [exact Hall|].
  intros Hi. destruct (inner_last t Hi) as (l & El). rewrite El in Hall |- *.
  rewrite map_app. cbn [map].
  exists (map (row_of h' max_degree) l), (row_of h' max_degree t).
  split; [reflexivity|].
  rewrite map_app in Hall. cbn [map] in Hall.
  apply Forall2_app_inv in Hall as [_ Hlast];
    [|now rewrite length_map].
  apply Forall2_cons in Hlast as [(_ & Hidx & _) _]. exact Hidx.
Qed.

Lemma schedule_children_below_parent_witness :
  exists x tree h',
    gen_nn_inputs 2 (root (two_leaves_tree None)) (Some 2%nat) true
                  (two_leaves_store None)
    = Ok (x, tree, h')
    /\ Forall2 (fun n row =>
                  row = row_of h' (Some 2%nat) n
                  /\ idx_of h' (root n) = Some (own row)
                  /\ Forall (fun c => c = -1 \/ c < own row) (child_slots row))
               (inner_deepest_first (two_leaves_tree None)) (np_rows tree)
    /\ (innerb (two_leaves_tree None) = true ->
        exists rows last_row,
          np_rows tree = rows ++ [last_row]
          /\ idx_of h' (root (two_leaves_tree None)) = Some (own last_row)).
Proof.
  apply (schedule_children_below_parent 2 (Some 2%nat) true
           (two_leaves_tree None) (two_leaves_store None)).
  - vm_compute. reflexivity.
  - vm_compute. reflexivity.
  - simpl. lia.
  - vm_compute. reflexivity.
  - vm_compute. reflexivity.
  - vm_compute. reflexivity.
  - vm_compute. reflexivity.
Defined.

(** C10 (as the code has it): [gen_nn_inputs] raises [AssertionError] on a
    tree with a leaf whose value is absent, and when [max_degree] is given
    and a node has more children than that; with [only_leaves_have_vals]
    false, on a tree it accepts whose values fit 64 bits and whose positions
    fit 32, it returns, and the value sequence holds the values of the
    leaves and then those of the internal nodes, with -1 for each internal
    node without a value. *)
Theorem gen_nn_inputs_failures (fuel : nat) (max_degree : option nat)
    (t : tree) (h : store) :
  is_tree h t = true -> distinct t = true -> (theight t <= fuel)%nat ->
  ((exists n, n ∈ nodes t /\ leafb n = true /\ tval n = None) ->
   forall only_leaves_have_vals,
     gen_nn_inputs fuel (root t) max_degree only_leaves_have_vals h
     = Err AssertionError)
  /\ (forall d, max_degree = Some d ->
      (exists n, n ∈ nodes t /\ (d < length (kids n))%nat) ->
      forall only_leaves_have_vals,
        gen_nn_inputs fuel (root t) max_degree only_leaves_have_vals h
        = Err AssertionError)
  /\ (leaf_vals_ok t = true -> arity_ok max_degree t = true ->
      vals_in_int64 false t = true -> positions_fit t = true ->
      exists x tree h',
        gen_nn_inputs fuel (root t) max_degree false h = Ok (x, tree, h')
        /\ map Some x
           = map (fun n => int32 <$> tval n) (leaves_deepest_first t)
             ++ map (fun n => Some (int32 (default (-1) (tval n))))
                    (inner_deepest_first t)
        /\ forall (k : nat) n,
             inner_deepest_first t !! k = Some n -> tval n = None ->
             x !! (n_leaves t + k)%nat = Some (-1)).
Proof.
  intros Ht Hd Hf. apply distinct_nodup in Hd. split; [|split].
  - intros (n & Hn & Hl & Hv) olhv.
    now apply (gen_nn_inputs_leaf_absent fuel max_degree olhv t n).
  - intros d -> (n & Hn & Hlt) olhv.
    now apply (gen_nn_inputs_arity_exceeded fuel d olhv t n).
  - intros Hv Har Hfit Hsz. apply Z.leb_le in Hsz.
    destruct (gen_nn_inputs_tree fuel max_degree false t h Ht Hd Hf Hv Har
                Hfit Hsz)
      as (x & tree & h' & E & Hx & _).
    exists x, tree, h'. split; [exact E|]. split; [exact Hx|].
    intros k n Hk Hn.
    apply (f_equal (fun l => l !! (n_leaves t + k)%nat)) in Hx.
    rewrite map_lookup in Hx.
    rewrite lookup_app_r in Hx by (rewrite length_map, length_leaves; lia).
    rewrite length_map, length_leaves in Hx.
    replace (n_leaves t + k - n_leaves t)%nat with k in Hx by lia.
    rewrite map_lookup, Hk in Hx. cbn [fmap option_fmap option_map] in Hx.
    rewrite Hn in Hx. cbn in Hx.
    destruct (x !! (n_leaves t + k)%nat) as [v|]; [|discriminate].
    cbn in Hx. now injection Hx as ->.
Qed.

Lemma gen_nn_inputs_failures_witness :
  (forall only_leaves_have_vals,
     gen_nn_inputs 1 (root lone_leaf) (Some 2%nat) only_leaves_have_vals
                   lone_leaf_store
     = Err AssertionError)
  /\ (forall only_leaves_have_vals,
        gen_nn_inputs 2 (root (two_leaves_tree None)) (Some 1%nat)
                      only_leaves_have_vals (two_leaves_store None)
        = Err AssertionError)
  /\ (exists x tree h',
        gen_nn_inputs 2 (root (two_leaves_tree None)) (Some 2%nat) false
                      (two_leaves_store None)
        = Ok (x, tree, h')
        /\ map Some x
           = map (fun n => int32 <$> tval n)
                 (leaves_deepest_first (two_leaves_tree None))
             ++ map (fun n => Some (int32 (default (-1) (tval n))))
                    (inner_deepest_first (two_leaves_tree None))
        /\ forall (k : nat) n,
             inner_deepest_first (two_leaves_tree None) !! k = Some n ->
             tval n = None ->
             x !! (n_leaves (two_leaves_tree None) + k)%nat = Some (-1)).
Proof.
  split; [|split].
  - apply (gen_nn_inputs_failures 1 (Some 2%nat) lone_leaf lone_leaf_store).
    + vm_compute. reflexivity.
    + vm_compute. reflexivity.
    + simpl. lia.
    + exists lone_leaf. split; [left|]. split; reflexivity.
  - apply (gen_nn_inputs_failures 2 (Some 1%nat) (two_leaves_tree None)
             (two_leaves_store None)) with (d := 1%nat).
    + vm_compute. reflexivity.
    + vm_compute. reflexivity.
    + simpl. lia.
    + reflexivity.
    + exists (two_leaves_tree None). split; [left|]. simpl. lia.
  - apply (gen_nn_inputs_failures 2 (Some 2%nat) (two_leaves_tree None)
             (two_leaves_store None)).
    + vm_compute. reflexivity.
    + vm_compute. reflexivity.
    + simpl. lia.
    + vm_compute. reflexivity.
    + vm_compute. reflexivity.
    + vm_compute. reflexivity.
    + vm_compute. reflexivity.
Defined.

(** C10 as stated fails: the root of this tree is an internal node without
    a value, [only_leaves_have_vals] is false, and [gen_nn_inputs] returns,
    with -1 for the root. *)
Lemma absent_internal_value_accepted :
  innerb (two_leaves_tree None) = true
  /\ tval (two_leaves_tree None) = None
  /\ is_tree (two_leaves_store None) (two_leaves_tree None) = true
  /\ exists h',
       gen_nn_inputs 2 (root (two_leaves_tree None)) (Some 2%nat) false
                     (two_leaves_store None)
       = Ok ([3; 7; -1], Array2 3 [[0; 1; 2]], h').
Proof.
  split; [reflexivity|]. split; [reflexivity|].
  split; [vm_compute; reflexivity|].
  eexists. vm_compute. reflexivity.
Qed.

(** ** Further properties of the tree structure *)

Section UpdateFrame.

Lemma same_but_aggregates_refl (h : store) : same_but_aggregates h h.
Proof. intros a. reflexivity. Qed.

Lemma same_but_aggregates_trans (h1 h2 h3 : store) :
  same_but_aggregates h1 h2 -> same_but_aggregates h2 h3 ->
  same_but_aggregates h1 h3.
Proof. intros H12 H23 a. now rewrite H12. Qed.

Lemma same_but_aggregates_insert (h : store) (a : addr) (nd : Node.t)
    (hg sz nl : Z) :
  h !! a = Some nd ->
  same_but_aggregates h (<[a := Node.set_aggregates hg sz nl nd]> h).
Proof.
  intros Ha b. destruct (decide (a = b)) as [<-|Hne].
  - now rewrite lookup_insert_eq, Ha.
  - now rewrite lookup_insert_ne.
Qed.

Lemma same_but_aggregates_lookup (h h' : store) (a : addr) (nd : Node.t) :
  same_but_aggregates h h' -> h !! a = Some nd ->
  exists nd', h' !! a = Some nd'
    /\ Node.children nd' = Node.children nd
    /\ Node.parent nd' = Node.parent nd
    /\ payload nd' = payload nd.
Proof.
  intros Hs Ha. specialize (Hs a). rewrite Ha in Hs.
  destruct (h' !! a) as [nd'|]; [|discriminate].
  exists nd'. split; [reflexivity|]. simpl in Hs.
  destruct nd, nd'. unfold strip, Node.set_aggregates, payload in *.
  simpl in *. inversion Hs; subst. auto.
Qed.

Lemma same_but_aggregates_links (h h' : store) :
  same_but_aggregates h h' -> same_links h h'.
Proof.
  intros Hs a. destruct (h !! a) as [nd|] eqn:Ha.
  - destruct (same_but_aggregates_lookup _ _ _ _ Hs Ha) as (nd' & -> & Hc & Hp & _).
    simpl. unfold links. now rewrite Hc, Hp.
  - specialize (Hs a). rewrite Ha in Hs. now destruct (h' !! a).
Qed.

(** Whenever [_update] returns, it has changed aggregates only, and only
    those of [self] and of its ancestors. *)
Lemma update_frame (fuel : nat) :
  forall (self : addr) (h h' : store),
    NodeMethods._update fuel self h = Ok h' ->
    same_but_aggregates h h'
    /\ forall a, ~ on_parent_chain h self a -> h' !! a = h !! a.
Proof.
  induction fuel as [|fuel IH]; intros self h h' E; [discriminate|].
  cbn [NodeMethods._update] in E.
  destruct (get h self) as [nd|] eqn:Eg; [|discriminate]. simpl in E.
  destruct (map_res (get h) (present (Node.children nd))) as [ks|]; [|discriminate].
  simpl in E. unfold NodeMethods.aggregates in E.
  unfold get in Eg. destruct (h !! self) as [nd0|] eqn:Hnd; [|discriminate].
  injection Eg as ->.
  set (nd' := Node.set_aggregates _ _ _ nd) in E.
  assert (Hs1 : same_but_aggregates h (<[self := nd']> h))
    by (apply same_but_aggregates_insert; exact Hnd).
  change (Node.parent nd') with (Node.parent nd) in E.
  destruct (Node.parent nd) as [p|] eqn:Ep.
  - destruct (IH p _ h' E) as [Hs Hfr]. split.
    + eapply same_but_aggregates_trans; eassumption.
    + intros a Ha.
      assert (a <> self) by (intros ->; apply Ha; constructor).
      rewrite Hfr.
      * now rewrite lookup_insert_ne.
      * intros Hc. apply Ha. apply (chain_up h self p a nd Hnd Ep).
        eapply chain_same_links; [|exact Hc].
        apply same_links_sym, same_but_aggregates_links, Hs1.
  - injection E as <-. split; [exact Hs1|].
    intros a Ha. rewrite lookup_insert_ne; [reflexivity|].
    intros ->. apply Ha. constructor.
Qed.

Lemma modify_lookup (f : Node.t -> Node.t) (a : addr) (h h' : store) :
  modify f a h = Ok h' ->
  exists nd, h !! a = Some nd /\ h' = <[a := f nd]> h.
Proof.
  unfold modify, get. destruct (h !! a) as [nd|]; [|discriminate].
  simpl. intros [= <-]. eauto.
Qed.

End UpdateFrame.

Section Slots.

Lemma py_index_0 {A : Type} (x : A) (l : list A) : py_index (x :: l) 0 = Ok x.
Proof.
  unfold py_index. simpl length.
  replace (0 <? 0) with false by reflexivity.
  replace ((0 <=? 0) && (0 <? Z.of_nat (S (length l)))) with true; [reflexivity|].
  symmetry. apply andb_true_iff. split; [reflexivity|]. apply Z.ltb_lt. lia.
Qed.

Lemma py_index_1 {A : Type} (x : A) (l : list A) :
  py_index (x :: l) 1
  = match l with [] => Err IndexError | y :: _ => Ok y end.
Proof.
  unfold py_index. replace (1 <? 0) with false by reflexivity.
  destruct l as [|y l].
  - reflexivity.
  - replace ((0 <=? 1) && (1 <? Z.of_nat (length (x :: y :: l)))) with true;
      [reflexivity|].
    symmetry. apply andb_true_iff. split; [reflexivity|].
    apply Z.ltb_lt. simpl length. lia.
Qed.

(** The slots of [self] after [self.children[i] = node] and the rest of a
    binary mutation. *)
Lemma binary_slots (fuel i : nat) (self node : addr) (h h' : store) :
  (nd ← get h self;
   nd ← NodeMethods.set_slot i node (NodeMethods.init_slots nd);
   h ← modify (Node.set_parent (Some self)) node (<[self := nd]> h);
   NodeMethods._update fuel self h) = Ok h' ->
  exists nd nd',
    h !! self = Some nd /\ h' !! self = Some nd'
    /\ (i < length (Node.children (NodeMethods.init_slots nd)))%nat
    /\ Node.children nd'
       = <[i := Some node]> (Node.children (NodeMethods.init_slots nd)).
Proof.
  intros E. unfold get in E at 1.
  destruct (h !! self) as [nd|] eqn:Hnd; [|discriminate]. simpl in E.
  unfold NodeMethods.set_slot in E.
  destruct (i <? length (Node.children (NodeMethods.init_slots nd)))%nat eqn:Hi;
    [|discriminate].
  simpl in E.
  set (nd1 := Node.set_children _ _) in E.
  destruct (modify (Node.set_parent (Some self)) node (<[self := nd1]> h))
    as [h2|] eqn:E2; [|discriminate].
  simpl in E. destruct (update_frame fuel self h2 h' E) as [Hs _].
  apply modify_lookup in E2 as (ndn & Hn & ->).
  assert (H2 : exists nd2, (<[node := Node.set_parent (Some self) ndn]>
                              (<[self := nd1]> h)) !! self = Some nd2
                           /\ Node.children nd2 = Node.children nd1).
  { destruct (decide (node = self)) as [->|Hne].
    - rewrite lookup_insert_eq in Hn. injection Hn as <-.
      rewrite lookup_insert_eq. eauto.
    - rewrite lookup_insert_ne by exact Hne. rewrite lookup_insert_eq. eauto. }
  destruct H2 as (nd2 & H2 & Hc2).
  destruct (same_but_aggregates_lookup _ _ _ _ Hs H2) as (nd' & H' & Hc' & _).
  exists nd, nd'. split; [reflexivity|]. split; [exact H'|].
  split; [now apply Nat.ltb_lt|]. now rewrite Hc', Hc2.
Qed.

End Slots.

(** X1: once [add_left] has returned, [get_left] returns the node that was
    added, and [get_right] returns what it returned before. *)
Theorem add_left_then_get (fuel : nat) (self node : addr) (h h' : store) :
  NodeMethods.add_left fuel self node h = Ok h' ->
  get_left h' self = Ok (Some node)
  /\ get_right h' self = get_right h self.
Proof.
  intros E. apply binary_slots in E as (nd & nd' & Hnd & Hnd' & Hi & Hc).
  unfold get_left, get_right, get. rewrite Hnd, Hnd'.
  cbn [mbind res_bind]. rewrite Hc.
  unfold NodeMethods.init_slots in *.
  destruct (Node.children nd) as [|c cs] eqn:Ec.
  - change (<[0%nat := Some node]> (Node.children (Node.set_children [None; None] nd)))
      with [Some node; None].
    rewrite py_index_0, py_index_1. auto.
  - change (<[0%nat := Some node]> (Node.children nd)) with
      (<[0%nat := Some node]> (Node.children nd)).
    rewrite Ec.
    change (<[0%nat := Some node]> (c :: cs)) with (Some node :: cs).
    rewrite py_index_0, !py_index_1. auto.
Qed.

Lemma add_left_then_get_witness :
  get_left left_store 0%nat = Ok (Some 1%nat)
  /\ get_right left_store 0%nat = get_right three_nodes 0%nat.
Proof.
  apply (add_left_then_get 3 0%nat 1%nat three_nodes left_store).
  vm_compute. reflexivity.
Defined.

(** X2: once [add_right] has returned, [get_right] returns the node that was
    added, and [get_left] returns what it returned before. *)
Theorem add_right_then_get (fuel : nat) (self node : addr) (h h' : store) :
  NodeMethods.add_right fuel self node h = Ok h' ->
  get_right h' self = Ok (Some node)
  /\ get_left h' self = get_left h self.
Proof.
  intros E. apply binary_slots in E as (nd & nd' & Hnd & Hnd' & Hi & Hc).
  unfold get_left, get_right, get. rewrite Hnd, Hnd'.
  cbn [mbind res_bind]. rewrite Hc.
  unfold NodeMethods.init_slots in *.
  destruct (Node.children nd) as [|c cs] eqn:Ec.
  - change (<[1%nat := Some node]> (Node.children (Node.set_children [None; None] nd)))
      with [None; Some node].
    rewrite py_index_0, py_index_1. auto.
  - rewrite Ec in Hi |- *. destruct cs as [|c' cs]; [simpl in Hi; lia|].
    change (<[1%nat := Some node]> (c :: c' :: cs)) with (c :: Some node :: cs).
    rewrite !py_index_0, !py_index_1. auto.
Qed.

Lemma add_right_then_get_witness :
  get_right right_store 0%nat = Ok (Some 1%nat)
  /\ get_left right_store 0%nat = get_left three_nodes 0%nat.
Proof.
  apply (add_right_then_get 3 0%nat 1%nat three_nodes right_store).
  vm_compute. reflexivity.
Defined.

(** X3: on an object with a single slot, as [add_child] leaves it,
    [add_right] and [get_right] raise [IndexError]. *)
Theorem add_right_one_slot_raises (fuel : nat) (self node : addr) (h : store)
    (nd : Node.t) :
  h !! self = Some nd -> length (Node.children nd) = 1%nat ->
  NodeMethods.add_right fuel self node h = Err IndexError
  /\ get_right h self = Err IndexError.
Proof.
  intros Hnd Hlen. unfold NodeMethods.add_right, get_right, get. rewrite Hnd.
  cbn [mbind res_bind]. unfold NodeMethods.set_slot, NodeMethods.init_slots.
  destruct (Node.children nd) as [|c [|c' cs]] eqn:Ec; try discriminate.
  rewrite Ec. split; [reflexivity|]. now rewrite py_index_1.
Qed.

Lemma add_right_one_slot_raises_witness :
  NodeMethods.add_right 3 0%nat 2%nat one_slot_store = Err IndexError
  /\ get_right one_slot_store 0%nat = Err IndexError.
Proof.
  apply (add_right_one_slot_raises 3 0%nat 2%nat one_slot_store
           (Node.mk [Some 1%nat] None None 2 2 1 None None)).
  - vm_compute. reflexivity.
  - reflexivity.
Defined.

Section LinkSteps.

Lemma modify_unlinked (f : Node.t -> Node.t) (a : addr) (h h' : store) :
  (forall nd, unlinked (f nd) = unlinked nd) ->
  modify f a h = Ok h' ->
  forall b, unlinked <$> (h' !! b) = unlinked <$> (h !! b).
Proof.
  intros Hf E b. apply modify_lookup in E as (nd & Hnd & ->).
  destruct (decide (a = b)) as [<-|Hne].
  - rewrite lookup_insert_eq, Hnd. simpl. now rewrite Hf.
  - now rewrite lookup_insert_ne.
Qed.

Lemma set_parents_unlinked (self : addr) (cs : list addr) :
  forall h h',
    for_each (fun h child => modify (Node.set_parent (Some self)) child h) cs h
    = Ok h' ->
    forall b, unlinked <$> (h' !! b) = unlinked <$> (h !! b).
Proof.
  induction cs as [|c cs IH]; intros h h' E b; simpl in E.
  - now injection E as <-.
  - destruct (modify (Node.set_parent (Some self)) c h) as [h1|] eqn:E1;
      [|discriminate].
    simpl in E. rewrite (IH h1 h' E b).
    eapply modify_unlinked; [|exact E1]. intros nd. reflexivity.
Qed.

Lemma set_slot_unlinked (i : nat) (node : addr) (nd nd' : Node.t) :
  NodeMethods.set_slot i node (NodeMethods.init_slots nd) = Ok nd' ->
  unlinked nd' = unlinked nd.
Proof.
  unfold NodeMethods.set_slot, NodeMethods.init_slots.
  destruct (Node.children nd);
    match goal with |- context [(?a <? ?b)%nat] => destruct (a <? b)%nat end;
    intros [= <-]; reflexivity.
Qed.

Lemma set_links_unlinked (m : mutation) (h h1 : store) :
  set_links m h = Ok h1 ->
  forall b, unlinked <$> (h1 !! b) = unlinked <$> (h !! b).
Proof.
  destruct m as [self child|self cs|self node|self node]; simpl; intros E b.
  - destruct (modify _ self h) as [h0|] eqn:E0; [|discriminate]. simpl in E.
    transitivity (unlinked <$> (h0 !! b)).
    + eapply modify_unlinked; [|exact E]. intros nd. reflexivity.
    + eapply modify_unlinked; [|exact E0]. intros nd. reflexivity.
  - destruct (modify _ self h) as [h0|] eqn:E0; [|discriminate]. simpl in E.
    rewrite (set_parents_unlinked _ _ _ _ E b).
    eapply modify_unlinked; [|exact E0]. intros nd. reflexivity.
  - unfold get in E. destruct (h !! self) as [nd|] eqn:Hnd; [|discriminate].
    simpl in E.
    destruct (NodeMethods.set_slot 0 node (NodeMethods.init_slots nd))
      as [nd'|] eqn:Es; [|discriminate].
    simpl in E. transitivity (unlinked <$> (<[self := nd']> h !! b)).
    { eapply modify_unlinked; [|exact E]. intros nd0. reflexivity. }
    destruct (decide (self = b)) as [<-|Hne].
    + rewrite lookup_insert_eq, Hnd. simpl. f_equal.
      now apply (set_slot_unlinked 0 node).
    + now rewrite lookup_insert_ne.
  - unfold get in E. destruct (h !! self) as [nd|] eqn:Hnd; [|discriminate].
    simpl in E.
    destruct (NodeMethods.set_slot 1 node (NodeMethods.init_slots nd))
      as [nd'|] eqn:Es; [|discriminate].
    simpl in E. transitivity (unlinked <$> (<[self := nd']> h !! b)).
    { eapply modify_unlinked; [|exact E]. intros nd0. reflexivity. }
    destruct (decide (self = b)) as [<-|Hne].
    + rewrite lookup_insert_eq, Hnd. simpl. f_equal.
      now apply (set_slot_unlinked 1 node).
    + now rewrite lookup_insert_ne.
Qed.

End LinkSteps.

(** X4: a mutation that returns has changed no value, position or label,
    and has changed the aggregates of the mutated object and of its
    ancestors only. *)
Theorem mutation_touches_chain_only (fuel : nat) (m : mutation) (h h' : store) :
  mutate fuel m h = Ok h' ->
  (forall a, payload <$> (h' !! a) = payload <$> (h !! a))
  /\ (forall a, ~ on_parent_chain h' (target m) a ->
                aggregates_of <$> (h' !! a) = aggregates_of <$> (h !! a)).
Proof.
  rewrite mutate_unfold. intros E.
  destruct (set_links m h) as [h1|] eqn:El; [|discriminate]. simpl in E.
  destruct (update_frame fuel (target m) h1 h' E) as [Hs Hfr].
  pose proof (set_links_unlinked m h h1 El) as Hu.
  assert (Hun : forall a nd nd1, h !! a = Some nd -> h1 !! a = Some nd1 ->
                  payload nd1 = payload nd
                  /\ aggregates_of nd1 = aggregates_of nd).
  { intros a nd nd1 Ha Ha1. specialize (Hu a). rewrite Ha, Ha1 in Hu.
    simpl in Hu. unfold unlinked in Hu.
    split; [unfold payload in *|unfold aggregates_of in *]; congruence. }
  assert (Hdom : forall a, h !! a = None -> h1 !! a = None).
  { intros a Ha. specialize (Hu a). rewrite Ha in Hu.
    now destruct (h1 !! a). }
  split.
  - intros a. destruct (h1 !! a) as [nd1|] eqn:Ha1.
    + destruct (same_but_aggregates_lookup _ _ _ _ Hs Ha1)
        as (nd' & Ha' & _ & _ & Hp').
      rewrite Ha'. destruct (h !! a) as [nd|] eqn:Ha.
      * destruct (Hun a nd nd1 Ha Ha1) as [Hp _]. simpl. congruence.
      * rewrite (Hdom a Ha) in Ha1. discriminate.
    + specialize (Hs a). specialize (Hu a). rewrite Ha1 in Hs, Hu.
      destruct (h' !! a); [discriminate|]. now destruct (h !! a).
  - intros a Ha. rewrite Hfr.
    + specialize (Hu a). destruct (h !! a) as [nd|] eqn:Ea,
        (h1 !! a) as [nd1|] eqn:Ea1; try discriminate; try reflexivity.
      destruct (Hun a nd nd1 Ea Ea1) as [_ Hag]. simpl. congruence.
    + intros Hc. apply Ha. eapply chain_same_links; [|exact Hc].
      now apply same_but_aggregates_links.
Qed.

Lemma mutation_touches_chain_only_witness :
  (forall a, payload <$> (chain_store !! a) = payload <$> (three_nodes !! a))
  /\ (forall a, ~ on_parent_chain chain_store (target (AddChild 0%nat 1%nat)) a ->
                aggregates_of <$> (chain_store !! a)
                = aggregates_of <$> (three_nodes !! a)).
Proof.
  apply (mutation_touches_chain_only 3 (AddChild 0%nat 1%nat)
                                     three_nodes chain_store).
  vm_compute. reflexivity.
Defined.

Section TrueAggregates.

Lemma consistentb_consistent (h : store) (a : addr) :
  consistentb h a = true -> consistent h a.
Proof.
  unfold consistentb, consistent.
  destruct (h !! a) as [nd|]; [|discriminate].
  destruct (mapM (fun c => h !! c) (present (Node.children nd))) as [ks|] eqn:Em;
    [|discriminate].
  rewrite !andb_true_iff, !Z.eqb_eq. intros [[Hh Hs] Hl].
  exists nd, ks. split; [reflexivity|]. split; [|auto].
  apply mapM_Some_1 in Em. exact Em.
Qed.

Lemma foldl_max_nat (l : list nat) (a : nat) :
  foldl Z.max (Z.of_nat a) (map Z.of_nat l) = Z.of_nat (Nat.max a (max_list l)).
Proof.
  revert a. induction l as [|x l IH]; intros a; simpl.
  - now rewrite Nat.max_0_r.
  - rewrite <- Nat2Z.inj_max, IH. f_equal. lia.
Qed.

Lemma max_or_0_nat (l : list nat) :
  max_or_0 (map Z.of_nat l) = Z.of_nat (max_list l).
Proof.
  destruct l as [|x l]; [reflexivity|]. simpl. apply foldl_max_nat.
Qed.

Lemma sum_lengths {A : Type} (f : tree -> list A) (ks : list tree) :
  foldr Z.add 0 (map (fun k => Z.of_nat (length (f k))) ks)
  = Z.of_nat (length (flat_map f ks)).
Proof.
  induction ks as [|k ks IH]; simpl; [reflexivity|].
  rewrite length_app, IH. lia.
Qed.

Lemma filter_flat_map (P : tree -> Prop) `{!forall x, Decision (P x)}
    (ks : list tree) :
  filter P (flat_map nodes ks) = flat_map (fun k => filter P (nodes k)) ks.
Proof.
  induction ks as [|k ks IH]; simpl; [reflexivity|].
  now rewrite filter_app, IH.
Qed.

Lemma kids_records (h : store) (ts : list tree) (ks : list Node.t)
    (f : Node.t -> Z) (g : tree -> Z) :
  Forall2 (fun c k => h !! c = Some k) (map root ts) ks ->
  Forall (fun t => exists nd, h !! root t = Some nd /\ f nd = g t) ts ->
  map f ks = map g ts.
Proof.
  revert ks. induction ts as [|t ts IH]; intros ks H2 Hf; simpl in H2.
  - inversion H2. reflexivity.
  - inversion H2 as [|c k l ks' Hk Hrest]; subst.
    apply Forall_cons in Hf as [(nd & Hnd & Hfg) Hf].
    simpl. f_equal; [congruence|]. now apply IH.
Qed.

End TrueAggregates.

(** X5: in a tree all of whose nodes have consistent aggregates, the [height]
    of the root is the number of layers, its [size] the number of nodes and
    its [num_leaves] the number of leaves. *)
Theorem consistent_aggregates_count (h : store) (t : tree) :
  is_tree h t = true ->
  Forall (fun n => consistent h (root n)) (nodes t) ->
  exists nd, h !! root t = Some nd
    /\ Node.height nd = Z.of_nat (theight t)
    /\ Node.size nd = Z.of_nat (n_nodes t)
    /\ Node.num_leaves nd = Z.of_nat (n_leaves t).
Proof.
  induction t as [t IH] using tree_kids_ind. intros Ht Hall.
  rewrite nodes_unfold in Hall. apply Forall_cons in Hall as [Hc Hall].
  destruct (is_tree_get _ _ Ht) as (nd0 & Hg & _ & _ & Hp & _ & Hk).
  destruct Hc as (nd & ks & Hnd & Hks & Hh & Hs & Hl).
  unfold get in Hg. rewrite Hnd in Hg. injection Hg as <-.
  rewrite Hp in Hks, Hl.
  assert (Hkids : Forall (fun c => exists ndc, h !! root c = Some ndc
                    /\ Node.height ndc = Z.of_nat (theight c)
                    /\ Node.size ndc = Z.of_nat (n_nodes c)
                    /\ Node.num_leaves ndc = Z.of_nat (n_leaves c)) (kids t)).
  { rewrite Forall_forall in IH, Hk, Hall |- *. intros c Hc.
    apply IH; [exact Hc|now apply Hk|].
    apply Forall_forall. intros n Hn. apply Hall.
    apply list_elem_of_In, in_flat_map. exists c.
    split; now apply list_elem_of_In. }
  exists nd. split; [exact Hnd|]. split; [|split].
  - rewrite Hh, theight_unfold.
    rewrite (kids_records h (kids t) ks Node.height
               (fun c => Z.of_nat (theight c)) Hks).
    + rewrite <- (map_map theight Z.of_nat), max_or_0_nat. lia.
    + eapply Forall_impl; [exact Hkids|]. intros c (ndc & ? & ? & _). eauto.
  - rewrite Hs. unfold n_nodes at 1. rewrite nodes_unfold. simpl length.
    rewrite (kids_records h (kids t) ks Node.size
               (fun c => Z.of_nat (n_nodes c)) Hks).
    + unfold n_nodes. rewrite (sum_lengths nodes). lia.
    + eapply Forall_impl; [exact Hkids|]. intros c (ndc & ? & _ & ? & _). eauto.
  - rewrite Hl. unfold n_leaves at 1. rewrite nodes_unfold, filter_cons.
    rewrite (kids_records h (kids t) ks Node.num_leaves
               (fun c => Z.of_nat (n_leaves c)) Hks).
    + unfold n_leaves.
      rewrite (sum_lengths (fun k => filter (fun n => leafb n = true) (nodes k))).
      rewrite <- filter_flat_map.
      destruct (decide (leafb t = true)) as [El|El].
      * rewrite bool_decide_eq_true_2 by (now rewrite (leafb_kids t El)).
        simpl length. lia.
      * rewrite bool_decide_eq_false_2; [lia|].
        intros Hnil. apply El. unfold leafb.
        destruct (kids t); [reflexivity|discriminate Hnil].
    + eapply Forall_impl; [exact Hkids|]. intros c (ndc & ? & _ & _ & ?). eauto.
Qed.

Lemma consistent_aggregates_count_witness :
  exists nd, two_leaves_store None !! root (two_leaves_tree None) = Some nd
    /\ Node.height nd = Z.of_nat (theight (two_leaves_tree None))
    /\ Node.size nd = Z.of_nat (n_nodes (two_leaves_tree None))
    /\ Node.num_leaves nd = Z.of_nat (n_leaves (two_leaves_tree None)).
Proof.
  apply (consistent_aggregates_count (two_leaves_store None)
                                     (two_leaves_tree None)).
  - vm_compute. reflexivity.
  - repeat constructor; apply consistentb_consistent; vm_compute; reflexivity.
Defined.

(** ** Further properties of the linearizer *)

Section GenStages.

Lemma assert_Ok (c : bool) : assert c = Ok tt -> c = true.
Proof. destruct c; [reflexivity|discriminate]. Qed.

Lemma assert_no_none_inv (l : list (option Z)) (xs : list Z) :
  assert_no_none l = Ok xs -> map Some xs = l.
Proof.
  unfold assert_no_none. revert xs.
  induction l as [|[v|] l IH]; intros xs; simpl.
  - now intros [= <-].
  - destruct (mapM id l) as [l'|]; [|discriminate]. simpl.
    intros [= <-]. simpl. f_equal. now apply IH.
  - discriminate.
Qed.

(** The passes behind a result of [gen_nn_inputs]. *)
Lemma gen_nn_inputs_stages (fuel : nat) (root_node : addr)
    (max_degree : option nat) (only_leaves_have_vals : bool) (h : store)
    (x : list Z) (tree : ndarray) (h' : store) :
  gen_nn_inputs fuel root_node max_degree only_leaves_have_vals h
  = Ok (x, tree, h') ->
  exists h1 vals h2 rows ivals x0,
    _clear_indices fuel root_node h = Ok h1
    /\ _get_leaf_vals fuel root_node h1 = Ok (vals, h2)
    /\ _get_tree_traversal fuel root_node (Z.of_nat (length vals))
                           max_degree h2 = Ok (rows, ivals, h')
    /\ map Some x0 = vals ++ (if only_leaves_have_vals then [] else ivals)
    /\ match max_degree with
       | Some d => Forall (fun row => length row = S d) rows
       | None => True
       end
    /\ np_array1 x0 = Ok x
    /\ np_array rows = Ok tree.
Proof.
  unfold gen_nn_inputs. intros G.
  destruct (_clear_indices fuel root_node h) as [h1|] eqn:E1; [|discriminate].
  cbn [mbind res_bind] in G.
  destruct (_get_leaf_vals fuel root_node h1) as [[vals h2]|] eqn:E2;
    [|discriminate].
  cbn [mbind res_bind] in G.
  destruct (_get_tree_traversal fuel root_node (Z.of_nat (length vals))
                                max_degree h2) as [[[rows ivals] h3]|] eqn:E3;
    [|discriminate].
  cbn [mbind res_bind] in G.
  destruct (assert (forallb is_some vals)) as [[]|]; [|discriminate].
  cbn [mbind res_bind] in G.
  set (x0 := vals ++ (if only_leaves_have_vals then [] else ivals)).
  assert (G' : (_ ← match max_degree with
                    | Some d => assert (forallb (fun t => (length t =? d + 1)%nat) rows)
                    | None => Ok tt
                    end;
                x ← assert_no_none x0; x ← np_array1 x;
                tree ← np_array rows; Ok (x, tree, h3))
               = Ok (x, tree, h')).
  { unfold x0. destruct only_leaves_have_vals; cbn [negb mbind res_bind] in G |- *.
    - rewrite app_nil_r. exact G.
    - destruct (assert (forallb is_some ivals)) as [[]|]; [|discriminate].
      exact G. }
  clear G.
  assert (Hdeg : match max_degree with
                 | Some d => Forall (fun row => length row = S d) rows
                 | None => True
                 end
                 /\ (x ← assert_no_none x0; x ← np_array1 x;
                     tree ← np_array rows; Ok (x, tree, h3))
                    = Ok (x, tree, h')).
  { destruct max_degree as [d|]; [|split; [exact I|exact G']].
    destruct (assert (forallb (fun t => (length t =? d + 1)%nat) rows))
      as [[]|] eqn:Ea; [|discriminate].
    split; [|exact G']. apply assert_Ok in Ea. rewrite forallb_forall in Ea.
    apply Forall_forall. intros row Hrow. apply list_elem_of_In in Hrow.
    specialize (Ea row Hrow). apply Nat.eqb_eq in Ea. lia. }
  destruct Hdeg as [Hdeg G]. clear G'.
  destruct (assert_no_none x0) as [xs|] eqn:Ex; [|discriminate].
  cbn [mbind res_bind] in G.
  destruct (np_array1 xs) as [xs'|] eqn:Ecv; [|discriminate].
  cbn [mbind res_bind] in G.
  destruct (np_array rows) as [arr|] eqn:Earr; [|discriminate].
  cbn [mbind res_bind] in G.
  injection G as -> -> ->.
  exists h1, vals, h2, rows, ivals, xs.
  split; [reflexivity|]. split; [exact E2|]. split; [exact E3|].
  split; [now apply assert_no_none_inv|]. split; [exact Hdeg|].
  split; [exact Ecv|exact Earr].
Qed.

(** A result of [gen_nn_inputs] on a tree, with the facts of the passes:
    [x0] and [rows] are the values and the rows before their conversion. *)
Lemma gen_nn_inputs_inv (fuel : nat) (max_degree : option nat)
    (only_leaves_have_vals : bool) (t : tree) (h : store)
    (x : list Z) (tree : ndarray) (h' : store) :
  is_tree h t = true -> NoDup (addrs t) -> (theight t <= fuel)%nat ->
  gen_nn_inputs fuel (root t) max_degree only_leaves_have_vals h
  = Ok (x, tree, h') ->
  let leaves := leaves_deepest_first t in
  let inner := inner_deepest_first t in
  exists x0 rows,
    x = map int32 x0
    /\ map Some x0
       = map tval leaves
         ++ (if only_leaves_have_vals then []
             else map (fun n => Some (default (-1) (tval n))) inner)
    /\ np_rows tree = map (map int32) rows
    /\ Forall2 (row_ok max_degree) inner rows
    /\ map own rows
       = map (fun k => Z.of_nat (length leaves) + Z.of_nat k)
             (seq 0 (length inner))
    /\ same_struct h h'
    /\ positions h' (map root leaves) = map Some (arange (length leaves))
    /\ positions h' (map root inner) = map Some (map own rows)
    /\ (forall a, a ∉ addrs t -> h' !! a = h !! a)
    /\ rows = map (row_of h' max_degree) inner.
Proof.
  intros Ht Hnd Hf G leaves inner.
  destruct (gen_nn_inputs_stages _ _ _ _ _ _ _ _ G)
    as (h1 & vals & h2 & rows & ivals & x0 & E1 & E2 & E3 & Hx & _ & Ecv & Earr).
  pose proof (linearize_rows fuel max_degree t h h1 h2 h' _ _ rows
                Ht Hnd Hf E1 E2 E3) as Hcontent.
  destruct (linearize_tree fuel max_degree t h Ht Hnd Hf)
    as (h1' & h2' & h3' & rows' & E1' & E2' & E3' & Hrows & Hown & Hs & Hpl
        & Hpi & Hfr).
  fold leaves in E2', E3', Hown, Hpl. fold inner in E3', Hrows, Hown, Hpi.
  rewrite E1 in E1'. injection E1' as <-.
  rewrite E2 in E2'. injection E2' as -> <-.
  rewrite length_map in E3. rewrite E3 in E3'. injection E3' as <- -> <-.
  exists x0, rows.
  split; [now apply np_array1_inv in Ecv as [-> _]|].
  split; [exact Hx|]. split; [exact (np_array_rows _ _ Earr)|].
  repeat split; auto.
Qed.

(** When the positions fit 32 bits, the conversion changes no row. *)
Lemma rows_unchanged (t : tree) (h' : store) (max_degree : option nat)
    (rows : list (list Z)) :
  Z.of_nat (n_nodes t) <= 2 ^ 31 ->
  positions h' (map root (leaves_deepest_first t))
  = map Some (arange (length (leaves_deepest_first t))) ->
  positions h' (map root (inner_deepest_first t)) = map Some (map own rows) ->
  map own rows
  = map (fun k => Z.of_nat (length (leaves_deepest_first t)) + Z.of_nat k)
        (seq 0 (length (inner_deepest_first t))) ->
  rows = map (row_of h' max_degree) (inner_deepest_first t) ->
  map (map int32) rows = rows.
Proof.
  intros HN Hpl Hpi Hown Hcontent.
  assert (Hsmall : Forall (Forall (fun v => - 2 ^ 31 <= v < 2 ^ 31)) rows).
  { rewrite Hcontent. apply Forall_forall. intros r Hr.
    apply list_elem_of_In, in_map_iff in Hr as (n & <- & Hn).
    apply list_elem_of_In, elem_of_inner in Hn as [Hn _].
    apply (row_of_small t); [|exact HN|exact Hn].
    now apply (node_position t h' rows). }
  clear -Hsmall. induction Hsmall as [|r rows Hr _ IH]; [reflexivity|].
  cbn [map]. rewrite IH. f_equal.
  induction Hr as [|v r Hv _ IHr]; [reflexivity|].
  cbn [map]. now rewrite (int32_small v Hv), IHr.
Qed.

End GenStages.

(** X6: on a tree, [_clear_indices] returns once the recursion budget covers
    the layers; it clears the position of every node of the tree and changes
    nothing else. *)
Theorem clear_indices_clears (fuel : nat) (t : tree) (h : store) :
  is_tree h t = true -> (theight t <= fuel)%nat ->
  exists h',
    _clear_indices fuel (root t) h = Ok h'
    /\ (forall n, n ∈ nodes t -> idx_of h' (root n) = None)
    /\ same_struct h h'
    /\ (forall a, a ∉ addrs t -> h' !! a = h !! a).
Proof.
  intros Ht Hf.
  destruct (clear_indices_tree t fuel h Ht Hf) as (h' & E & Hs & Hc & Hfr).
  exists h'. split; [exact E|]. split; [|split; assumption].
  intros n Hn. apply Hc.
  apply list_elem_of_In, in_map, list_elem_of_In, Hn.
Qed.

Lemma clear_indices_clears_witness :
  exists h',
    _clear_indices 2 (root (two_leaves_tree None)) linearized_store = Ok h'
    /\ (forall n, n ∈ nodes (two_leaves_tree None) -> idx_of h' (root n) = None)
    /\ same_struct linearized_store h'
    /\ (forall a, a ∉ addrs (two_leaves_tree None) ->
                  h' !! a = linearized_store !! a).
Proof.
  apply (clear_indices_clears 2 (two_leaves_tree None) linearized_store).
  - vm_compute. reflexivity.
  - simpl. lia.
Defined.

Section Relinearize.

Lemma erase_cleared (nd : Node.t) : Node.idx nd = None -> erase nd = nd.
Proof. destruct nd. simpl. intros ->. reflexivity. Qed.

Lemma cleared_lookup (h h1 : store) (A : list addr) (a : addr) :
  cleared h h1 A -> a ∈ A -> h1 !! a = erase <$> (h !! a).
Proof.
  intros (Hs & Hc & _) Ha. rewrite (Hs a). specialize (Hc a Ha).
  unfold idx_of in Hc. destruct (h1 !! a) as [nd1|]; [|reflexivity].
  simpl in *. now rewrite erase_cleared.
Qed.

Lemma clear_indices_same (fuel : nat) (t : tree) (h h' h1 : store) :
  is_tree h t = true -> (theight t <= fuel)%nat ->
  same_struct h h' -> (forall a, a ∉ addrs t -> h' !! a = h !! a) ->
  _clear_indices fuel (root t) h = Ok h1 ->
  _clear_indices fuel (root t) h' = Ok h1.
Proof.
  intros Ht Hf Hs Hfr E.
  destruct (clear_indices_tree t fuel h Ht Hf) as (h1a & Ea & Ca).
  rewrite E in Ea. injection Ea as <-.
  assert (Ht' : is_tree h' t = true) by (eapply is_tree_same_struct; eassumption).
  destruct (clear_indices_tree t fuel h' Ht' Hf) as (h1b & Eb & Cb).
  rewrite Eb. f_equal. apply map_eq. intros a.
  destruct (decide (a ∈ addrs t)) as [Ha|Ha].
  - rewrite (cleared_lookup _ _ _ _ Ca Ha), (cleared_lookup _ _ _ _ Cb Ha).
    symmetry. apply Hs.
  - destruct Ca as (_ & _ & Fa). destruct Cb as (_ & _ & Fb).
    rewrite Fa, Fb by exact Ha. now apply Hfr.
Qed.

End Relinearize.

(** X7: linearizing a tree again, in the store the first run has left, gives
    the same values and the same schedule and leaves the store as it is. *)
Theorem relinearize_same (fuel : nat) (max_degree : option nat)
    (only_leaves_have_vals : bool) (t : tree) (h : store)
    (x : list Z) (tree : ndarray) (h' : store) :
  is_tree h t = true -> distinct t = true -> (theight t <= fuel)%nat ->
  gen_nn_inputs fuel (root t) max_degree only_leaves_have_vals h
  = Ok (x, tree, h') ->
  gen_nn_inputs fuel (root t) max_degree only_leaves_have_vals h'
  = Ok (x, tree, h').
Proof.
  intros Ht Hd Hf G. apply distinct_nodup in Hd.
  destruct (gen_nn_inputs_inv _ _ _ _ _ _ _ _ Ht Hd Hf G)
    as (_ & _ & _ & _ & _ & _ & _ & Hs & _ & _ & Hfr & _).
  destruct (gen_nn_inputs_stages _ _ _ _ _ _ _ _ G)
    as (h1 & _ & _ & _ & _ & _ & E1 & _).
  rewrite <- G. unfold gen_nn_inputs.
  rewrite (clear_indices_same fuel t h h' h1 Ht Hf Hs Hfr E1), E1. reflexivity.
Qed.

Lemma relinearize_same_witness :
  gen_nn_inputs 2 (root (two_leaves_tree None)) (Some 2%nat) true
                linearized_store
  = Ok ([3; 7], Array2 3 [[0; 1; 2]], linearized_store).
Proof.
  apply (relinearize_same 2 (Some 2%nat) true (two_leaves_tree None)
                          (two_leaves_store None)).
  - vm_compute. reflexivity.
  - vm_compute. reflexivity.
  - simpl. lia.
  - vm_compute. reflexivity.
Defined.

(** X8: a run of [gen_nn_inputs] on a tree assigns positions and nothing
    else: links, values and aggregates stay, and so does every object
    outside the tree. *)
Theorem gen_nn_inputs_assigns_positions_only (fuel : nat)
    (max_degree : option nat) (only_leaves_have_vals : bool) (t : tree)
    (h : store) (x : list Z) (tree : ndarray) (h' : store) :
  is_tree h t = true -> distinct t = true -> (theight t <= fuel)%nat ->
  gen_nn_inputs fuel (root t) max_degree only_leaves_have_vals h
  = Ok (x, tree, h') ->
  (forall a, Node.set_idx None <$> (h' !! a) = Node.set_idx None <$> (h !! a))
  /\ (forall a, a ∉ addrs t -> h' !! a = h !! a).
Proof.
  intros Ht Hd Hf G. apply distinct_nodup in Hd.
  destruct (gen_nn_inputs_inv _ _ _ _ _ _ _ _ Ht Hd Hf G)
    as (_ & _ & _ & _ & _ & _ & _ & Hs & _ & _ & Hfr & _).
  split; [|exact Hfr]. intros a. symmetry. apply Hs.
Qed.

Lemma gen_nn_inputs_assigns_positions_only_witness :
  (forall a, Node.set_idx None <$> (linearized_store !! a)
             = Node.set_idx None <$> (two_leaves_store None !! a))
  /\ (forall a, a ∉ addrs (two_leaves_tree None) ->
                linearized_store !! a = two_leaves_store None !! a).
Proof.
  apply (gen_nn_inputs_assigns_positions_only 2 (Some 2%nat) true
           (two_leaves_tree None) (two_leaves_store None)
           [3; 7] (Array2 3 [[0; 1; 2]]) linearized_store).
  - vm_compute. reflexivity.
  - vm_compute. reflexivity.
  - simpl. lia.
  - vm_compute. reflexivity.
Defined.

(** X9: with [only_leaves_have_vals] false, the value sequence is indexed by
    position: the entry at the position of a node is the node's value cut
    to 32 bits, or -1 when the node has none. *)
Theorem values_indexed_by_position (fuel : nat) (max_degree : option nat)
    (t : tree) (h : store) (x : list Z) (tree : ndarray) (h' : store) :
  is_tree h t = true -> distinct t = true -> (theight t <= fuel)%nat ->
  gen_nn_inputs fuel (root t) max_degree false h = Ok (x, tree, h') ->
  length x = n_nodes t
  /\ forall n, n ∈ nodes t ->
       exists i : nat,
         idx_of h' (root n) = Some (Z.of_nat i)
         /\ x !! i = Some (int32 (default (-1) (tval n))).
Proof.
  intros Ht Hd Hf G. apply distinct_nodup in Hd.
  destruct (gen_nn_inputs_inv _ _ _ _ _ _ _ _ Ht Hd Hf G)
    as (x0 & rows & -> & Hx & _ & Hrows & Hown & _ & Hpl & Hpi & _).
  cbv zeta in Hx, Hrows, Hown, Hpl, Hpi.
  set (leaves := leaves_deepest_first t) in *.
  set (inner := inner_deepest_first t) in *.
  split.
  { apply (f_equal (@length _)) in Hx.
    rewrite length_app, !length_map in Hx. rewrite length_map, Hx.
    unfold leaves, inner. rewrite length_leaves, length_inner.
    unfold n_nodes, n_leaves.
    pose proof (filter_partition_length (nodes t)). lia. }
  intros n Hn. destruct (leafb n) eqn:El.
  - assert (Hin : n ∈ leaves) by (apply elem_of_leaves; auto).
    apply list_elem_of_lookup in Hin as [k Hk].
    destruct (positions_lookup _ _ _ _ _ Hpl Hk) as (p & Hp & Hi).
    unfold arange in Hp. rewrite map_lookup in Hp.
    assert (Hlt : (k < length leaves)%nat) by (eapply lookup_lt_Some; exact Hk).
    rewrite lookup_seq_lt in Hp by exact Hlt. simpl in Hp. injection Hp as <-.
    exists k. split; [exact Hi|].
    apply (f_equal (fun l => l !! k)) in Hx.
    rewrite map_lookup, lookup_app_l in Hx by (now rewrite length_map).
    rewrite map_lookup, Hk in Hx. simpl in Hx. rewrite map_lookup.
    destruct (x0 !! k) as [v|]; [|discriminate]. simpl in Hx.
    injection Hx as Hv. now rewrite <- Hv.
  - assert (Hin : n ∈ inner)
      by (apply elem_of_inner; split; [exact Hn|unfold innerb; now rewrite El]).
    apply list_elem_of_lookup in Hin as [k Hk].
    destruct (positions_lookup _ _ _ _ _ Hpi Hk) as (p & Hp & Hi).
    rewrite Hown, map_lookup in Hp.
    assert (Hlt : (k < length inner)%nat) by (eapply lookup_lt_Some; exact Hk).
    rewrite lookup_seq_lt in Hp by exact Hlt. simpl in Hp. injection Hp as <-.
    exists (length leaves + k)%nat. split; [rewrite Hi; f_equal; lia|].
    apply (f_equal (fun l => l !! (length leaves + k)%nat)) in Hx.
    rewrite map_lookup in Hx.
    rewrite lookup_app_r in Hx by (rewrite length_map; lia).
    rewrite length_map in Hx.
    replace (length leaves + k - length leaves)%nat with k in Hx by lia.
    rewrite map_lookup, Hk in Hx. simpl in Hx. rewrite map_lookup.
    destruct (x0 !! (length leaves + k)%nat) as [v|]; [|discriminate].
    simpl in Hx. now injection Hx as ->.
Qed.

Lemma values_indexed_by_position_witness :
  length [3; 7; -1] = n_nodes (two_leaves_tree None)
  /\ forall n, n ∈ nodes (two_leaves_tree None) ->
       exists i : nat,
         idx_of linearized_store (root n) = Some (Z.of_nat i)
         /\ [3; 7; -1] !! i = Some (int32 (default (-1) (tval n))).
Proof.
  apply (values_indexed_by_position 2 (Some 2%nat) (two_leaves_tree None)
           (two_leaves_store None) [3; 7; -1] (Array2 3 [[0; 1; 2]])
           linearized_store).
  - vm_compute. reflexivity.
  - vm_compute. reflexivity.
  - simpl. lia.
  - vm_compute. reflexivity.
Defined.

(** X10: whenever [gen_nn_inputs] returns under [max_degree = d], in any
    store, every row of the schedule has [d + 1] entries, and the schedule is
    either the array of one empty axis or a matrix of [d + 1] columns. *)
Theorem schedule_has_degree_plus_one_columns (fuel : nat) (root_node : addr)
    (d : nat) (only_leaves_have_vals : bool) (h : store)
    (x : list Z) (tree : ndarray) (h' : store) :
  gen_nn_inputs fuel root_node (Some d) only_leaves_have_vals h
  = Ok (x, tree, h') ->
  Forall (fun row => length row = S d) (np_rows tree)
  /\ (tree = Array1 [] \/ tree = Array2 (S d) (np_rows tree)).
Proof.
  intros G.
  destruct (gen_nn_inputs_stages _ _ _ _ _ _ _ _ G)
    as (_ & _ & _ & rows & _ & _ & _ & _ & _ & _ & Hlen & _ & Earr).
  pose proof (np_array_rows _ _ Earr) as Hnp. rewrite Hnp. split.
  { apply Forall_forall. intros row Hrow.
    apply list_elem_of_In, in_map_iff in Hrow as (r & <- & Hr).
    rewrite length_map. rewrite Forall_forall in Hlen.
    apply Hlen, list_elem_of_In, Hr. }
  unfold np_array in Earr. destruct rows as [|r rest].
  - left. now injection Earr as <-.
  - right. destruct (forallb _ rest); [|discriminate].
    destruct (map_res np_array1 (r :: rest)) as [rows'|]; [|discriminate].
    cbn [mbind res_bind] in Earr. injection Earr as <-.
    cbn [np_rows] in Hnp. rewrite <- Hnp.
    apply Forall_cons in Hlen as [-> _]. reflexivity.
Qed.

Lemma schedule_has_degree_plus_one_columns_witness :
  Forall (fun row => length row = 3%nat) (np_rows (Array2 3 [[0; 1; 2]]))
  /\ (Array2 3 [[0; 1; 2]] = Array1 []
      \/ Array2 3 [[0; 1; 2]] = Array2 3 (np_rows (Array2 3 [[0; 1; 2]]))).
Proof.
  apply (schedule_has_degree_plus_one_columns 2 0%nat 2 true
           (two_leaves_store None) [3; 7] (Array2 3 [[0; 1; 2]])
           linearized_store).
  vm_compute. reflexivity.
Defined.

(** ** Further properties of the evaluator *)

Section PyIndex.
Context {A : Type}.

Lemma py_index_nonneg (l : list A) (i : Z) :
  0 <= i ->
  py_index l i = match l !! Z.to_nat i with
                 | Some a => Ok a
                 | None => Err IndexError
                 end.
Proof.
  intros Hi. unfold py_index.
  replace (i <? 0) with false by (symmetry; apply Z.ltb_ge; lia).
  replace (0 <=? i) with true by (symmetry; apply Z.leb_le; lia).
  simpl. destruct (i <? Z.of_nat (length l)) eqn:Hlt; [reflexivity|].
  apply Z.ltb_ge in Hlt. rewrite lookup_ge_None_2; [reflexivity|lia].
Qed.

Lemma py_index_neg (l : list A) (i : Z) :
  i < 0 -> - Z.of_nat (length l) <= i ->
  py_index l i = match l !! Z.to_nat (i + Z.of_nat (length l)) with
                 | Some a => Ok a
                 | None => Err IndexError
                 end.
Proof.
  intros Hi Hlo. unfold py_index.
  replace (i <? 0) with true by (symmetry; apply Z.ltb_lt; lia).
  replace (0 <=? i + Z.of_nat (length l)) with true
    by (symmetry; apply Z.leb_le; lia).
  replace (i + Z.of_nat (length l) <? Z.of_nat (length l)) with true
    by (symmetry; apply Z.ltb_lt; lia).
  reflexivity.
Qed.

Lemma py_index_Ok (l : list A) (i : Z) (a : A) :
  py_index l i = Ok a ->
  - Z.of_nat (length l) <= i < Z.of_nat (length l).
Proof.
  unfold py_index. destruct (i <? 0) eqn:Hneg.
  - apply Z.ltb_lt in Hneg.
    destruct ((0 <=? i + Z.of_nat (length l))
              && (i + Z.of_nat (length l) <? Z.of_nat (length l))) eqn:Hb;
      [|discriminate].
    apply andb_true_iff in Hb as [H1 H2]. apply Z.leb_le in H1. lia.
  - apply Z.ltb_ge in Hneg.
    destruct ((0 <=? i) && (i <? Z.of_nat (length l))) eqn:Hb; [|discriminate].
    apply andb_true_iff in Hb as [H1 H2]. apply Z.ltb_lt in H2. lia.
Qed.

Lemma py_index_in_range (l : list A) (i : Z) :
  - Z.of_nat (length l) <= i < Z.of_nat (length l) ->
  exists a, py_index l i = Ok a.
Proof.
  intros Hr. destruct (Z.lt_ge_cases i 0) as [Hneg|Hpos].
  - rewrite py_index_neg by lia.
    destruct (lookup_lt_is_Some_2 l (Z.to_nat (i + Z.of_nat (length l))))
      as [a ->]; [lia|eauto].
  - rewrite py_index_nonneg by lia.
    destruct (lookup_lt_is_Some_2 l (Z.to_nat i)) as [a ->]; [lia|eauto].
Qed.

Lemma py_index_last (l : list A) (x : A) :
  py_index (l ++ [x]) (-1) = Ok x.
Proof.
  rewrite py_index_neg; [|lia|rewrite length_app; simpl; lia].
  rewrite length_app. simpl.
  replace (Z.to_nat (-1 + Z.of_nat (length l + 1))) with (length l) by lia.
  rewrite lookup_app_r by lia. now rewrite Nat.sub_diag.
Qed.

End PyIndex.

Section MapRes.
Context {A B : Type}.

Lemma map_res_length (f : A -> res B) (l : list A) (bs : list B) :
  map_res f l = Ok bs -> length bs = length l.
Proof.
  revert bs. induction l as [|a l IH]; intros bs; simpl.
  - now intros [= <-].
  - destruct (f a) as [b|]; [|discriminate]. simpl.
    destruct (map_res f l) as [bs'|]; [|discriminate]. simpl.
    intros [= <-]. simpl. f_equal. now apply IH.
Qed.

Lemma map_res_all_Ok (f : A -> res B) (g : A -> B) (l : list A) :
  Forall (fun a => f a = Ok (g a)) l -> map_res f l = Ok (map g l).
Proof.
  induction 1 as [|a l Ha _ IH]; simpl; [reflexivity|].
  now rewrite Ha, IH.
Qed.

End MapRes.

Section Embedding.
Context {E : TensorEngine}.

Lemma py_index_out {A : Type} (l : list A) (i : Z) :
  ~ (- Z.of_nat (length l) <= i < Z.of_nat (length l)) ->
  py_index l i = Err IndexError.
Proof.
  intros Hout. destruct (py_index l i) as [a|e] eqn:Ei.
  - exfalso. apply Hout. eapply py_index_Ok. exact Ei.
  - unfold py_index in Ei.
    destruct ((0 <=? (if i <? 0 then i + Z.of_nat (length l) else i))
              && ((if i <? 0 then i + Z.of_nat (length l) else i)
                  <? Z.of_nat (length l))).
    + destruct (l !! _); [discriminate|]. congruence.
    + congruence.
Qed.

(** X11: [embed] returns one vector per index when every index lies in
    [-n, n), for [n] embeddings, and raises [IndexError] otherwise. *)
Theorem embed_index_range (self : TreeRNN) (x : list Z) :
  let n := Z.of_nat (length (embeddings self)) in
  (Forall (fun i => - n <= i < n) x ->
   exists es, embed self x = Ok es /\ length es = length x)
  /\ (~ Forall (fun i => - n <= i < n) x -> embed self x = Err IndexError).
Proof.
  intros n. unfold embed. induction x as [|i x [IHok IHerr]]; simpl.
  - split; [intros _; exists []; auto|]. intros H. exfalso. apply H. constructor.
  - split.
    + intros H. apply Forall_cons in H as [Hi Hx].
      destruct (py_index_in_range (embeddings self) i Hi) as (e & ->).
      destruct (IHok Hx) as (es & -> & Hlen). simpl.
      eexists. split; [reflexivity|]. simpl. now rewrite Hlen.
    + intros H.
      destruct (decide (- n <= i < n)) as [Hi|Hi].
      * destruct (py_index_in_range (embeddings self) i Hi) as (e & ->).
        simpl. rewrite IHerr; [reflexivity|].
        intros Hx. apply H. now constructor.
      * now rewrite (py_index_out _ _ Hi).
Qed.

End Embedding.

Section CheckInput.
Context {E : TensorEngine}.

Lemma py_index_own (row : list Z) :
  row <> [] -> py_index row (-1) = Ok (own row).
Proof.
  intros Hne. destruct (exists_last Hne) as (l & x & ->).
  rewrite py_index_last. unfold own. now rewrite last_last.
Qed.

Lemma own_column (k : nat) (rows : list (list Z)) :
  Forall (fun row => row <> []) rows ->
  np_column (Array2 k rows) (-1) = Ok (map own rows).
Proof.
  intros H. simpl. apply map_res_all_Ok.
  eapply Forall_impl; [exact H|]. intros row. apply py_index_own.
Qed.

(** X13: with [irregular_tree] set, [_check_input] accepts what
    [gen_nn_inputs] returns, with [only_leaves_have_vals] false, for every
    tree whose root has a child and whose positions fit 32 bits. *)
Theorem check_input_accepts_linearization (self : TreeRNN) (fuel : nat)
    (max_degree : option nat) (t : tree) (h : store)
    (x : list Z) (tree : ndarray) (h' : store) :
  is_tree h t = true -> distinct t = true -> (theight t <= fuel)%nat ->
  innerb t = true -> irregular_tree self = true ->
  positions_fit t = true ->
  gen_nn_inputs fuel (root t) max_degree false h = Ok (x, tree, h') ->
  _check_input self x tree = Ok tt.
Proof.
  intros Ht Hd Hf Hi Hirr Hsz G. apply distinct_nodup in Hd.
  apply Z.leb_le in Hsz.
  destruct (gen_nn_inputs_inv _ _ _ _ _ _ _ _ Ht Hd Hf G)
    as (x0 & rows & -> & Hx & Hnp & Hrows & Hown & _ & Hpl & Hpi & _ & Hcontent).
  cbv zeta in Hx, Hrows, Hown, Hpl, Hpi, Hcontent.
  rewrite (rows_unchanged t h' max_degree rows Hsz Hpl Hpi Hown Hcontent) in Hnp.
  destruct (gen_nn_inputs_stages _ _ _ _ _ _ _ _ G)
    as (_ & _ & _ & rows1 & _ & _ & _ & _ & _ & _ & _ & _ & Earr).
  assert (Hlen : length rows = length (inner_deepest_first t))
    by (symmetry; eapply Forall2_length; exact Hrows).
  assert (Hin : t ∈ inner_deepest_first t)
    by (apply elem_of_inner; split; [rewrite nodes_unfold; left|exact Hi]).
  assert (Htree : exists k, tree = Array2 k rows).
  { unfold np_array in Earr. destruct rows1 as [|r rest].
    - injection Earr as <-. cbn [np_rows] in Hnp. subst rows.
      destruct (inner_deepest_first t); [inversion Hin|discriminate].
    - destruct (forallb _ rest); [|discriminate].
      destruct (map_res np_array1 (r :: rest)) as [rows'|]; [|discriminate].
      cbn [mbind res_bind] in Earr. injection Earr as <-.
      cbn [np_rows] in Hnp. subst rows'. eauto. }
  destruct Htree as [k ->]. clear Earr Hnp.
  unfold _check_input.
  rewrite own_column.
  2: { apply Forall_forall. intros row Hrow.
       destruct (row_lengths _ _ _ Hrows row Hrow) as (n & _ & Hl).
       intros ->. unfold row_len in Hl. destruct max_degree; discriminate. }
  cbn [mbind res_bind]. rewrite Hirr. cbn [negb].
  assert (Hxlen : length (map int32 x0)
                  = (length (leaves_deepest_first t)
                     + length (inner_deepest_first t))%nat).
  { apply (f_equal (@length _)) in Hx.
    rewrite length_app, !length_map in Hx. now rewrite length_map. }
  replace (bool_decide _) with true; [reflexivity|].
  symmetry. apply bool_decide_eq_true. rewrite Hown. unfold arange2, np_len.
  rewrite Hlen, Hxlen.
  replace (Z.to_nat _) with (length (inner_deepest_first t)) by lia.
  apply map_ext. intros j. lia.
Qed.

End CheckInput.

Lemma check_input_accepts_linearization_witness :
  @_check_input F32engine fmodel_irregular [3; 7; -1] (Array2 3 [[0; 1; 2]])
  = Ok tt.
Proof.
  apply (@check_input_accepts_linearization F32engine fmodel_irregular 2
           (Some 2%nat) (two_leaves_tree None) (two_leaves_store None)
           [3; 7; -1] (Array2 3 [[0; 1; 2]]) linearized_store).
  - vm_compute. reflexivity.
  - vm_compute. reflexivity.
  - simpl. lia.
  - reflexivity.
  - reflexivity.
  - vm_compute. reflexivity.
  - vm_compute. reflexivity.
Defined.


(** ** The oracle and the worst candidate of an instance *)

Section OracleProperties.
Variable line : Type.
Variable newline : line.
Variable evaluate : list line -> list line -> Q.
Variable gold_lines : list line.

#[local] Abbreviation sc := (score line newline evaluate gold_lines).
#[local] Abbreviation step := (select_step line newline evaluate gold_lines).
#[local] Abbreviation sel := (select line newline evaluate gold_lines).

Lemma select_snoc (l : list (list line)) (c : list line) :
  sel (l ++ [c]) = step (sel l) c.
Proof. unfold select. now rewrite foldl_app. Qed.

Lemma select_counter (l : list (list line)) : counter (sel l) = length l.
Proof.
  induction l as [|c l IH] using rev_ind; [reflexivity|].
  rewrite select_snoc, length_app. unfold select_step.
  destruct (Qlt_le_dec _ _); destruct (Qlt_le_dec _ _); simpl; lia.
Qed.

Lemma select_best (l : list (list line)) :
  best_so_far line newline evaluate gold_lines l (sel l).
Proof.
  unfold best_so_far. induction l as [|c l IH] using rev_ind.
  - split; [intros c Hc; inversion Hc|]. left. split; reflexivity.
  - destruct IH as [Hall Hcase].
    assert (Hnn : (0 <= max_res (sel l))%Q).
    { destruct Hcase as [[_ ->]|[Hpos _]];
        [apply Qle_refl|now apply Qlt_le_weak]. }
    rewrite select_snoc. unfold select_step. rewrite select_counter.
    destruct (Qlt_le_dec (max_res (sel l)) (sc c)) as [Hlt|Hle];
      destruct (Qlt_le_dec (sc c) (min_res (sel l))); simpl.
    all: split.
    all: try (intros c' Hc'; apply elem_of_app in Hc' as [Hc'|Hc'];
              [|apply list_elem_of_singleton in Hc' as ->]).
    all: try apply Qle_refl.
    all: try (apply Qlt_le_weak; eapply Qle_lt_trans; [apply Hall, Hc'|exact Hlt]).
    all: try (now apply Hall).
    all: try exact Hle.
    1,2: right; split; [eapply Qle_lt_trans; [exact Hnn|exact Hlt]|];
         exists c; split; [apply list_lookup_middle; reflexivity|];
         split; [reflexivity|];
         intros j c' Hj Hl; rewrite lookup_app_l in Hl by exact Hj;
         eapply Qle_lt_trans; [|exact Hlt];
         apply Hall; eapply list_elem_of_lookup_2; exact Hl.
    all: destruct Hcase as [Hz|(Hpos & c0 & Hl0 & Hs0 & Hfirst)];
         [left; exact Hz|right; split; [exact Hpos|]];
         exists c0; pose proof (lookup_lt_Some _ _ _ Hl0) as Hlen;
         split; [rewrite lookup_app_l by exact Hlen; exact Hl0|];
         split; [exact Hs0|];
         intros j c' Hj Hl; rewrite lookup_app_l in Hl by lia;
         exact (Hfirst j c' Hj Hl).
Qed.

Lemma select_worst (l : list (list line)) :
  worst_so_far line newline evaluate gold_lines l (sel l).
Proof.
  unfold worst_so_far. induction l as [|c l IH] using rev_ind.
  - split; [intros c Hc; inversion Hc|]. left. split; reflexivity.
  - destruct IH as [Hall Hcase].
    assert (Hnn : (min_res (sel l) <= 1)%Q).
    { destruct Hcase as [[_ ->]|[Hpos _]];
        [apply Qle_refl|now apply Qlt_le_weak]. }
    rewrite select_snoc. unfold select_step. rewrite select_counter.
    destruct (Qlt_le_dec (max_res (sel l)) (sc c));
      destruct (Qlt_le_dec (sc c) (min_res (sel l))) as [Hlt|Hle]; simpl.
    all: split.
    all: try (intros c' Hc'; apply elem_of_app in Hc' as [Hc'|Hc'];
              [|apply list_elem_of_singleton in Hc' as ->]).
    all: try apply Qle_refl.
    all: try (apply Qlt_le_weak; eapply Qlt_le_trans; [exact Hlt|apply Hall, Hc']).
    all: try (now apply Hall).
    all: try exact Hle.
    1,3: right; split; [eapply Qlt_le_trans; [exact Hlt|exact Hnn]|];
         exists c; split; [apply list_lookup_middle; reflexivity|];
         split; [reflexivity|];
         intros j c' Hj Hl; rewrite lookup_app_l in Hl by exact Hj;
         eapply Qlt_le_trans; [exact Hlt|];
         apply Hall; eapply list_elem_of_lookup_2; exact Hl.
    all: destruct Hcase as [Hz|(Hpos & c0 & Hl0 & Hs0 & Hfirst)];
         [left; exact Hz|right; split; [exact Hpos|]];
         exists c0; pose proof (lookup_lt_Some _ _ _ Hl0) as Hlen;
         split; [rewrite lookup_app_l by exact Hlen; exact Hl0|];
         split; [exact Hs0|];
         intros j c' Hj Hl; rewrite lookup_app_l in Hl by lia;
         exact (Hfirst j c' Hj Hl).
Qed.

Lemma maxid_valid (lines : list (list line)) :
  lines <> [] -> exists c, lines !! maxid (sel lines) = Some c.
Proof.
  intros Hne. destruct (select_best lines) as [_ [[-> _]|(_ & c & Hc & _)]].
  - destruct lines as [|c lines]; [easy|]. now exists c.
  - now exists c.
Qed.

Lemma minid_valid (lines : list (list line)) :
  lines <> [] -> exists c, lines !! minid (sel lines) = Some c.
Proof.
  intros Hne. destruct (select_worst lines) as [_ [[-> _]|(_ & c & Hc & _)]].
  - destruct lines as [|c lines]; [easy|]. now exists c.
  - now exists c.
Qed.

Lemma oracle_worst_lookup (lines : list (list line)) (best worst : list line) :
  lines !! maxid (sel lines) = Some best ->
  lines !! minid (sel lines) = Some worst ->
  oracle_worst line newline evaluate gold_lines lines
  = Ok (best ++ [newline], worst ++ [newline]).
Proof.
  intros Hb Hw. unfold oracle_worst.
  rewrite !py_index_nonneg by lia. rewrite !Nat2Z.id, Hb, Hw. reflexivity.
Qed.

(** X18: when some candidate of an instance scores above 0,
    [evaluate_oracle_worst] takes as oracle the first candidate with the
    highest score: no candidate scores higher, and every candidate before it
    scores lower. *)
Theorem oracle_is_first_best (lines : list (list line)) :
  (exists c, c ∈ lines /\ (0 < sc c)%Q) ->
  exists (i : nat) (best worst : list line),
    oracle_worst line newline evaluate gold_lines lines
    = Ok (best ++ [newline], worst)
    /\ lines !! i = Some best
    /\ (forall c, c ∈ lines -> (sc c <= sc best)%Q)
    /\ (forall j c, (j < i)%nat -> lines !! j = Some c -> (sc c < sc best)%Q).
Proof.
  intros (c & Hc & Hpos).
  assert (Hne : lines <> []) by (intros ->; inversion Hc).
  destruct (minid_valid lines Hne) as (worst & Hw).
  destruct (select_best lines) as [Hall [[_ Hz]|(_ & best & Hb & Hs & Hfirst)]].
  - specialize (Hall c Hc). rewrite Hz in Hall.
    exfalso. exact (Qlt_not_le _ _ Hpos Hall).
  - exists (maxid (sel lines)), best, (worst ++ [newline]).
    split; [now apply oracle_worst_lookup|]. split; [exact Hb|].
    rewrite Hs. split; [exact Hall|exact Hfirst].
Qed.

(** X19: when some candidate scores below 1, the worst candidate taken is
    the first one with the lowest score. *)
Theorem worst_is_first_lowest (lines : list (list line)) :
  (exists c, c ∈ lines /\ (sc c < 1)%Q) ->
  exists (i : nat) (best worst : list line),
    oracle_worst line newline evaluate gold_lines lines
    = Ok (best, worst ++ [newline])
    /\ lines !! i = Some worst
    /\ (forall c, c ∈ lines -> (sc worst <= sc c)%Q)
    /\ (forall j c, (j < i)%nat -> lines !! j = Some c -> (sc worst < sc c)%Q).
Proof.
  intros (c & Hc & Hlow).
  assert (Hne : lines <> []) by (intros ->; inversion Hc).
  destruct (maxid_valid lines Hne) as (best & Hb).
  destruct (select_worst lines)
    as [Hall [[_ Hz]|(_ & worst & Hw & Hs & Hfirst)]].
  - specialize (Hall c Hc). rewrite Hz in Hall.
    exfalso. exact (Qlt_not_le _ _ Hlow Hall).
  - exists (minid (sel lines)), (best ++ [newline]), worst.
    split; [now apply oracle_worst_lookup|]. split; [exact Hw|].
    rewrite Hs. split; [exact Hall|exact Hfirst].
Qed.

(** X20: when no candidate scores below 1, as with scores in percent, the
    worst candidate taken is the first candidate of the instance, whatever
    the scores are. *)
Theorem worst_defaults_to_first (first : list line)
    (rest : list (list line)) :
  (forall c, c ∈ first :: rest -> (1 <= sc c)%Q) ->
  exists best : list line,
    oracle_worst line newline evaluate gold_lines (first :: rest)
    = Ok (best, first ++ [newline]).
Proof.
  intros Hhigh.
  destruct (maxid_valid (first :: rest)) as (best & Hb); [easy|].
  exists (best ++ [newline]). apply oracle_worst_lookup; [exact Hb|].
  destruct (select_worst (first :: rest))
    as [_ [[-> _]|(Hlow & worst & Hw & Hs & _)]]; [reflexivity|].
  exfalso. rewrite <- Hs in Hlow.
  apply (Qlt_not_le _ _ Hlow), Hhigh.
  eapply list_elem_of_lookup_2. exact Hw.
Qed.

End OracleProperties.

Lemma oracle_is_first_best_witness :
  exists (i : nat) (best worst : list Z),
    oracle_worst Z 0 quarter_score [] [[1]; [1; 2; 3]; [1; 2]; [4; 5; 6]]
    = Ok (best ++ [0], worst)
    /\ [[1]; [1; 2; 3]; [1; 2]; [4; 5; 6]] !! i = Some best
    /\ (forall c, c ∈ [[1]; [1; 2; 3]; [1; 2]; [4; 5; 6]] ->
          Qle (score Z 0 quarter_score [] c) (score Z 0 quarter_score [] best))
    /\ (forall j c, (j < i)%nat ->
          [[1]; [1; 2; 3]; [1; 2]; [4; 5; 6]] !! j = Some c ->
          Qlt (score Z 0 quarter_score [] c) (score Z 0 quarter_score [] best)).
Proof.
  apply (oracle_is_first_best Z 0 quarter_score []
           [[1]; [1; 2; 3]; [1; 2]; [4; 5; 6]]).
  exists [1]. split; [apply list_elem_of_here|reflexivity].
Defined.

Lemma worst_is_first_lowest_witness :
  exists (i : nat) (best worst : list Z),
    oracle_worst Z 0 quarter_score [] [[1; 2]; [1]; [1; 2; 3]; [4]]
    = Ok (best, worst ++ [0])
    /\ [[1; 2]; [1]; [1; 2; 3]; [4]] !! i = Some worst
    /\ (forall c, c ∈ [[1; 2]; [1]; [1; 2; 3]; [4]] ->
          Qle (score Z 0 quarter_score [] worst) (score Z 0 quarter_score [] c))
    /\ (forall j c, (j < i)%nat ->
          [[1; 2]; [1]; [1; 2; 3]; [4]] !! j = Some c ->
          Qlt (score Z 0 quarter_score [] worst) (score Z 0 quarter_score [] c)).
Proof.
  apply (worst_is_first_lowest Z 0 quarter_score []
           [[1; 2]; [1]; [1; 2; 3]; [4]]).
  exists [1]. split; [apply list_elem_of_further, list_elem_of_here|reflexivity].
Defined.

Lemma worst_defaults_to_first_witness :
  exists best : list Z,
    oracle_worst Z 0 percent_score [] [[1]; [1; 2; 3]] = Ok (best, [1] ++ [0]).
Proof.
  apply (worst_defaults_to_first Z 0 percent_score [] [1] [[1; 2; 3]]).
  intros c Hc. apply elem_of_cons in Hc as [->|Hc].
  - vm_compute. discriminate.
  - apply list_elem_of_singleton in Hc as ->. vm_compute. discriminate.
Defined.
(** ** The content of the rows *)

(** X21: every row of the schedule of a tree lists the positions that the
    children of its node hold in the store returned, slot by slot, with -1
    for an empty slot and for the padding up to [max_degree], and ends with
    the position of the node itself, each cut to 32 bits, which changes
    nothing when the positions fit 32 bits; the rows follow the internal
    nodes from the deepest layer to the root. *)
Theorem schedule_rows_hold_child_positions (fuel : nat)
    (max_degree : option nat) (only_leaves_have_vals : bool) (t : tree)
    (h : store) (x : list Z) (tree : ndarray) (h' : store) :
  is_tree h t = true -> distinct t = true -> (theight t <= fuel)%nat ->
  gen_nn_inputs fuel (root t) max_degree only_leaves_have_vals h
  = Ok (x, tree, h') ->
  np_rows tree
  = map (fun n => map int32 (row_of h' max_degree n)) (inner_deepest_first t)
  /\ (positions_fit t = true ->
      np_rows tree = map (row_of h' max_degree) (inner_deepest_first t)).
Proof.
  intros Ht Hd Hf G. apply distinct_nodup in Hd.
  destruct (gen_nn_inputs_inv _ _ _ _ _ _ _ _ Ht Hd Hf G)
    as (x0 & rows & _ & _ & Hnp & _ & Hown & _ & Hpl & Hpi & _ & Hcontent).
  cbv zeta in Hown, Hpl, Hpi, Hcontent. split.
  - rewrite Hnp, Hcontent, map_map. reflexivity.
  - intros Hsz. apply Z.leb_le in Hsz.
    rewrite Hnp, (rows_unchanged t h' max_degree rows Hsz Hpl Hpi Hown Hcontent).
    exact Hcontent.
Qed.

Lemma schedule_rows_hold_child_positions_witness :
  np_rows (Array2 3 [[0; 1; 2]])
  = map (fun n => map int32 (row_of linearized_store (Some 2%nat) n))
        (inner_deepest_first (two_leaves_tree None))
  /\ (positions_fit (two_leaves_tree None) = true ->
      np_rows (Array2 3 [[0; 1; 2]])
      = map (row_of linearized_store (Some 2%nat))
            (inner_deepest_first (two_leaves_tree None))).
Proof.
  apply (schedule_rows_hold_child_positions 2 (Some 2%nat) true
           (two_leaves_tree None) (two_leaves_store None) [3; 7]).
  - vm_compute. reflexivity.
  - vm_compute. reflexivity.
  - simpl. lia.
  - vm_compute. reflexivity.
Defined.

(** ** Growing a tree through the API *)

Section Grow.

Lemma is_tree_agree (h h' : store) (t : tree) :
  (forall a, a ∈ addrs t -> shape <$> (h' !! a) = shape <$> (h !! a)) ->
  is_tree h t = true -> is_tree h' t = true.
Proof.
  induction t as [t IH] using tree_kids_ind. intros Hag.
  rewrite !is_tree_unfold. intros (nd & Ha & Hv & Hc & Hk).
  assert (Hroot : shape <$> (h' !! root t) = shape <$> (h !! root t)).
  { apply Hag. rewrite addrs_unfold. left. }
  rewrite Ha in Hroot. destruct (h' !! root t) as [nd'|]; [|discriminate].
  injection Hroot as Hv' Hc'. exists nd'.
  split; [reflexivity|]. split; [congruence|]. split; [congruence|].
  rewrite Forall_forall in IH, Hk |- *. intros c Hin.
  apply IH; [exact Hin| |now apply Hk].
  intros a Ha'. apply Hag. rewrite addrs_unfold. right.
  apply list_elem_of_In, in_flat_map. exists c.
  split; apply list_elem_of_In; assumption.
Qed.

Lemma shape_stripped (h h' : store) (a : addr) :
  same_but_aggregates h h' -> shape <$> (h' !! a) = shape <$> (h !! a).
Proof.
  intros Hs. specialize (Hs a).
  destruct (h !! a) as [nd|], (h' !! a) as [nd'|]; try discriminate;
    [|reflexivity].
  simpl in Hs |- *. injection Hs as Hs. f_equal.
  destruct nd, nd'. unfold strip, Node.set_aggregates, shape in *.
  simpl in *. congruence.
Qed.

End Grow.

(** X25: [add_child] grows a tree by one subtree: when [self] is the root of
    a tree, [child] the root of another tree apart from it, and the call
    returns, the objects reachable from [self] form the first tree with the
    second one in a new last slot. *)
Theorem add_child_grows_tree (fuel : nat) (t c : tree) (h h' : store) :
  is_tree h t = true -> distinct t = true -> is_tree h c = true ->
  root c ∉ addrs t -> root t ∉ addrs c ->
  NodeMethods.add_child fuel (root t) (root c) h = Ok h' ->
  is_tree h' (T (root t) (tval t) (slots t ++ [Some c])) = true.
Proof.
  intros Ht Hd Hc Hct Htc H. apply distinct_nodup in Hd.
  pose proof Ht as Ht0. pose proof Hc as Hc0.
  apply is_tree_unfold in Ht0 as (nd & Ha & Hv & Hch & Hk).
  apply is_tree_unfold in Hc0 as (ndc & Hac & _).
  assert (Hne : root t <> root c).
  { intros Heq. apply Hct. rewrite <- Heq, addrs_unfold. left. }
  unfold NodeMethods.add_child, modify, get in H. rewrite Ha in H.
  cbn [mbind res_bind] in H.
  rewrite lookup_insert_ne in H by exact Hne. rewrite Hac in H.
  cbn [mbind res_bind] in H.
  set (nd1 := Node.set_children (Node.children nd ++ [Some (root c)]) nd) in H.
  set (h1 := <[root c := Node.set_parent (Some (root t)) ndc]>
               (<[root t := nd1]> h)) in H.
  destruct (update_frame fuel _ _ _ H) as [Hs _].
  assert (Hroot_out : root t ∉ flat_map addrs (kids t)).
  { rewrite addrs_unfold in Hd. now apply NoDup_cons in Hd as [Hr _]. }
  apply is_tree_unfold. cbn [root tval slots].
  pose proof (shape_stripped h1 h' (root t) Hs) as Hsh.
  unfold h1 in Hsh.
  rewrite lookup_insert_ne, lookup_insert_eq in Hsh by congruence.
  destruct (h' !! root t) as [nd'|]; [|discriminate].
  injection Hsh as Hv' Hc'. exists nd'.
  split; [reflexivity|]. split; [rewrite Hv'; exact Hv|]. split.
  { rewrite Hc'. unfold nd1. destruct nd. simpl in *.
    rewrite Hch, map_app. reflexivity. }
  change (kids (T (root t) (tval t) (slots t ++ [Some c])))
    with (omap id (slots t ++ [Some c])).
  rewrite omap_app. fold (kids t). simpl. apply Forall_app. split.
  - rewrite Forall_forall in Hk |- *. intros k Hin.
    apply (is_tree_agree h); [|now apply Hk].
    intros a Hak. rewrite (shape_stripped h1 h' a Hs). unfold h1.
    assert (Hat : a ∈ flat_map addrs (kids t)).
    { apply list_elem_of_In, in_flat_map. exists k.
      split; apply list_elem_of_In; assumption. }
    rewrite !lookup_insert_ne; [reflexivity| |].
    + intros <-. now apply Hroot_out.
    + intros <-. apply Hct. rewrite addrs_unfold. now right.
  - constructor; [|constructor].
    apply (is_tree_agree h); [|exact Hc].
    intros a Hac'. rewrite (shape_stripped h1 h' a Hs). unfold h1.
    destruct (decide (root c = a)) as [<-|Hna].
    + rewrite lookup_insert_eq, Hac. reflexivity.
    + rewrite !lookup_insert_ne; [reflexivity| |exact Hna].
      intros <-. now apply Htc.
Qed.

Lemma add_child_grows_tree_witness :
  is_tree chain_store
          (T (root (T 0%nat None [])) (tval (T 0%nat None []))
             (slots (T 0%nat None []) ++ [Some (T 1%nat None [])]))
  = true.
Proof.
  apply (add_child_grows_tree 3 (T 0%nat None []) (T 1%nat None [])
           three_nodes chain_store).
  - vm_compute. reflexivity.
  - vm_compute. reflexivity.
  - vm_compute. reflexivity.
  - vm_compute. intros Hin. apply list_elem_of_singleton in Hin. discriminate.
  - vm_compute. intros Hin. apply list_elem_of_singleton in Hin. discriminate.
  - vm_compute. reflexivity.
Defined.

Section BinaryGrow.

Lemma elem_of_insert_inv {A : Type} (l : list A) (i : nat) (x y : A) :
  y ∈ <[i := x]> l -> y = x \/ y ∈ l.
Proof.
  revert i. induction l as [|a l IH]; intros [|i]; simpl; intros Hy.
  - inversion Hy.
  - inversion Hy.
  - apply elem_of_cons in Hy as [->|Hy]; [now left|right; now right].
  - apply elem_of_cons in Hy as [->|Hy]; [right; left|].
    destruct (IH _ Hy) as [->|Hin]; [now left|right; now right].
Qed.

Lemma init_slots_children (t : tree) (nd : Node.t) :
  Node.children nd = map (option_map root) (slots t) ->
  Node.children (NodeMethods.init_slots nd)
  = map (option_map root) (two_slots t)
  /\ Node.val (NodeMethods.init_slots nd) = Node.val nd.
Proof.
  intros Hc. unfold NodeMethods.init_slots, two_slots. rewrite Hc.
  destruct (slots t) as [|s cs]; simpl; [|now rewrite Hc].
  destruct nd. split; reflexivity.
Qed.

Lemma kids_two_slots (t k : tree) : Some k ∈ two_slots t -> k ∈ kids t.
Proof.
  unfold two_slots, kids. destruct (slots t) as [|s cs] eqn:Es.
  - intros Hk. apply elem_of_cons in Hk as [Hk|Hk]; [discriminate|].
    apply list_elem_of_singleton in Hk. discriminate.
  - intros Hk. apply list_elem_of_omap. exists (Some k). split; [exact Hk|reflexivity].
Qed.

(** [self.children[i] = node; node.parent = self; self._update()] after the
    slots have been made sure of. *)
Lemma slot_grows_tree (i fuel : nat) (t c : tree) (h h' : store) :
  is_tree h t = true -> NoDup (addrs t) -> is_tree h c = true ->
  root c ∉ addrs t -> root t ∉ addrs c ->
  (nd ← get h (root t);
   nd ← NodeMethods.set_slot i (root c) (NodeMethods.init_slots nd);
   h ← modify (Node.set_parent (Some (root t))) (root c) (<[root t := nd]> h);
   NodeMethods._update fuel (root t) h) = Ok h' ->
  is_tree h' (T (root t) (tval t) (<[i := Some c]> (two_slots t))) = true.
Proof.
  intros Ht Hd Hc Hct Htc H.
  pose proof Ht as Ht0. pose proof Hc as Hc0.
  apply is_tree_unfold in Ht0 as (nd & Ha & Hv & Hch & Hk).
  apply is_tree_unfold in Hc0 as (ndc & Hac & _).
  assert (Hne : root t <> root c).
  { intros Heq. apply Hct. rewrite <- Heq, addrs_unfold. left. }
  destruct (init_slots_children t nd Hch) as [Hch2 Hv2].
  unfold get in H. rewrite Ha in H. cbn [mbind res_bind] in H.
  unfold NodeMethods.set_slot in H.
  destruct (i <? length (Node.children (NodeMethods.init_slots nd)))%nat;
    [|discriminate].
  cbn [mbind res_bind] in H. unfold modify, get in H.
  rewrite lookup_insert_ne in H by exact Hne. rewrite Hac in H.
  cbn [mbind res_bind] in H.
  set (nd1 := Node.set_children _ (NodeMethods.init_slots nd)) in H.
  set (h1 := <[root c := Node.set_parent (Some (root t)) ndc]>
               (<[root t := nd1]> h)) in H.
  destruct (update_frame fuel _ _ _ H) as [Hs _].
  assert (Hroot_out : root t ∉ flat_map addrs (kids t)).
  { rewrite addrs_unfold in Hd. now apply NoDup_cons in Hd as [Hr _]. }
  apply is_tree_unfold. cbn [root tval slots].
  pose proof (shape_stripped h1 h' (root t) Hs) as Hsh.
  unfold h1 in Hsh.
  rewrite lookup_insert_ne, lookup_insert_eq in Hsh by congruence.
  destruct (h' !! root t) as [nd'|]; [|discriminate].
  injection Hsh as Hv' Hc'. exists nd'.
  split; [reflexivity|]. split.
  { rewrite Hv'. unfold nd1. destruct (NodeMethods.init_slots nd) eqn:En.
    simpl in *. congruence. }
  split.
  { rewrite Hc'. unfold nd1. destruct (NodeMethods.init_slots nd) eqn:En.
    simpl in *. rewrite Hch2.
    change (map (option_map root) ?l) with (option_map root <$> l).
    now rewrite list_fmap_insert. }
  apply Forall_forall. intros k Hin.
  change (kids (T (root t) (tval t) (<[i := Some c]> (two_slots t))))
    with (omap id (<[i := Some c]> (two_slots t))) in Hin.
  apply list_elem_of_omap in Hin as (s & Hs' & Hsk). simpl in Hsk. subst s.
  apply elem_of_insert_inv in Hs' as [[= ->]|Hin].
  - apply (is_tree_agree h); [|exact Hc].
    intros a Hac'. rewrite (shape_stripped h1 h' a Hs). unfold h1.
    destruct (decide (root c = a)) as [<-|Hna].
    + rewrite lookup_insert_eq, Hac. reflexivity.
    + rewrite !lookup_insert_ne; [reflexivity| |exact Hna].
      intros <-. now apply Htc.
  - apply kids_two_slots in Hin. rewrite Forall_forall in Hk.
    apply (is_tree_agree h); [|now apply Hk].
    intros a Hak. rewrite (shape_stripped h1 h' a Hs). unfold h1.
    assert (Hat : a ∈ flat_map addrs (kids t)).
    { apply list_elem_of_In, in_flat_map. exists k.
      split; apply list_elem_of_In; assumption. }
    rewrite !lookup_insert_ne; [reflexivity| |].
    + intros <-. now apply Hroot_out.
    + intros <-. apply Hct. rewrite addrs_unfold. now right.
Qed.

End BinaryGrow.

(** X26: [add_left] and [add_right] put a subtree into the first and into
    the second slot: when [self] is the root of a tree, [node] the root of
    another tree apart from it, and the call returns, the objects reachable
    from [self] form the first tree with the second one in that slot, the
    two slots being created empty when [self] had none. *)
Theorem binary_add_sets_slot (fuel : nat) (t c : tree) (h h' : store) :
  is_tree h t = true -> distinct t = true -> is_tree h c = true ->
  root c ∉ addrs t -> root t ∉ addrs c ->
  (NodeMethods.add_left fuel (root t) (root c) h = Ok h' ->
   is_tree h' (T (root t) (tval t) (<[0%nat := Some c]> (two_slots t)))
   = true)
  /\ (NodeMethods.add_right fuel (root t) (root c) h = Ok h' ->
      is_tree h' (T (root t) (tval t) (<[1%nat := Some c]> (two_slots t)))
      = true).
Proof.
  intros Ht Hd Hc Hct Htc. apply distinct_nodup in Hd. split; intros H.
  - exact (slot_grows_tree 0 fuel t c h h' Ht Hd Hc Hct Htc H).
  - exact (slot_grows_tree 1 fuel t c h h' Ht Hd Hc Hct Htc H).
Qed.

Lemma binary_add_sets_slot_witness :
  is_tree left_store (T 0%nat None [Some (T 1%nat None []); None]) = true
  /\ is_tree right_store (T 0%nat None [None; Some (T 1%nat None [])]) = true.
Proof.
  split.
  - apply (binary_add_sets_slot 3 (T 0%nat None []) (T 1%nat None [])
             three_nodes left_store).
    + vm_compute. reflexivity.
    + vm_compute. reflexivity.
    + vm_compute. reflexivity.
    + vm_compute. intros Hin. apply list_elem_of_singleton in Hin.
      discriminate.
    + vm_compute. intros Hin. apply list_elem_of_singleton in Hin.
      discriminate.
    + vm_compute. reflexivity.
  - apply (binary_add_sets_slot 3 (T 0%nat None []) (T 1%nat None [])
             three_nodes right_store).
    + vm_compute. reflexivity.
    + vm_compute. reflexivity.
    + vm_compute. reflexivity.
    + vm_compute. intros Hin. apply list_elem_of_singleton in Hin.
      discriminate.
    + vm_compute. intros Hin. apply list_elem_of_singleton in Hin.
      discriminate.
    + vm_compute. reflexivity.
Defined.
